(** * afl-support language server: analysis core

    A shallow embedding of the analysis pipeline of the AFL language
    server (server/src/symbolTable.ts, server/src/util.ts,
    server/src/rules/functions.ts and the handlers of server/src/server.ts)
    together with the properties its specification states about it.

    Conventions.  A JavaScript string is a list of code units; the
    embedding covers code units below 256 ([ascii]).  Indices, line
    numbers and columns are [nat]; a cursor offset received from the
    editor is a [Z].  Regular expressions are embedded as the scanners
    they denote, one definition per pattern, named after the place where
    the pattern occurs. *)

From Stdlib Require Import Ascii String DecimalString List ZArith Lia Bool Arith.
Import ListNotations.


(** ** JavaScript strings *)

Module Js.

Definition jsstring := list ascii.

Definition str (s : string) : jsstring := list_ascii_of_string s.

Definition dquote : ascii := "034"%char.
Definition backslash : ascii := "\"%char.
Definition LF : ascii := "010"%char.
Definition CR : ascii := "013"%char.
Definition space : ascii := " "%char.
Definition lparen : ascii := "("%char.
Definition rparen : ascii := ")"%char.

Definition code (c : ascii) : nat := nat_of_ascii c.

Definition inRange (lo hi : nat) (c : ascii) : bool :=
  (lo <=? code c) && (code c <=? hi).

(** [[A-Za-z_]] *)
Definition isIdentStart (c : ascii) : bool :=
  inRange 65 90 c || inRange 97 122 c || (code c =? 95).

(** [[0-9]] *)
Definition isDigit (c : ascii) : bool := inRange 48 57 c.

(** [[A-Za-z0-9_]], which is also the class of word characters that
    [\b] is defined by. *)
Definition isIdentPart (c : ascii) : bool := isIdentStart c || isDigit c.

(** [\s] on code units below 256: TAB, LF, VT, FF, CR, space and the
    no-break space. *)
Definition isSpace (c : ascii) : bool :=
  inRange 9 13 c || (code c =? 32) || (code c =? 160).

(** The characters that [.] does not match: LF and CR.  The two other
    line terminators of the language, U+2028 and U+2029, lie beyond the
    8-bit code units of [jsstring]. *)
Definition isLineTerminator (c : ascii) : bool :=
  (code c =? 10) || (code c =? 13).

Definition eqc (a b : ascii) : bool := Ascii.eqb a b.

Fixpoint takeWhile (p : ascii -> bool) (s : jsstring) : jsstring :=
  match s with
  | [] => []
  | c :: r => if p c then c :: takeWhile p r else []
  end.

Fixpoint dropWhile (p : ascii -> bool) (s : jsstring) : jsstring :=
  match s with
  | [] => []
  | c :: r => if p c then dropWhile p r else s
  end.

(** [s.slice(a, b)] for [0 <= a], [0 <= b]. *)
Definition slice (s : jsstring) (a b : nat) : jsstring :=
  firstn (b - a) (skipn a s).

(** [s.substring(a, b)] for [0 <= a], [0 <= b]: the two arguments are
    swapped when the first is the greater one. *)
Definition substring (s : jsstring) (a b : nat) : jsstring :=
  slice s (Nat.min a b) (Nat.max a b).

(** [s.startsWith(p)] *)
Fixpoint startsWith (p s : jsstring) : bool :=
  match p, s with
  | [], _ => true
  | _ :: _, [] => false
  | a :: p', b :: s' => eqc a b && startsWith p' s'
  end.

(** [s.includes(p)] *)
Fixpoint includes (p s : jsstring) : bool :=
  startsWith p s ||
  match s with
  | [] => false
  | _ :: r => includes p r
  end.

(** [s.indexOf(ch, from)] for a one-character needle; [None] stands for
    the result [-1]. *)
Fixpoint indexOfFrom (ch : ascii) (s : jsstring) (i : nat) : option nat :=
  match s with
  | [] => None
  | c :: r => if eqc c ch then Some i else indexOfFrom ch r (S i)
  end.

Definition indexOf (ch : ascii) (s : jsstring) (from : nat) : option nat :=
  indexOfFrom ch (skipn from s) from.

(** [s.lastIndexOf(ch)] for a one-character needle. *)
Fixpoint lastIndexOfFrom (ch : ascii) (s : jsstring) (i : nat) : option nat :=
  match s with
  | [] => None
  | c :: r =>
      match lastIndexOfFrom ch r (S i) with
      | Some j => Some j
      | None => if eqc c ch then Some i else None
      end
  end.

Definition lastIndexOf (ch : ascii) (s : jsstring) : option nat :=
  lastIndexOfFrom ch s 0.

(** [text.split(/\r?\n/)]: a line ends at every LF; a CR that stands
    immediately before that LF belongs to the separator. *)
Fixpoint splitLines (s : jsstring) : list jsstring :=
  match s with
  | [] => [[]]
  | c :: r =>
      if eqc c LF then [] :: splitLines r
      else
        match r with
        | d :: r' =>
            if eqc c CR && eqc d LF then [] :: splitLines r'
            else
              match splitLines r with
              | l :: ls => (c :: l) :: ls
              | [] => [[c]]
              end
        | [] => [[c]]
        end
  end.

End Js.

Import Js.

(** ** Insertion-ordered maps with string keys (JavaScript [Map]) *)

Module JsMap.

Fixpoint eqs (a b : jsstring) : bool :=
  match a, b with
  | [], [] => true
  | x :: a', y :: b' => eqc x y && eqs a' b'
  | _, _ => false
  end.

Definition t (V : Type) := list (jsstring * V).

Definition empty {V : Type} : t V := [].

(** [m.get(k)] *)
Fixpoint get {V : Type} (k : jsstring) (m : t V) : option V :=
  match m with
  | [] => None
  | (k', v) :: r => if eqs k k' then Some v else get k r
  end.

(** [m.set(k, v)]: an existing key keeps its place in the iteration
    order, a new key goes to the end. *)
Fixpoint set {V : Type} (k : jsstring) (v : V) (m : t V) : t V :=
  match m with
  | [] => [(k, v)]
  | (k', v') :: r => if eqs k k' then (k, v) :: r else (k', v') :: set k v r
  end.

(** [m.delete(k)] *)
Fixpoint delete {V : Type} (k : jsstring) (m : t V) : t V :=
  match m with
  | [] => []
  | (k', v') :: r => if eqs k k' then r else (k', v') :: delete k r
  end.

(** The keys in iteration order. *)
Definition keys {V : Type} (m : t V) : list jsstring := map fst m.

(** [for (const [k, v] of src) dst.set(k, v)] *)
Definition setAll {V : Type} (src dst : t V) : t V :=
  fold_left (fun acc kv => set (fst kv) (snd kv) acc) src dst.

End JsMap.

(** ** Protocol types (vscode-languageserver-types) *)

Module Lsp.

Record Position := { line : nat; character : nat }.

Record Range := { start : Position; end_ : Position }.

Definition Range_create (sl sc el ec : nat) : Range :=
  {| start := {| line := sl; character := sc |};
     end_ := {| line := el; character := ec |} |}.

Record Location := { loc_uri : jsstring; loc_range : Range }.

Inductive DiagnosticSeverity := Error | Warning | Information | Hint.

Record Diagnostic := {
  severity : DiagnosticSeverity;
  range : Range;
  message : jsstring;
  source : jsstring
}.

Record TextEdit := { edit_range : Range; newText : jsstring }.

Inductive CodeActionKind := QuickFix.

Record CodeAction := {
  title : jsstring;
  kind : CodeActionKind;
  diagnostics : list Diagnostic;
  changes : JsMap.t (list TextEdit)
}.

Inductive CompletionItemKind := CIK_Function.

Record CompletionItem := {
  label : jsstring;
  ci_kind : CompletionItemKind;
  data : jsstring
}.

Definition position_eqb (p q : Position) : bool :=
  (line p =? line q) && (character p =? character q).

Inductive MarkupKind := PlainText | Markdown.

Record MarkupContent := { mc_kind : MarkupKind; mc_value : jsstring }.

Record Hover := { contents : MarkupContent }.

(** A text document as the server holds it. *)
Record TextDocument := {
  uri : jsstring;
  languageId : jsstring;
  content : jsstring
}.

(** [document.getText()] *)
Definition getText (d : TextDocument) : jsstring := content d.

(** Modelled from the spec: [TextDocument] is the class of the protocol
    library (vscode-languageserver-textdocument), which is not part of
    the sources; the spec has the quick fix read the live text that a
    range spans.  Positions are resolved as that class resolves them.
    [isEOL]: the code units at which it ends a line. *)
Definition isEOL (c : ascii) : bool := eqc c CR || eqc c LF.

(** Modelled from the spec: the loop of [computeLineOffsets] of that
    class, from offset [i] on: a line starts behind every LF, behind
    every CR LF and behind every CR that no LF follows. *)
Fixpoint lineOffsetsFrom (text : jsstring) (i : nat) : list nat :=
  match text with
  | [] => []
  | c :: r =>
      if isEOL c then
        match r with
        | d :: r' =>
            if eqc c CR && eqc d LF then (i + 2) :: lineOffsetsFrom r' (i + 2)
            else (i + 1) :: lineOffsetsFrom r (i + 1)
        | [] => [i + 1]
        end
      else lineOffsetsFrom r (i + 1)
  end.

(** Modelled from the spec: [computeLineOffsets(text, true)], the
    offsets at which the lines of the document start. *)
Definition computeLineOffsets (text : jsstring) : list nat :=
  0 :: lineOffsetsFrom text 0.

(** Modelled from the spec: [ensureBeforeEOL(offset, lineOffset)] of
    that class steps back over the line ending in front of [offset]. *)
Fixpoint ensureBeforeEOL (text : jsstring) (offset lineOffset : nat) : nat :=
  match offset with
  | O => O
  | S o =>
      if (lineOffset <? offset)
         && match nth_error text o with
            | Some c => isEOL c
            | None => false
            end
      then ensureBeforeEOL text o lineOffset
      else offset
  end.

(** Modelled from the spec: [document.offsetAt(position)] of that
    class.  A line beyond the last one gives the length of the text; a
    column beyond the end of its line gives the end of that line, in
    front of its line ending. *)
Definition offsetAt (text : jsstring) (p : Position) : nat :=
  let lineOffsets := computeLineOffsets text in
  if length lineOffsets <=? line p then length text
  else
    let lineOffset := nth (line p) lineOffsets 0 in
    if character p =? 0 then lineOffset
    else
      let nextLineOffset :=
        if line p + 1 <? length lineOffsets then nth (line p + 1) lineOffsets 0
        else length text in
      let offset := Nat.min (lineOffset + character p) nextLineOffset in
      ensureBeforeEOL text offset lineOffset.

(** Modelled from the spec: [document.getText(range)] reads the live
    text spanned by the range, between the offsets of its two ends. *)
Definition getTextRange (d : TextDocument) (r : Range) : jsstring :=
  substring (content d) (offsetAt (content d) (start r)) (offsetAt (content d) (end_ r)).

(** Modelled from the spec: the editor applies a text edit by replacing
    the text spanned by the edit's range with the new text. *)
Definition applyEdit (text : jsstring) (e : TextEdit) : jsstring :=
  let a := offsetAt text (start (edit_range e)) in
  let b := offsetAt text (end_ (edit_range e)) in
  firstn (Nat.min a b) text ++ newText e ++ skipn (Nat.max a b) text.

End Lsp.

Import Lsp.

(** ** The syntax tree delivered by the parser (acorn's [AnyNode]) *)

Module Ast.

(** A position of the parser: acorn counts lines from 1 and columns
    from 0. *)
Record SrcPosition := { p_line : positive; p_column : nat }.

(** [node.loc] *)
Record SourceLocation := { l_start : SrcPosition; l_end : SrcPosition }.

#[local] Set Warnings "-register-all".

(** The node kinds and the fields the symbol indexer reads.  A variable
    declaration lists the [id] of each of its declarators. *)
Inductive AnyNode :=
| Program (loc : option SourceLocation) (body : list AnyNode)
| FunctionDeclaration (loc : option SourceLocation) (id : option AnyNode)
    (params : list AnyNode) (body : option (list AnyNode))
| VariableDeclaration (loc : option SourceLocation) (declarations : list AnyNode)
| Identifier (loc : option SourceLocation) (name : jsstring)
| OtherNode (loc : option SourceLocation).

End Ast.

Import Ast.

(** ** The state of the server process and its effects *)

Module Runtime.

(** A callback handed to [setTimeout].  The only one in the program is
    the closure of [onDidChangeContent], which holds the document of the
    event.  The document is the value of the event: every later change
    of an afl document goes through [onDidChangeContent] again and
    replaces the timer, so the text that a timer reads when it fires is
    the text of the event that set it. *)
Inductive Callback := UpdateSymbols (doc : TextDocument).

Record Timer := { timerId : nat; due : nat; callback : Callback }.

(** The module-level variables of symbolTable.ts and server.ts, the
    error console, and the clock and timer queue of the event loop. *)
Record State := {
  symbolTable : JsMap.t Location;
  symbolInfoMap : JsMap.t jsstring;
  astMap : JsMap.t AnyNode;
  console : list jsstring;
  documents : JsMap.t TextDocument;
  documentSettings : JsMap.t nat;
  updateSymbolTimeout : option nat;
  timers : list Timer;
  nextTimerId : nat;
  now : nat
}.

Definition initial : State :=
  {| symbolTable := JsMap.empty; symbolInfoMap := JsMap.empty;
     astMap := JsMap.empty; console := [];
     documents := JsMap.empty; documentSettings := JsMap.empty;
     updateSymbolTimeout := None; timers := []; nextTimerId := 1; now := 0 |}.

Definition with_symbolTable (f : JsMap.t Location -> JsMap.t Location) (s : State) :=
  {| symbolTable := f (symbolTable s); symbolInfoMap := symbolInfoMap s;
     astMap := astMap s; console := console s;
     documents := documents s; documentSettings := documentSettings s;
     updateSymbolTimeout := updateSymbolTimeout s; timers := timers s;
     nextTimerId := nextTimerId s; now := now s |}.

Definition with_symbolInfoMap (f : JsMap.t jsstring -> JsMap.t jsstring) (s : State) :=
  {| symbolTable := symbolTable s; symbolInfoMap := f (symbolInfoMap s);
     astMap := astMap s; console := console s;
     documents := documents s; documentSettings := documentSettings s;
     updateSymbolTimeout := updateSymbolTimeout s; timers := timers s;
     nextTimerId := nextTimerId s; now := now s |}.

Definition with_astMap (f : JsMap.t AnyNode -> JsMap.t AnyNode) (s : State) :=
  {| symbolTable := symbolTable s; symbolInfoMap := symbolInfoMap s;
     astMap := f (astMap s); console := console s;
     documents := documents s; documentSettings := documentSettings s;
     updateSymbolTimeout := updateSymbolTimeout s; timers := timers s;
     nextTimerId := nextTimerId s; now := now s |}.

Definition with_console (f : list jsstring -> list jsstring) (s : State) :=
  {| symbolTable := symbolTable s; symbolInfoMap := symbolInfoMap s;
     astMap := astMap s; console := f (console s);
     documents := documents s; documentSettings := documentSettings s;
     updateSymbolTimeout := updateSymbolTimeout s; timers := timers s;
     nextTimerId := nextTimerId s; now := now s |}.

Definition with_documents (f : JsMap.t TextDocument -> JsMap.t TextDocument) (s : State) :=
  {| symbolTable := symbolTable s; symbolInfoMap := symbolInfoMap s;
     astMap := astMap s; console := console s;
     documents := f (documents s); documentSettings := documentSettings s;
     updateSymbolTimeout := updateSymbolTimeout s; timers := timers s;
     nextTimerId := nextTimerId s; now := now s |}.

Definition with_documentSettings (f : JsMap.t nat -> JsMap.t nat) (s : State) :=
  {| symbolTable := symbolTable s; symbolInfoMap := symbolInfoMap s;
     astMap := astMap s; console := console s;
     documents := documents s; documentSettings := f (documentSettings s);
     updateSymbolTimeout := updateSymbolTimeout s; timers := timers s;
     nextTimerId := nextTimerId s; now := now s |}.

Definition with_timeout (h : option nat) (s : State) :=
  {| symbolTable := symbolTable s; symbolInfoMap := symbolInfoMap s;
     astMap := astMap s; console := console s;
     documents := documents s; documentSettings := documentSettings s;
     updateSymbolTimeout := h; timers := timers s;
     nextTimerId := nextTimerId s; now := now s |}.

Definition with_timers (f : list Timer -> list Timer) (s : State) :=
  {| symbolTable := symbolTable s; symbolInfoMap := symbolInfoMap s;
     astMap := astMap s; console := console s;
     documents := documents s; documentSettings := documentSettings s;
     updateSymbolTimeout := updateSymbolTimeout s; timers := f (timers s);
     nextTimerId := nextTimerId s; now := now s |}.

Definition with_nextTimerId (n : nat) (s : State) :=
  {| symbolTable := symbolTable s; symbolInfoMap := symbolInfoMap s;
     astMap := astMap s; console := console s;
     documents := documents s; documentSettings := documentSettings s;
     updateSymbolTimeout := updateSymbolTimeout s; timers := timers s;
     nextTimerId := n; now := now s |}.

Definition with_now (n : nat) (s : State) :=
  {| symbolTable := symbolTable s; symbolInfoMap := symbolInfoMap s;
     astMap := astMap s; console := console s;
     documents := documents s; documentSettings := documentSettings s;
     updateSymbolTimeout := updateSymbolTimeout s; timers := timers s;
     nextTimerId := nextTimerId s; now := n |}.

(** A thrown value. *)
Inductive JsError := SyntaxError (msg : jsstring).

(** How a call ends: with a value, or with an exception that reaches
    the caller. *)
Inductive Completion (A : Type) : Type :=
| Returns (a : A)
| Throws (e : JsError).

Arguments Returns {A} a.
Arguments Throws {A} e.

(** Computations over the server state that may throw; the state
    reached before a throw is kept. *)
Definition M (A : Type) : Type := State -> Completion A * State.

Definition ret {A : Type} (a : A) : M A := fun s => (Returns a, s).

(** A call of a function from outside the program, which returns or
    throws and leaves the state of the server alone. *)
Definition call {A : Type} (c : Completion A) : M A := fun s => (c, s).

Definition bind {A B : Type} (m : M A) (k : A -> M B) : M B :=
  fun s =>
    match m s with
    | (Returns a, s') => k a s'
    | (Throws e, s') => (Throws e, s')
    end.

(** [try { body } catch (error) { handler }] *)
Definition tryCatch {A : Type} (body : M A) (handler : JsError -> M A) : M A :=
  fun s =>
    match body s with
    | (Returns a, s') => (Returns a, s')
    | (Throws e, s') => handler e s'
    end.

Definition gets {A : Type} (f : State -> A) : M A := fun s => (Returns (f s), s).

Definition modify (f : State -> State) : M unit := fun s => (Returns tt, f s).

(** [console.error(msg)] *)
Definition console_error (msg : jsstring) : M unit :=
  modify (with_console (fun log => log ++ [msg])).

(** [xs.forEach(f)] *)
Fixpoint forEach {A : Type} (f : A -> M unit) (xs : list A) : M unit :=
  match xs with
  | [] => ret tt
  | x :: r => bind (f x) (fun _ => forEach f r)
  end.

(** [setTimeout(cb, delay)] of the event loop: the timer joins the
    queue and its handle is returned. *)
Definition setTimeout (cb : Callback) (delay : nat) : M nat :=
  fun s =>
    let id := nextTimerId s in
    (Returns id,
     with_nextTimerId (S id)
       (with_timers
          (fun q => q ++ [{| timerId := id; due := now s + delay; callback := cb |}]) s)).

(** [clearTimeout(handle)]: the timer leaves the queue; a handle whose
    timer has fired already is ignored. *)
Definition clearTimeout (id : nat) : M unit :=
  modify (with_timers (filter (fun t => negb (timerId t =? id)))).

Module Notations.
Notation "x <- m ;; k" := (bind m (fun x => k))
  (at level 61, m at next level, right associativity).
Notation "m ;; k" := (bind m (fun _ => k))
  (at level 61, right associativity).
End Notations.

End Runtime.

Import Runtime.
Import Runtime.Notations.

(** ** server/src/util.ts *)

Module Util.

(** The pattern of [stripStrings] reads, DQ standing for the double
    quote: backslash DQ, then any number of items, then backslash DQ;
    an item is either one code unit other than DQ and backslash, or a
    backslash followed by any code unit that is not a line terminator.

    [matchStringBody] tries the items and the closing delimiter at the
    head of [s] and gives the length of the match, if there is one.  The
    star is greedy: it takes one more item whenever the rest can still
    be matched, and otherwise stops, where the pattern asks for the
    closing backslash DQ. *)
Fixpoint matchStringBody (s : jsstring) : option nat :=
  match s with
  | [] => None
  | c :: r =>
      if eqc c backslash then
        match r with
        | [] => None
        | d :: r' =>
            match (if isLineTerminator d then None else matchStringBody r') with
            | Some n => Some (2 + n)
            | None => if eqc d dquote then Some 2 else None
            end
        end
      else if eqc c dquote then None
      else option_map S (matchStringBody r)
  end.

(** The whole pattern tried at the head of [s]: a backslash, a double
    quote, then the items and the closing delimiter. *)
Definition matchStringLiteral (s : jsstring) : option nat :=
  match s with
  | a :: b :: r =>
      if eqc a backslash && eqc b dquote
      then option_map (fun n => 2 + n) (matchStringBody r)
      else None
  | _ => None
  end.

(** [line.replace(pattern, (match) => ' '.repeat(match.length))] with
    the global flag:
    [pending] counts the code units of the current match that are still
    to be overwritten; the search for the next match resumes behind it. *)
Fixpoint blankMatches (pending : nat) (s : jsstring) : jsstring :=
  match s with
  | [] => []
  | c :: r =>
      match pending with
      | S p => space :: blankMatches p r
      | O =>
          match matchStringLiteral s with
          | Some (S p) => space :: blankMatches p r
          | _ => c :: blankMatches 0 r
          end
      end
  end.

Definition stripStrings (line : jsstring) : jsstring := blankMatches 0 line.

Section WithParser.

(** The parser, [Parser.extend(AFLParser).parse(text, options)]: it
    returns a tree or throws a syntax error. *)
Variable parse : jsstring -> Completion AnyNode.

Definition getAST (text : jsstring) : M (option AnyNode) :=
  tryCatch
    (ast <- call (parse text) ;;
     ret (Some ast))
    (fun error =>
       match error with
       | SyntaxError msg =>
           console_error (str "Error parsing text: " ++ msg) ;;
           ret None
       end).

End WithParser.

End Util.

(** ** server/src/symbolTable.ts : the position resolver and the symbol indexer *)

Module SymbolTable.

(** [regex.exec(line)] for [/[A-Za-z_][A-Za-z0-9_]*/g]: the search for
    the first identifier start in the suffix [s], which begins at column
    [i]; the match is the longest run of identifier characters there. *)
Fixpoint searchIdentifier (s : jsstring) (i : nat) : option (nat * jsstring) :=
  match s with
  | [] => None
  | c :: r =>
      if isIdentStart c then Some (i, c :: takeWhile isIdentPart r)
      else searchIdentifier r (S i)
  end.

Definition execIdentifier (line : jsstring) (lastIndex : nat)
  : option (nat * jsstring) :=
  searchIdentifier (skipn lastIndex line) lastIndex.

(** The [while ((match = regex.exec(line)))] loop.  Every iteration
    moves [lastIndex] forward, so [S (length line)] iterations are
    enough. *)
Fixpoint wordLoop (fuel : nat) (line : jsstring) (lastIndex : nat) (char : Z)
  : option jsstring :=
  match fuel with
  | O => None
  | S fuel' =>
      match execIdentifier line lastIndex with
      | None => None
      | Some (start, m) =>
          let end_ := start + length m in
          if ((Z.of_nat start <=? char) && (char <=? Z.of_nat end_))%Z
          then Some m
          else wordLoop fuel' line end_ char
      end
  end.

Definition getWordAtPosition (line : jsstring) (char : Z) : option jsstring :=
  wordLoop (S (length line)) line 0 char.

(** [String(n)] for a natural number. *)
Definition decimal (n : nat) : jsstring :=
  str (NilEmpty.string_of_uint (Nat.to_uint n)).

Record SymbolInfo := {
  si_name : jsstring;
  si_loc : Location;
  si_info : jsstring
}.

Definition isIdentifierNode (n : AnyNode) : bool :=
  match n with
  | Identifier _ _ => true
  | _ => false
  end.

Fixpoint analyzeNode (node : AnyNode) (uri : jsstring) : list SymbolInfo :=
  match node with
  | FunctionDeclaration loc id params body =>
      match id, loc with
      | Some identifier, Some _ =>
          if isIdentifierNode identifier then
            analyzeNode identifier uri
            ++ match body with
               | Some stmts => flat_map (fun childNode => analyzeNode childNode uri) stmts
               | None => []
               end
            ++ flat_map (fun param => analyzeNode param uri) params
          else []
      | _, _ => []
      end
  | VariableDeclaration _ declarations =>
      flat_map (fun identifier => analyzeNode identifier uri) declarations
  | Identifier (Some loc) name =>
      [ {| si_name := name;
           si_loc := {| loc_uri := uri;
                        loc_range := Range_create
                          (Pos.to_nat (p_line (l_start loc)) - 1) (p_column (l_start loc))
                          (Pos.to_nat (p_line (l_end loc)) - 1) (p_column (l_end loc)) |};
           si_info := str "Identifier used at line "
                      ++ decimal (Pos.to_nat (p_line (l_start loc))) |} ]
  | _ => []
  end.

(** [processNode]: the new table is a local of [analyzeText] and is
    threaded through; [symbolInfoMap] is the module-level map. *)
Definition processNode (node : AnyNode) (uri : jsstring) (table : JsMap.t Location)
  : M (JsMap.t Location) :=
  fun s =>
    let nodeInfo := analyzeNode node uri in
    (Returns (fold_left (fun t info => JsMap.set (si_name info) (si_loc info) t) nodeInfo table),
     with_symbolInfoMap
       (fun m => fold_left (fun m info => JsMap.set (si_name info) (si_info info) m) nodeInfo m)
       s).

Fixpoint processNodes (nodes : list AnyNode) (uri : jsstring) (table : JsMap.t Location)
  : M (JsMap.t Location) :=
  match nodes with
  | [] => ret table
  | node :: rest =>
      table' <- processNode node uri table ;;
      processNodes rest uri table'
  end.

Section WithParser.

Variable parse : jsstring -> Completion AnyNode.

Definition analyzeText (text uri : jsstring) (clearCache : bool) : M (JsMap.t Location) :=
  let table := JsMap.empty in
  cached <- gets (fun s => JsMap.get uri (astMap s)) ;;
  ast <- (match cached with
          | Some a => if clearCache then Util.getAST parse text else ret (Some a)
          | None => Util.getAST parse text
          end) ;;
  match ast with
  | Some ast =>
      modify (with_astMap (JsMap.set uri ast)) ;;
      match ast with
      | Program _ body => processNodes body uri table
      | _ => processNode ast uri table
      end
  | None =>
      console_error (str "Failed to parse AST for URI: " ++ uri) ;;
      ret table
  end.

End WithParser.

(** [getSymbolInfo]: an empty info string is falsy and reads as [null]. *)
Definition getSymbolInfo (name : jsstring) (s : State) : option jsstring :=
  match JsMap.get name (symbolInfoMap s) with
  | Some (c :: r) => Some (c :: r)
  | _ => None
  end.

End SymbolTable.

(** ** server/src/rules/functions.ts : the lint rule and its quick fix *)

Module Functions.

(** [/^\s*\/\//.test(originalLine)] *)
Definition isLineComment (originalLine : jsstring) : bool :=
  startsWith (str "//") (dropWhile isSpace originalLine).

(** [originalLine.replace(/\/\/.*$/, '')]: the match starts at the first
    [//] from which no line terminator occurs up to the end of the
    string, and it extends to that end. *)
Fixpoint removeLineComment (s : jsstring) : jsstring :=
  match s with
  | [] => []
  | c :: r =>
      if startsWith (str "//") s
         && forallb (fun d => negb (isLineTerminator d)) (skipn 2 s)
      then []
      else c :: removeLineComment r
  end.

Definition isWordAt (o : option ascii) : bool :=
  match o with
  | Some c => isIdentPart c
  | None => false
  end.

(** [\b] between the code units [prev] and [next]. *)
Definition wordBoundary (prev next : option ascii) : bool :=
  xorb (isWordAt prev) (isWordAt next).

(** [callStartPattern] reads: [\b], the captured identifier
    [[A-Za-z_][A-Za-z0-9_]*], then [\s*] and an opening parenthesis.
    [matchCallStart] tries it at the head of [s], where [prev] is the
    code unit before it, and gives the captured identifier and the
    length of the whole match.  The identifier and the white space are
    taken greedily; a shorter choice is followed by a code unit that the
    rest of the pattern rejects. *)
Definition matchCallStart (prev : option ascii) (s : jsstring)
  : option (jsstring * nat) :=
  match s with
  | [] => None
  | c :: r =>
      if wordBoundary prev (Some c) && isIdentStart c then
        let functionName := c :: takeWhile isIdentPart r in
        let afterName := dropWhile isIdentPart r in
        let ws := takeWhile isSpace afterName in
        match dropWhile isSpace afterName with
        | d :: _ =>
            if eqc d lparen
            then Some (functionName, length functionName + length ws + 1)
            else None
        | [] => None
        end
      else None
  end.

(** The leftmost match in the suffix [s] that begins at column [i]:
    [match.index], [match[1]] and the new [lastIndex]. *)
Fixpoint searchCallStart (prev : option ascii) (s : jsstring) (i : nat)
  : option (nat * jsstring * nat) :=
  match matchCallStart prev s with
  | Some (functionName, len) => Some (i, functionName, i + len)
  | None =>
      match s with
      | [] => None
      | c :: r => searchCallStart (Some c) r (S i)
      end
  end.

(** [callStartPattern.exec(line)] with the pattern's [lastIndex]. *)
Definition execCallStart (line : jsstring) (lastIndex : nat)
  : option (nat * jsstring * nat) :=
  searchCallStart
    (match lastIndex with O => None | S p => nth_error line p end)
    (skipn lastIndex line) lastIndex.

(** The depth-counting loop [for (let i = openParenIdx; ...)] on the
    suffix [s] that begins at column [i]. *)
Fixpoint closeParenLoop (s : jsstring) (i : nat) (depth : Z) : option nat :=
  match s with
  | [] => None
  | c :: r =>
      let depth' :=
        if eqc c lparen then (depth + 1)%Z
        else if eqc c rparen then (depth - 1)%Z
        else depth in
      if (depth' =? 0)%Z then Some i else closeParenLoop r (S i) depth'
  end.

Definition findCloseParen (line : jsstring) (openParenIdx : nat) : option nat :=
  closeParenLoop (skipn openParenIdx line) openParenIdx 0%Z.

(** [/^\s*$/.test(args)] *)
Definition isBlank (args : jsstring) : bool := forallb isSpace args.

(** [/^\s/.test(args)] *)
Definition startsWithSpace (args : jsstring) : bool :=
  match args with
  | c :: _ => isSpace c
  | [] => false
  end.

(** [/\s$/.test(args)] *)
Definition endsWithSpace (args : jsstring) : bool :=
  match rev args with
  | c :: _ => isSpace c
  | [] => false
  end.

Definition msgBoth : jsstring :=
  str "Function arguments must have space after '(' and before ')'".
Definition msgBefore : jsstring := str "Expected space before ')'".
Definition msgAfter : jsstring := str "Expected space after '('".

(** The body of the [while] loop for one match of [callStartPattern]:
    the diagnostics it pushes. *)
Definition checkCall (lineNum : nat) (line : jsstring) (startChar : nat)
    (functionName : jsstring) : list Diagnostic :=
  match indexOf lparen line (startChar + length functionName) with
  | None => []
  | Some openParenIdx =>
      match findCloseParen line openParenIdx with
      | None => []
      | Some closeParenIdx =>
          let args := slice line (openParenIdx + 1) closeParenIdx in
          if isBlank args then []
          else
            let hasSpaceAfterParen := startsWithSpace args in
            let hasSpaceBeforeParen := endsWithSpace args in
            if negb hasSpaceAfterParen || negb hasSpaceBeforeParen then
              [ {| severity := Warning;
                   range := Range_create lineNum startChar lineNum (closeParenIdx + 1);
                   message :=
                     if hasSpaceAfterParen && negb hasSpaceBeforeParen then msgBefore
                     else if negb hasSpaceAfterParen && hasSpaceBeforeParen then msgAfter
                     else msgBoth;
                   source := str "afl-lsp" |} ]
            else []
      end
  end.

(** The loop [while ((match = callStartPattern.exec(line)) !== null)].
    Every match moves [lastIndex] forward, so [S (length line)]
    iterations are enough; the loop leaves [lastIndex] at 0, so every
    line is scanned from its first column. *)
Fixpoint callLoop (fuel : nat) (lineNum : nat) (line : jsstring) (lastIndex : nat)
  : list Diagnostic :=
  match fuel with
  | O => []
  | S fuel' =>
      match execCallStart line lastIndex with
      | None => []
      | Some (startChar, functionName, lastIndex') =>
          checkCall lineNum line startChar functionName
          ++ callLoop fuel' lineNum line lastIndex'
      end
  end.

(** The two updates of [isInCommentBlock] at the head of the [for] loop. *)
Definition commentStep (isInCommentBlock : bool) (originalLine : jsstring) : bool :=
  let entered := if includes (str "/*") originalLine then true else isInCommentBlock in
  if entered && includes (str "*/") originalLine then false else entered.

(** The test that makes the loop [continue] with the next line. *)
Definition skipsLine (isInCommentBlock : bool) (originalLine : jsstring) : bool :=
  isLineComment originalLine || includes [dquote] originalLine || isInCommentBlock.

(** The text in which the calls of a line are searched. *)
Definition scannedLine (originalLine : jsstring) : jsstring :=
  let lineWithoutComments := removeLineComment originalLine in
  Util.stripStrings lineWithoutComments.

(** The [for] loop over the lines. *)
Fixpoint checkLines (lines : list jsstring) (lineNum : nat) (isInCommentBlock : bool)
  : list Diagnostic :=
  match lines with
  | [] => []
  | originalLine :: rest =>
      let isIn := commentStep isInCommentBlock originalLine in
      if skipsLine isIn originalLine then checkLines rest (S lineNum) isIn
      else
        let line := scannedLine originalLine in
        callLoop (S (length line)) lineNum line 0
        ++ checkLines rest (S lineNum) isIn
  end.

Definition checkFunctionSpaces (text _uri : jsstring) : list Diagnostic :=
  checkLines (splitLines text) 0 false.

(** [fixFunctionSapces(params, diagnostic)], where [uri] is
    [params.textDocument.uri] and [docs] the documents of the server. *)
Definition fixFunctionSapces (docs : JsMap.t TextDocument) (uri : jsstring)
    (diagnostic : Diagnostic) : option CodeAction :=
  match JsMap.get uri docs with
  | None => None
  | Some document =>
      let range := range diagnostic in
      let text := getTextRange document range in
      match lastIndexOf rparen text with
      | None => None
      | Some lastParen =>
          let newText := slice text 0 lastParen ++ str " )" ++ skipn (lastParen + 1) text in
          let edit := {| edit_range := range; newText := newText |} in
          Some {| title := str "Insert space before ')'";
                  kind := QuickFix;
                  diagnostics := [diagnostic];
                  changes := [(uri, [edit])] |}
      end
  end.

End Functions.

(** ** server/src/server.ts : the handlers *)

Module Server.

Section WithParser.

Variable parse : jsstring -> Completion AnyNode.

Definition updateSymbolsForDocument (doc : TextDocument) (clearCache : bool) : M unit :=
  let text := getText doc in
  symbols <- SymbolTable.analyzeText parse text (uri doc) clearCache ;;
  modify (with_symbolTable (JsMap.setAll symbols)).

(** [documents.onDidOpen] *)
Definition onDidOpen (document : TextDocument) : M unit :=
  updateSymbolsForDocument document false.

(** The first handler of [documents.onDidChangeContent].  The second
    one validates the document, which computes an empty list. *)
Definition onDidChangeContent (document : TextDocument) : M unit :=
  if negb (JsMap.eqs (languageId document) (str "afl")) then ret tt
  else
    handle <- gets updateSymbolTimeout ;;
    match handle with
    | Some id => clearTimeout id
    | None => ret tt
    end ;;
    id <- setTimeout (UpdateSymbols document) 2000 ;;
    modify (with_timeout (Some id)).

(** [documents.onDidClose] *)
Definition onDidClose (document : TextDocument) : M unit :=
  modify (with_documentSettings (JsMap.delete (uri document))).

(** What a timer runs when it fires. *)
Definition runCallback (cb : Callback) : M unit :=
  match cb with
  | UpdateSymbols doc => updateSymbolsForDocument doc true
  end.

(** The event loop lets [ms] milliseconds pass and fires the timers
    that are due, in the order of the queue (all timers are set with the
    same delay, so this is the order of their due times).  The result
    lists the callbacks that were run. *)
Definition elapse (ms : nat) : M (list Callback) :=
  modify (fun s => with_now (now s + ms) s) ;;
  fired <- gets (fun s => filter (fun t => due t <=? now s) (timers s)) ;;
  modify (fun s => with_timers (filter (fun t => negb (due t <=? now s))) s) ;;
  forEach (fun t => runCallback (callback t)) fired ;;
  ret (map callback fired).

(** Modelled from the spec: the document manager of the protocol
    library, which is not part of the sources, keeps the open documents
    and raises the events of section 6: opening stores the document and
    raises the open and change events, a change stores the new content
    and raises the change event, closing drops the document and raises
    the close event. *)
Inductive Notification :=
| DidOpen (doc : TextDocument)
| DidChange (doc : TextDocument)
| DidClose (doc : TextDocument).

(** Modelled from the spec: see [Notification]. *)
Definition notify (n : Notification) : M unit :=
  match n with
  | DidOpen doc =>
      modify (with_documents (JsMap.set (uri doc) doc)) ;;
      onDidOpen doc ;;
      onDidChangeContent doc
  | DidChange doc =>
      modify (with_documents (JsMap.set (uri doc) doc)) ;;
      onDidChangeContent doc
  | DidClose doc =>
      modify (with_documents (JsMap.delete (uri doc))) ;;
      onDidClose doc
  end.

End WithParser.

(** [connection.onCompletion] *)
Definition onCompletion (s : State) : list CompletionItem :=
  map (fun entry =>
         {| label := fst entry; ci_kind := CIK_Function; data := fst entry |})
      (symbolTable s).

(** [connection.onCodeAction], where [uri] is [params.textDocument.uri]
    and [context] is [params.context.diagnostics]. *)
Definition onCodeAction (uri : jsstring) (context : list Diagnostic) (s : State)
  : list CodeAction :=
  flat_map
    (fun diagnostic =>
       if includes (str "space before ')'") (message diagnostic) then
         match Functions.fixFunctionSapces (documents s) uri diagnostic with
         | Some action => [action]
         | None => []
         end
       else [])
    context.

(** [lines[n]] where a string is expected: an index past the last line
    reads [undefined], and [regex.exec] converts its argument to a
    string, so the search runs over the nine letters of that word. *)
Definition lineAt (lines : list jsstring) (n : nat) : jsstring :=
  match nth_error lines n with
  | Some l => l
  | None => str "undefined"
  end.

(** [connection.onDefinition], where [uri] is [params.textDocument.uri]
    and [position] is [params.position]. *)
Definition onDefinition (uri : jsstring) (position : Position) (s : State)
  : option Location :=
  match JsMap.get uri (documents s) with
  | None => None
  | Some document =>
      let lines := splitLines (getText document) in
      let line := lineAt lines (Lsp.line position) in
      match SymbolTable.getWordAtPosition line (Z.of_nat (character position)) with
      | None => None
      | Some [] => None
      | Some word => JsMap.get word (symbolTable s)
      end
  end.

(** [connection.onHover] *)
Definition onHover (uri : jsstring) (position : Position) (s : State)
  : option Hover :=
  match JsMap.get uri (documents s) with
  | None => None
  | Some document =>
      let lines := splitLines (getText document) in
      let line := lineAt lines (Lsp.line position) in
      match SymbolTable.getWordAtPosition line (Z.of_nat (character position)) with
      | None => None
      | Some [] => None
      | Some word =>
          match SymbolTable.getSymbolInfo word s with
          | None => None
          | Some info =>
              Some {| contents :=
                        {| mc_kind := Markdown;
                           mc_value := str "**" ++ word ++ str "**" ++ [LF; LF] ++ info |} |}
          end
      end
  end.

End Server.

(** ** The document outline: [nodeToDocumentSymbol] of server/src/util.ts
       and the handler of server/src/server.ts *)

Module Outline.

#[local] Set Warnings "-register-all".

Inductive SymbolKind := SK_Function | SK_Variable.

(** [DocumentSymbol.create(name, detail, kind, range, selectionRange, children)] *)
Inductive DocumentSymbol :=
| DocumentSymbol_create (name detail : jsstring) (kind : SymbolKind)
    (range selectionRange : Range) (children : list DocumentSymbol).

(** The node kinds and the fields that the outline reads.  Other than
    the indexer, it visits the declarators of a variable declaration as
    nodes of their own, with their own location; the [id] of a function
    or of a declarator is a node of the parser as above. *)
Inductive Node :=
| FunctionNode (loc : option SourceLocation) (id : option AnyNode)
    (body : option (list Node))
| DeclarationNode (loc : option SourceLocation) (declarations : list Node)
| DeclaratorNode (loc : option SourceLocation) (id : option AnyNode)
| PlainNode (loc : option SourceLocation).

(** A value of type [DocumentSymbol | DocumentSymbol[] | null]. *)
Inductive Result :=
| One (symbol : DocumentSymbol)
| Many (symbols : list DocumentSymbol)
| Null.

Definition normalizeDocumentSymbol (c : Result) : list DocumentSymbol :=
  match c with
  | Many symbols => symbols
  | One symbol => [symbol]
  | Null => []
  end.

(** The end of [nodeToDocumentSymbol], from the check of the location
    on: [loc] is the local variable, [nodeLoc] is [node.loc]. *)
Definition createSymbol (name : jsstring) (kind : SymbolKind)
    (children : list DocumentSymbol) (loc nodeLoc : option SourceLocation) : Result :=
  match name, (match loc with Some l => Some l | None => nodeLoc end) with
  | _ :: _, Some loc =>
      One (DocumentSymbol_create name [] kind
             (Range_create (Pos.to_nat (p_line (l_start loc)) - 1) (p_column (l_start loc))
                           (Pos.to_nat (p_line (l_end loc)) - 1) (p_column (l_end loc)))
             (Range_create (Pos.to_nat (p_line (l_start loc)) - 1) (p_column (l_start loc))
                           (Pos.to_nat (p_line (l_end loc)) - 1) (p_column (l_end loc)))
             children)
  | _, _ => Null
  end.

Fixpoint nodeToDocumentSymbol (node : Node) : Result :=
  match node with
  | FunctionNode nodeLoc (Some (Identifier _ name)) body =>
      let children :=
        match body with
        | Some stmts =>
            flat_map (fun child => normalizeDocumentSymbol (nodeToDocumentSymbol child)) stmts
        | None => []
        end in
      createSymbol name SK_Function children None nodeLoc
  | DeclarationNode _ (d :: ds) =>
      Many (flat_map (fun d => normalizeDocumentSymbol (nodeToDocumentSymbol d)) (d :: ds))
  | DeclaratorNode nodeLoc (Some (Identifier idLoc name)) =>
      createSymbol name SK_Variable [] idLoc nodeLoc
  | FunctionNode nodeLoc _ _ => createSymbol [] SK_Variable [] None nodeLoc
  | DeclarationNode nodeLoc [] => createSymbol [] SK_Variable [] None nodeLoc
  | DeclaratorNode nodeLoc _ => createSymbol [] SK_Variable [] None nodeLoc
  | PlainNode nodeLoc => createSymbol [] SK_Variable [] None nodeLoc
  end.

Section WithParser.

(** The parser as the handler uses it: it returns the root of the tree,
    of which the handler reads the [body] if that is an array, or it
    throws a syntax error. *)
Variable parse : jsstring -> Completion (option (list Node)).

(** [connection.onDocumentSymbol], where [uri] is
    [params.textDocument.uri]. *)
Definition onDocumentSymbol (uri : jsstring) : M (list DocumentSymbol) :=
  document <- gets (fun s => JsMap.get uri (documents s)) ;;
  match document with
  | None => ret []
  | Some document =>
      let text := getText document in
      ast <- call (parse text) ;;
      let body := match ast with Some body => body | None => [] end in
      ret (flat_map
             (fun node =>
                match nodeToDocumentSymbol node with
                | Null => []
                | Many symbols => symbols
                | One symbol => [symbol]
                end)
             body)
  end.

End WithParser.

(** The entry and all entries below it have a name, a selection range
    that is the range, no detail, and children only if they are
    functions. *)
Inductive wellFormed : DocumentSymbol -> Prop :=
| wellFormed_intro name kind range children :
    name <> [] ->
    (kind = SK_Variable -> children = []) ->
    Forall wellFormed children ->
    wellFormed (DocumentSymbol_create name [] kind range range children).

End Outline.

(** ** The vocabulary of the statements *)

Module Spec.

(** The code unit at column [i] is in the class [p]. *)
Definition holdsAt (p : ascii -> bool) (line : jsstring) (i : nat) : bool :=
  match nth_error line i with
  | Some c => p c
  | None => false
  end.

(** Identifier syntax: a letter or underscore, then letters, digits and
    underscores. *)
Definition isIdentifier (w : jsstring) : bool :=
  match w with
  | c :: r => isIdentStart c && forallb isIdentPart r
  | [] => false
  end.

(** The columns [[s, e)] of the line hold an identifier. *)
Definition identifier_at (line : jsstring) (s e : nat) : Prop :=
  s < e /\ e <= length line /\ isIdentifier (slice line s e) = true.

(** A maximal identifier run: an identifier occurrence that no other
    identifier occurrence of the line contains. *)
Definition maximal_run (line : jsstring) (s e : nat) : Prop :=
  identifier_at line s e /\
  forall s' e', identifier_at line s' e' -> s' <= s -> e <= e' -> s' = s /\ e' = e.

(** The calls that the [while] loop of [checkFunctionSpaces] visits
    from [lastIndex] on: [match.index] and [match[1]] of every match. *)
Fixpoint callMatches (fuel : nat) (line : jsstring) (lastIndex : nat)
  : list (nat * jsstring) :=
  match fuel with
  | O => []
  | S fuel' =>
      match Functions.execCallStart line lastIndex with
      | None => []
      | Some (startChar, functionName, lastIndex') =>
          (startChar, functionName) :: callMatches fuel' line lastIndex'
      end
  end.

Definition detectedCalls (line : jsstring) : list (nat * jsstring) :=
  callMatches (S (length line)) line 0.

(** The value of [isInCommentBlock] after the two updates for line [k],
    starting from [isIn] at the first line. *)
Fixpoint commentStateAt (lines : list jsstring) (k : nat) (isIn : bool) : bool :=
  match lines with
  | [] => isIn
  | l :: rest =>
      let isIn' := Functions.commentStep isIn l in
      match k with
      | O => isIn'
      | S k' => commentStateAt rest k' isIn'
      end
  end.

(** Line [k] of the text is [originalLine] and the lint rule scans it
    (it does not skip it). *)
Definition lintedLine (text : jsstring) (k : nat) (originalLine : jsstring) : Prop :=
  nth_error (splitLines text) k = Some originalLine /\
  Functions.skipsLine (commentStateAt (splitLines text) k false) originalLine = false.

(** A function call that [checkFunctionSpaces] detects on line [k]: the
    match of the call pattern at [startChar], the opening parenthesis,
    the depth-matched closing one and the text between them. *)
Record Call := {
  startChar : nat;
  functionName : jsstring;
  openParenIdx : nat;
  closeParenIdx : nat;
  args : jsstring
}.

Definition detectedCall (text : jsstring) (k : nat) (c : Call) : Prop :=
  exists originalLine,
    lintedLine text k originalLine /\
    let line := Functions.scannedLine originalLine in
    In (startChar c, functionName c) (detectedCalls line) /\
    indexOf lparen line (startChar c + length (functionName c)) = Some (openParenIdx c) /\
    Functions.findCloseParen line (openParenIdx c) = Some (closeParenIdx c) /\
    args c = slice line (openParenIdx c + 1) (closeParenIdx c).

(** The diagnostics whose range starts at a position, and those whose
    range starts on a line. *)
Definition diagnosticsAt (p : Position) (ds : list Diagnostic) : list Diagnostic :=
  filter (fun d => position_eqb (start (range d)) p) ds.

Definition diagnosticsOnLine (k : nat) (ds : list Diagnostic) : list Diagnostic :=
  filter (fun d => line (start (range d)) =? k) ds.

(** The diagnostic of the rule for a call. *)
Definition callDiagnostic (k : nat) (c : Call) (msg : jsstring) : Diagnostic :=
  {| severity := Warning;
     range := {| start := {| line := k; character := startChar c |};
                 end_ := {| line := k; character := closeParenIdx c + 1 |} |};
     message := msg;
     source := str "afl-lsp" |}.

(** Line [i] of [lines] exists and includes [p]. *)
Definition lineIncludes (p : jsstring) (lines : list jsstring) (i : nat) : bool :=
  match nth_error lines i with
  | Some l => includes p l
  | None => false
  end.

(** The offset at which line [n] of [splitLines text] starts: behind
    the [n]-th LF of the text. *)
Fixpoint lineStart (text : jsstring) (n : nat) : nat :=
  match n with
  | O => 0
  | S n' =>
      match text with
      | [] => 0
      | c :: r => S (lineStart r (if eqc c LF then n' else n))
      end
  end.

(** The line endings of the text are LF and CR LF: every CR is followed
    by an LF. *)
Fixpoint noLoneCR (text : jsstring) : bool :=
  match text with
  | [] => true
  | c :: r =>
      (if eqc c CR then startsWith [LF] r else true) && noLoneCR r
  end.

(** Block comments as the language has them, read code unit by code
    unit: outside a comment the marker [/*] opens one, inside a comment
    the marker [*/] closes it.  [scanBlockComment inside l] tells
    whether a comment is open behind the line [l] when [inside] tells
    it for the start of the line. *)
Fixpoint scanBlockComment (inside : bool) (l : jsstring) : bool :=
  match l with
  | [] => inside
  | _ :: r =>
      if startsWith (if inside then str "*/" else str "/*") l then
        match r with
        | _ :: r' => scanBlockComment (negb inside) r'
        | [] => inside
        end
      else scanBlockComment inside r
  end.

(** A block comment is open at the start of line [k], when [inside]
    tells it for the start of the first line. *)
Fixpoint blockCommentOpenAt (lines : list jsstring) (k : nat) (inside : bool)
    {struct k} : bool :=
  match k with
  | O => inside
  | S k' =>
      match lines with
      | l :: rest => blockCommentOpenAt rest k' (scanBlockComment inside l)
      | [] => inside
      end
  end.

(** Line [k] lies inside a block comment: a comment is open at its
    start and is not closed on it. *)
Definition insideBlockComment (lines : list jsstring) (k : nat) : Prop :=
  blockCommentOpenAt lines k false = true /\
  lineIncludes (str "*/") lines k = false.

(** No line before line [k] holds both markers of a block comment and
    leaves a comment open behind it. *)
Definition markersSettled (lines : list jsstring) (k : nat) : Prop :=
  forall i, i < k ->
    lineIncludes (str "/*") lines i = true ->
    lineIncludes (str "*/") lines i = true ->
    blockCommentOpenAt lines (S i) false = false.

(** [s] with the code unit [ch] put in before column [p]. *)
Definition insertAt (p : nat) (ch : ascii) (s : jsstring) : jsstring :=
  firstn p s ++ ch :: skipn p s.

(** The part of the state that the indexer leaves alone. *)
Definition indexerFrame (s s' : State) : Prop :=
  symbolTable s' = symbolTable s /\ documents s' = documents s /\
  documentSettings s' = documentSettings s /\
  updateSymbolTimeout s' = updateSymbolTimeout s /\ timers s' = timers s /\
  nextTimerId s' = nextTimerId s /\ now s' = now s.

(** The table that [analyzeText] builds from a tree. *)
Definition tableOf (ast : AnyNode) (uri : jsstring) : JsMap.t Location :=
  fold_left
    (fun table node =>
       fold_left (fun t info => JsMap.set (SymbolTable.si_name info) (SymbolTable.si_loc info) t)
                 (SymbolTable.analyzeNode node uri) table)
    (match ast with
     | Program _ body => body
     | _ => [ast]
     end)
    JsMap.empty.

(** The document has the language id that the change handler asks for. *)
Definition isAfl (doc : TextDocument) : Prop :=
  JsMap.eqs (languageId doc) (str "afl") = true.

(** A recompute for the document [u] is scheduled and has not fired. *)
Definition pendingFor (u : jsstring) (s : State) : Prop :=
  exists t doc, In t (timers s) /\ callback t = UpdateSymbols doc /\ uri doc = u.

(** Every pending timer is the one that [updateSymbolTimeout] names. *)
Definition tracked (s : State) : Prop :=
  forall t, In t (timers s) -> updateSymbolTimeout s = Some (timerId t).

(** A run of the server: change notifications and the passing of time;
    the result lists the recomputes that fired, in order. *)
Inductive Step :=
| Change (doc : TextDocument)
| Wait (ms : nat).

Fixpoint run (parse : jsstring -> Completion AnyNode) (steps : list Step)
  : M (list Callback) :=
  match steps with
  | [] => ret []
  | Change doc :: rest => Server.onDidChangeContent doc ;; run parse rest
  | Wait ms :: rest =>
      fired <- Server.elapse parse ms ;;
      later <- run parse rest ;;
      ret (fired ++ later)
  end.

(** What reaches the server: the notifications of the client and the
    passing of time. *)
Inductive Event :=
| Notified (n : Server.Notification)
| Elapsed (ms : nat).

Definition handle (parse : jsstring -> Completion AnyNode) (e : Event) : M unit :=
  match e with
  | Notified n => Server.notify parse n
  | Elapsed ms => Server.elapse parse ms ;; ret tt
  end.

(** A burst of changes: each change is followed by a pause. *)
Definition burst (changes : list (TextDocument * nat)) : list Step :=
  flat_map (fun c => [Change (fst c); Wait (snd c)]) changes.

(** The position [p] comes before the position [q]. *)
Definition position_lt (p q : Position) : Prop :=
  line p < line q \/ (line p = line q /\ character p < character q).

(** The diagnostic [d] starts before the diagnostic [d']. *)
Definition startsBefore (d d' : Diagnostic) : Prop :=
  position_lt (start (range d)) (start (range d')).

(** The message that the rule gives for the arguments of a call that
    it reports. *)
Definition messageFor (args : jsstring) : jsstring :=
  if Functions.startsWithSpace args then Functions.msgBefore
  else if Functions.endsWithSpace args then Functions.msgAfter
  else Functions.msgBoth.

(** The column [n] of a line, or the end column [n] of a range on it,
    once a code unit has been put in at column [c]. *)
Definition shiftColumn (c n : nat) : nat := if n <=? c then n else S n.

(** The diagnostic [d] once a code unit has been put in at column [c] of
    line [j]: a diagnostic of another line stays as it is. *)
Definition shiftDiagnostic (j c : nat) (d : Diagnostic) : Diagnostic :=
  if line (start (range d)) =? j then
    {| severity := severity d;
       range := {| start := {| line := line (start (range d));
                               character := shiftColumn c (character (start (range d))) |};
                   end_ := {| line := line (end_ (range d));
                              character := shiftColumn c (character (end_ (range d))) |} |};
       message := message d;
       source := source d |}
  else d.

(** [lines.join(sep)] *)
Fixpoint joinLines (sep : jsstring) (lines : list jsstring) : jsstring :=
  match lines with
  | [] => []
  | l :: rest =>
      match rest with
      | [] => l
      | _ :: _ => l ++ sep ++ joinLines sep rest
      end
  end.

(** A line of text that can be joined with either line ending: it holds
    no LF and does not end in a CR. *)
Definition plainLine (l : jsstring) : bool :=
  forallb (fun c => negb (eqc c LF)) l
  && match rev l with
     | c :: _ => negb (eqc c CR)
     | [] => true
     end.

(** The symbols that [analyzeText] reads off a tree, in the order in
    which [processNode] stores them. *)
Definition symbolsOf (ast : AnyNode) (uri : jsstring) : list SymbolTable.SymbolInfo :=
  flat_map (fun node => SymbolTable.analyzeNode node uri)
    (match ast with
     | Program _ body => body
     | _ => [ast]
     end).

(** The last symbol of a list that has the name [k]. *)
Definition lastNamed (k : jsstring) (infos : list SymbolTable.SymbolInfo)
  : option SymbolTable.SymbolInfo :=
  find (fun info => JsMap.eqs k (SymbolTable.si_name info)) (rev infos).

(** The text of the hover for a symbol that was indexed at [loc]. *)
Definition hoverText (word : jsstring) (loc : Location) : jsstring :=
  str "**" ++ word ++ str "**" ++ [LF; LF]
  ++ str "Identifier used at line "
  ++ SymbolTable.decimal (S (line (start (loc_range loc)))).

(** The symbol table and the info map agree: a name has an info exactly
    when it has a location, and the info names the line of the location,
    counted from 1. *)
Definition inSync (s : State) : Prop :=
  forall name,
    JsMap.get name (symbolInfoMap s) =
    option_map
      (fun loc => str "Identifier used at line "
                  ++ SymbolTable.decimal (S (line (start (loc_range loc)))))
      (JsMap.get name (symbolTable s)).

(** The states that the server reaches from its start. *)
Definition reachable (parse : jsstring -> Completion AnyNode) (s : State) : Prop :=
  exists events, forEach (handle parse) events initial = (Returns tt, s).

End Spec.

Import Spec.

(** * Properties *)

Ltac splits := repeat match goal with |- _ /\ _ => split end.

(** ** The position resolver *)


Lemma holdsAt_skipn p line k j :
  holdsAt p (skipn k line) j = holdsAt p line (k + j).
Proof. unfold holdsAt. now rewrite nth_error_skipn. Qed.

Lemma holdsAt_nil p i : holdsAt p [] i = false.
Proof. unfold holdsAt. now destruct i. Qed.

Lemma holdsAt_beyond p line i : length line <= i -> holdsAt p line i = false.
Proof.
  intros H. unfold holdsAt. apply nth_error_None in H. now rewrite H.
Qed.

Lemma holdsAt_lt p line i : holdsAt p line i = true -> i < length line.
Proof.
  intros H. destruct (Nat.lt_ge_cases i (length line)) as [|Hge]; [assumption|].
  rewrite holdsAt_beyond in H by assumption. discriminate.
Qed.

Lemma slice_length line s e : e <= length line -> length (slice line s e) = e - s.
Proof.
  intros H. unfold slice. rewrite length_firstn, length_skipn. lia.
Qed.

Lemma nth_error_slice line s e i :
  i < e - s -> nth_error (slice line s e) i = nth_error line (s + i).
Proof.
  intros H. unfold slice. rewrite nth_error_firstn.
  destruct (Nat.ltb_spec i (e - s)); [|lia]. apply nth_error_skipn.
Qed.

Lemma forallb_nth (p : ascii -> bool) l :
  forallb p l = true <-> (forall i, i < length l -> holdsAt p l i = true).
Proof.
  induction l as [|c r IH]; simpl.
  - split; [intros _ i Hi; lia | reflexivity].
  - rewrite andb_true_iff, IH. split.
    + intros [Hc Hr] [|i] Hi; [exact Hc | apply Hr; lia].
    + intros H. split; [apply (H 0); lia | intros i Hi; apply (H (S i)); lia].
Qed.

Lemma forallb_slice (p : ascii -> bool) line s e :
  e <= length line ->
  (forallb p (slice line s e) = true <->
   forall i, s <= i < e -> holdsAt p line i = true).
Proof.
  intros He. rewrite forallb_nth, slice_length by assumption. split.
  - intros H i Hi. specialize (H (i - s) ltac:(lia)).
    unfold holdsAt in *. rewrite nth_error_slice in H by lia.
    now replace (s + (i - s)) with i in H by lia.
  - intros H i Hi. unfold holdsAt. rewrite nth_error_slice by lia.
    apply (H (s + i)). lia.
Qed.

Lemma isIdentStart_part c : isIdentStart c = true -> isIdentPart c = true.
Proof. unfold isIdentPart. intros ->. reflexivity. Qed.

(** An identifier occurrence, column by column. *)
Lemma identifier_at_iff line s e :
  identifier_at line s e <->
  s < e /\ e <= length line /\ holdsAt isIdentStart line s = true /\
  forall i, s <= i < e -> holdsAt isIdentPart line i = true.
Proof.
  unfold identifier_at. split.
  - intros (Hse & He & Hid). splits; try assumption.
    + unfold isIdentifier in Hid. destruct (slice line s e) as [|c r] eqn:E; [discriminate|].
      apply andb_true_iff in Hid as [Hc _].
      assert (Hn : nth_error (slice line s e) 0 = Some c) by now rewrite E.
      rewrite nth_error_slice in Hn by lia. unfold holdsAt.
      rewrite Nat.add_0_r in Hn. now rewrite Hn.
    + apply forallb_slice; [assumption|].
      unfold isIdentifier in Hid. destruct (slice line s e) as [|c r]; [discriminate|].
      apply andb_true_iff in Hid as [Hc Hr]. simpl.
      now rewrite (isIdentStart_part _ Hc).
  - intros (Hse & He & Hs & Hall). splits; try assumption.
    assert (Hf : forallb isIdentPart (slice line s e) = true)
      by (apply forallb_slice; assumption).
    unfold isIdentifier. destruct (slice line s e) as [|c r] eqn:E.
    + apply (f_equal (@length _)) in E. rewrite slice_length in E by assumption.
      simpl in E. lia.
    + simpl in Hf. apply andb_true_iff in Hf as [_ Hr]. rewrite Hr, andb_true_r.
      assert (Hn : nth_error (slice line s e) 0 = Some c) by now rewrite E.
      rewrite nth_error_slice in Hn by lia. rewrite Nat.add_0_r in Hn.
      unfold holdsAt in Hs. now rewrite Hn in Hs.
Qed.

(** The longest prefix of [skipn s line] in a class, as a slice. *)
Lemma takeWhile_skipn p line s :
  exists e, s <= e /\ (s <= length line -> e <= length line) /\
    takeWhile p (skipn s line) = slice line s e /\
    length (takeWhile p (skipn s line)) = e - s /\
    (forall i, s <= i < e -> holdsAt p line i = true) /\
    holdsAt p line e = false.
Proof.
  revert s. induction line as [|c r IH]; intros s.
  - exists s. rewrite skipn_nil. unfold slice. rewrite skipn_nil, firstn_nil. simpl.
    splits; try lia; [reflexivity | apply holdsAt_nil].
  - destruct s as [|s].
    + simpl skipn. simpl takeWhile. destruct (p c) eqn:Hp.
      * destruct (IH 0) as (e & H0 & Hlen & Htw & Hl & Hall & Hend).
        rewrite skipn_O in *.
        exists (S e). splits.
        -- lia.
        -- simpl. intros _. specialize (Hlen ltac:(lia)). lia.
        -- unfold slice in *. simpl. rewrite Nat.sub_0_r in *. simpl in Htw. now rewrite Htw.
        -- simpl. lia.
        -- intros [|i] Hi; [unfold holdsAt; simpl; exact Hp | apply Hall; lia].
        -- exact Hend.
      * exists 0. splits; try lia; try reflexivity.
        unfold holdsAt; simpl; exact Hp.
    + destruct (IH s) as (e & H0 & Hlen & Htw & Hl & Hall & Hend).
      exists (S e). simpl skipn. splits.
      * lia.
      * simpl. intros H. specialize (Hlen ltac:(lia)). lia.
      * rewrite Htw. reflexivity.
      * simpl. lia.
      * intros [|i] Hi; [lia | apply Hall; lia].
      * exact Hend.
Qed.

Lemma searchIdentifier_some s i st m :
  SymbolTable.searchIdentifier s i = Some (st, m) ->
  exists j, st = i + j /\ holdsAt isIdentStart s j = true /\
    (forall j', j' < j -> holdsAt isIdentStart s j' = false) /\
    m = slice s j (j + length m) /\ 1 <= length m /\
    j + length m <= length s /\
    (forall j', j <= j' < j + length m -> holdsAt isIdentPart s j' = true) /\
    holdsAt isIdentPart s (j + length m) = false.
Proof.
  revert i. induction s as [|c r IH]; intros i H; simpl in H; [discriminate|].
  destruct (isIdentStart c) eqn:Hc.
  - injection H as <- <-. exists 0.
    destruct (takeWhile_skipn isIdentPart r 0) as (e & _ & Hlen & Htw & Hl & Hall & Hend).
    rewrite skipn_O in *. specialize (Hlen ltac:(lia)).
    simpl length. rewrite Hl, Nat.sub_0_r. splits; try lia.
    + unfold holdsAt. simpl. exact Hc.
    + simpl. unfold slice in *. simpl. rewrite Nat.sub_0_r in *. simpl in Htw. now rewrite Htw.
    + intros [|j'] Hj; [unfold holdsAt; simpl; now apply isIdentStart_part|].
      apply Hall. lia.
    + exact Hend.
  - destruct (IH _ H) as (j & -> & Hs & Hbefore & Hm & Hl & Hlen & Hall & Hend).
    exists (S j). splits; try lia; try assumption.
    + intros [|j'] Hj; [unfold holdsAt; simpl; exact Hc | apply Hbefore; lia].
    + simpl. lia.
    + intros [|j'] Hj; [lia | apply Hall; lia].
Qed.

Lemma searchIdentifier_none s i :
  SymbolTable.searchIdentifier s i = None ->
  forall j, holdsAt isIdentStart s j = false.
Proof.
  revert i. induction s as [|c r IH]; intros i H j; [apply holdsAt_nil|].
  simpl in H. destruct (isIdentStart c) eqn:Hc; [discriminate|].
  destruct j; [unfold holdsAt; simpl; exact Hc | apply (IH _ H)].
Qed.

Lemma slice_skipn line k j e : slice (skipn k line) j e = slice line (k + j) (k + e).
Proof.
  unfold slice. rewrite skipn_skipn. f_equal; [lia | f_equal; lia].
Qed.

(** What [execIdentifier] finds, in columns of the line. *)
Lemma execIdentifier_some line k st m :
  k <= length line ->
  SymbolTable.execIdentifier line k = Some (st, m) ->
  k <= st /\ holdsAt isIdentStart line st = true /\
  (forall i, k <= i < st -> holdsAt isIdentStart line i = false) /\
  m = slice line st (st + length m) /\ 1 <= length m /\
  st + length m <= length line /\
  (forall i, st <= i < st + length m -> holdsAt isIdentPart line i = true) /\
  holdsAt isIdentPart line (st + length m) = false.
Proof.
  intros Hk H. unfold SymbolTable.execIdentifier in H.
  apply searchIdentifier_some in H as (j & -> & Hs & Hbefore & Hm & Hl & Hlen & Hall & Hend).
  rewrite length_skipn in Hlen.
  rewrite holdsAt_skipn in Hs, Hend. rewrite slice_skipn in Hm.
  splits; try lia; try assumption.
  - intros i Hi. specialize (Hbefore (i - k) ltac:(lia)).
    rewrite holdsAt_skipn in Hbefore. now replace (k + (i - k)) with i in Hbefore by lia.
  - now rewrite <- Nat.add_assoc.
  - intros i Hi. specialize (Hall (i - k) ltac:(lia)).
    rewrite holdsAt_skipn in Hall. now replace (k + (i - k)) with i in Hall by lia.
  - now rewrite <- Nat.add_assoc.
Qed.

Lemma execIdentifier_none line k :
  SymbolTable.execIdentifier line k = None ->
  forall i, k <= i -> holdsAt isIdentStart line i = false.
Proof.
  intros H i Hi. unfold SymbolTable.execIdentifier in H.
  pose proof (searchIdentifier_none _ _ H (i - k)) as Hn.
  rewrite holdsAt_skipn in Hn. now replace (k + (i - k)) with i in Hn by lia.
Qed.

(** A maximal run ends where the identifier characters end. *)
Lemma maximal_run_end line s e :
  maximal_run line s e -> holdsAt isIdentPart line e = false.
Proof.
  intros [Hid Hmax]. destruct (holdsAt isIdentPart line e) eqn:He; [|reflexivity].
  exfalso. apply identifier_at_iff in Hid as (Hse & Hlen & Hs & Hall).
  assert (Hid' : identifier_at line s (S e)).
  { apply identifier_at_iff. splits; try lia; try assumption.
    - apply holdsAt_lt in He. lia.
    - intros i Hi. destruct (Nat.eq_dec i e) as [->|]; [assumption | apply Hall; lia]. }
  destruct (Hmax _ _ Hid') as [_ ?]; lia.
Qed.

Lemma wordLoop_hit fuel line k s e c :
  maximal_run line s e -> k <= s -> length line - k < fuel ->
  (Z.of_nat s <= c <= Z.of_nat e)%Z ->
  SymbolTable.wordLoop fuel line k c = Some (slice line s e).
Proof.
  intros Hrun. revert k. induction fuel as [|fuel IH]; intros k Hk Hfuel Hc; [lia|].
  pose proof (maximal_run_end _ _ _ Hrun) as Hend.
  destruct Hrun as [Hid Hmax]. pose proof Hid as Hid0.
  apply identifier_at_iff in Hid as (Hse & Hlen & Hs & Hall).
  simpl. destruct (SymbolTable.execIdentifier line k) as [[st m]|] eqn:E.
  - apply execIdentifier_some in E as (Hkst & Hst & Hbefore & Hm & Hl & Hle & Hmall & Hmend); [|lia].
    assert (Hsts : st <= s).
    { destruct (Nat.le_gt_cases st s); [assumption|].
      rewrite Hbefore in Hs by lia. discriminate. }
    destruct (Nat.eq_dec st s) as [->|Hne].
    + assert (He : s + length m = e).
      { destruct (Nat.lt_trichotomy (s + length m) e) as [Hlt|[Heq|Hgt]]; [|assumption|].
        - rewrite Hall in Hmend by lia. discriminate.
        - rewrite Hmall in Hend by lia. discriminate. }
      rewrite He in *. rewrite <- Hm.
      destruct (Z.leb_spec (Z.of_nat s) c); [|lia].
      destruct (Z.leb_spec c (Z.of_nat e)); [|lia]. reflexivity.
    + assert (Hlt : st + length m < s).
      { destruct (Nat.lt_ge_cases (st + length m) s) as [|Hge]; [assumption|exfalso].
        assert (Hid' : identifier_at line st e).
        { apply identifier_at_iff. splits; try lia; try assumption.
          intros i Hi. destruct (Nat.lt_ge_cases i s); [apply Hmall; lia | apply Hall; lia]. }
        destruct (Hmax _ _ Hid'); lia. }
      destruct (Z.leb_spec c (Z.of_nat (st + length m))); [lia|].
      rewrite andb_false_r. apply IH; lia.
  - pose proof (execIdentifier_none _ _ E s Hk) as Hn. rewrite Hn in Hs. discriminate.
Qed.

(** A word that the loop returns is a maximal run that holds the
    offset, when the scan resumes at column 0 or at a column that does
    not hold an identifier character. *)
Lemma wordLoop_some fuel line k c w :
  (k = 0 \/ holdsAt isIdentPart line k = false) -> k <= length line ->
  SymbolTable.wordLoop fuel line k c = Some w ->
  exists s e, maximal_run line s e /\ (Z.of_nat s <= c <= Z.of_nat e)%Z /\ w = slice line s e.
Proof.
  revert k. induction fuel as [|fuel IH]; intros k Hres Hk H; [discriminate|].
  simpl in H. destruct (SymbolTable.execIdentifier line k) as [[st m]|] eqn:E; [|discriminate].
  apply execIdentifier_some in E as (Hkst & Hst & Hbefore & Hm & Hl & Hle & Hmall & Hmend); [|lia].
  destruct ((Z.of_nat st <=? c)%Z && (c <=? Z.of_nat (st + length m))%Z) eqn:T.
  - injection H as <-. apply andb_true_iff in T as [T1 T2].
    apply Z.leb_le in T1, T2.
    exists st, (st + length m). split; [|split; [lia | exact Hm]].
    split.
    + apply identifier_at_iff. splits; try lia; assumption.
    + intros s' e' Hid' Hs' He'.
      apply identifier_at_iff in Hid' as (Hse' & Hlen' & Hs0 & Hall').
      assert (e' = st + length m).
      { destruct (Nat.eq_dec e' (st + length m)); [assumption|].
        rewrite Hall' in Hmend by lia. discriminate. }
      split; [|assumption].
      destruct (Nat.eq_dec s' st); [assumption|exfalso].
      destruct (Nat.le_gt_cases k s') as [Hks|Hks].
      * rewrite Hbefore in Hs0 by lia. discriminate.
      * destruct Hres as [->|Hres]; [lia|].
        rewrite Hall' in Hres by lia. discriminate.
  - apply IH in H; [assumption | right; assumption | lia].
Qed.

(** C3. For every maximal identifier run at columns [[s, e)] of a line,
    [getWordAtPosition] returns that identifier for every offset [c] with
    [s <= c <= e]; it returns nothing for an offset that no run holds
    between its inclusive boundaries, and in particular for an offset
    past the end of the line. *)
Theorem getWordAtPosition_runs :
  forall line : jsstring,
    (forall s e c, maximal_run line s e ->
       (Z.of_nat s <= c <= Z.of_nat e)%Z ->
       SymbolTable.getWordAtPosition line c = Some (slice line s e)) /\
    (forall c, (forall s e, maximal_run line s e ->
                  ~ (Z.of_nat s <= c <= Z.of_nat e)%Z) ->
       SymbolTable.getWordAtPosition line c = None) /\
    (forall c, (Z.of_nat (length line) < c)%Z ->
       SymbolTable.getWordAtPosition line c = None).
Proof.
  intros line.
  assert (Hmiss : forall c, (forall s e, maximal_run line s e ->
                  ~ (Z.of_nat s <= c <= Z.of_nat e)%Z) ->
       SymbolTable.getWordAtPosition line c = None).
  { intros c Hno. unfold SymbolTable.getWordAtPosition.
    destruct (SymbolTable.wordLoop (S (length line)) line 0 c) as [w|] eqn:E; [|reflexivity].
    apply wordLoop_some in E as (s & e & Hrun & Hc & _); [|now left|lia].
    exfalso. exact (Hno s e Hrun Hc). }
  split; [|split].
  - intros s e c Hrun Hc. unfold SymbolTable.getWordAtPosition.
    apply wordLoop_hit; [assumption | lia | lia | assumption].
  - exact Hmiss.
  - intros c Hc. apply Hmiss. intros s e [(_ & He & _) _]. lia.
Qed.

Lemma getWordAtPosition_runs_witness :
  maximal_run (str "a1  _b") 0 2 /\
  SymbolTable.getWordAtPosition (str "a1  _b") 2 = Some (str "a1") /\
  SymbolTable.getWordAtPosition (str "a1  _b") 3 = None /\
  SymbolTable.getWordAtPosition (str "a1  _b") 7 = None.
Proof.
  pose proof (getWordAtPosition_runs (str "a1  _b")) as (Hhit & Hmiss & Hpast).
  assert (Hrun : maximal_run (str "a1  _b") 0 2).
  { split.
    - unfold identifier_at. split; [lia|]. split; [simpl; lia | reflexivity].
    - intros s' e' (Hse & He & Hid) Hs' He'.
      assert (s' = 0) by lia. subst s'. split; [reflexivity|].
      simpl in He.
      destruct e' as [|[|[|[|[|[|[|e']]]]]]]; try lia; try reflexivity;
        vm_compute in Hid; discriminate. }
  split; [exact Hrun|]. split; [|split].
  - apply (Hhit 0 2 2%Z); [exact Hrun | lia].
  - apply Hmiss. intros s e [(Hse & He & Hid) _] Hc.
    simpl in He.
    assert (s <= 3) by lia. assert (3 <= e) by lia.
    destruct s as [|[|[|[|s]]]]; try lia;
      destruct e as [|[|[|[|[|[|[|e]]]]]]]; try lia;
        vm_compute in Hid; discriminate.
  - apply Hpast. simpl. lia.
Defined.

(** ** The lint rule: the loop over the matches *)

Lemma callLoop_matches fuel n line k :
  Functions.callLoop fuel n line k =
  flat_map (fun m => Functions.checkCall n line (fst m) (snd m)) (callMatches fuel line k).
Proof.
  revert k. induction fuel as [|fuel IH]; intros k; simpl; [reflexivity|].
  destruct (Functions.execCallStart line k) as [[[st name] k']|]; [|reflexivity].
  simpl. now rewrite IH.
Qed.

Lemma checkCall_start n line st name d :
  In d (Functions.checkCall n line st name) ->
  start (range d) = {| line := n; character := st |}.
Proof.
  unfold Functions.checkCall.
  destruct (indexOf lparen line (st + length name)) as [o|]; [|contradiction].
  destruct (Functions.findCloseParen line o) as [c|]; [|contradiction].
  destruct (Functions.isBlank _); [contradiction|].
  destruct (negb _ || negb _); [|contradiction].
  intros [<-|[]]. reflexivity.
Qed.

Lemma matchCallStart_length prev s name len :
  Functions.matchCallStart prev s = Some (name, len) -> length name < len.
Proof.
  unfold Functions.matchCallStart. destruct s as [|c r]; [discriminate|].
  destruct (Functions.wordBoundary prev (Some c) && isIdentStart c); [|discriminate].
  destruct (dropWhile isSpace (dropWhile isIdentPart r)) as [|d ?]; [discriminate|].
  destruct (eqc d lparen); [|discriminate].
  intros H. injection H as <- <-. simpl. lia.
Qed.

Lemma searchCallStart_bounds prev s i st name k' :
  Functions.searchCallStart prev s i = Some (st, name, k') -> i <= st /\ st < k'.
Proof.
  revert prev i. induction s as [|c r IH]; intros prev i H.
  - simpl in H. discriminate.
  - cbn [Functions.searchCallStart] in H.
    destruct (Functions.matchCallStart prev (c :: r)) as [[nm len]|] eqn:E.
    + injection H as <- <- <-. apply matchCallStart_length in E. lia.
    + apply IH in H. lia.
Qed.

Lemma execCallStart_bounds line k st name k' :
  Functions.execCallStart line k = Some (st, name, k') -> k <= st /\ st < k'.
Proof. apply searchCallStart_bounds. Qed.

Lemma callMatches_ge fuel line k st name :
  In (st, name) (callMatches fuel line k) -> k <= st.
Proof.
  revert k. induction fuel as [|fuel IH]; intros k H; simpl in H; [contradiction|].
  destruct (Functions.execCallStart line k) as [[[st0 name0] k']|] eqn:E; [|contradiction].
  apply execCallStart_bounds in E. destruct H as [H|H].
  - injection H as <- <-. lia.
  - apply IH in H. lia.
Qed.

Lemma position_eqb_eq p q : position_eqb p q = true <-> p = q.
Proof.
  destruct p as [l c], q as [l' c']. unfold position_eqb. simpl.
  rewrite andb_true_iff, !Nat.eqb_eq. split; [intros [-> ->]; reflexivity|].
  intros H. injection H as -> ->. split; reflexivity.
Qed.

Lemma diagnosticsAt_app p a b :
  diagnosticsAt p (a ++ b) = diagnosticsAt p a ++ diagnosticsAt p b.
Proof. apply filter_app. Qed.

Lemma filter_all {A} (f : A -> bool) l :
  (forall x, In x l -> f x = true) -> filter f l = l.
Proof.
  induction l as [|a l IH]; intros H; simpl; [reflexivity|].
  rewrite (H a) by now left. f_equal. apply IH. intros x Hx. apply H. now right.
Qed.

Lemma filter_none {A} (f : A -> bool) l :
  (forall x, In x l -> f x = false) -> filter f l = [].
Proof.
  induction l as [|a l IH]; intros H; simpl; [reflexivity|].
  rewrite (H a) by now left. apply IH. intros x Hx. apply H. now right.
Qed.

Lemma diagnosticsAt_checkCall n line st name st' :
  diagnosticsAt {| line := n; character := st' |} (Functions.checkCall n line st name) =
  if st =? st' then Functions.checkCall n line st name else [].
Proof.
  destruct (Nat.eqb_spec st st') as [->|Hne].
  - apply filter_all. intros d Hd. apply position_eqb_eq. eapply checkCall_start; eassumption.
  - apply filter_none. intros d Hd. apply checkCall_start in Hd.
    destruct (position_eqb (start (range d)) _) eqn:E; [|reflexivity].
    apply position_eqb_eq in E. rewrite Hd in E. injection E as E. contradiction.
Qed.

(** The diagnostics of a line at a column are those of the match that
    starts there. *)
Lemma diagnosticsAt_callLoop fuel n line k st :
  diagnosticsAt {| line := n; character := st |} (Functions.callLoop fuel n line k) =
  flat_map (fun m => if fst m =? st then Functions.checkCall n line (fst m) (snd m) else [])
           (callMatches fuel line k).
Proof.
  rewrite callLoop_matches. induction (callMatches fuel line k) as [|m ms IH]; [reflexivity|].
  simpl. rewrite diagnosticsAt_app, IH. f_equal. apply diagnosticsAt_checkCall.
Qed.

Lemma flat_map_nil {A B} (f : A -> list B) l :
  (forall x, In x l -> f x = []) -> flat_map f l = [].
Proof.
  induction l as [|a l IH]; intros H; simpl; [reflexivity|].
  rewrite (H a) by now left. apply IH. intros x Hx. apply H. now right.
Qed.

Lemma diagnosticsAt_callLoop_before fuel n line k st :
  st < k ->
  diagnosticsAt {| line := n; character := st |} (Functions.callLoop fuel n line k) = [].
Proof.
  intros Hlt. rewrite diagnosticsAt_callLoop. apply flat_map_nil.
  intros [st' name'] Hin. apply callMatches_ge in Hin. simpl.
  destruct (Nat.eqb_spec st' st); [lia | reflexivity].
Qed.

Lemma diagnosticsAt_callLoop_match fuel n line k st name :
  In (st, name) (callMatches fuel line k) ->
  diagnosticsAt {| line := n; character := st |} (Functions.callLoop fuel n line k) =
  Functions.checkCall n line st name.
Proof.
  revert k. induction fuel as [|fuel IH]; intros k Hin; simpl in *; [contradiction|].
  destruct (Functions.execCallStart line k) as [[[st0 name0] k']|] eqn:E; [|contradiction].
  apply execCallStart_bounds in E. rewrite diagnosticsAt_app, diagnosticsAt_checkCall.
  destruct Hin as [Hin|Hin].
  - injection Hin as -> ->. rewrite Nat.eqb_refl.
    rewrite diagnosticsAt_callLoop_before by lia. apply app_nil_r.
  - pose proof (callMatches_ge _ _ _ _ _ Hin).
    destruct (Nat.eqb_spec st0 st); [lia|]. now apply IH.
Qed.

(** No diagnostic starts at a column at which every visited match is
    found in order. *)
Lemma diagnosticsAt_callLoop_nil fuel n line k st :
  (forall name, In (st, name) (callMatches fuel line k) ->
                Functions.checkCall n line st name = []) ->
  diagnosticsAt {| line := n; character := st |} (Functions.callLoop fuel n line k) = [].
Proof.
  intros H. rewrite diagnosticsAt_callLoop. apply flat_map_nil.
  intros [st' name'] Hin. simpl. destruct (Nat.eqb_spec st' st) as [->|]; [|reflexivity].
  now apply H.
Qed.

Lemma callLoop_in fuel n line k d :
  In d (Functions.callLoop fuel n line k) ->
  exists st name, In (st, name) (callMatches fuel line k) /\
                  In d (Functions.checkCall n line st name).
Proof.
  rewrite callLoop_matches, in_flat_map. intros [[st name] [Hin Hd]].
  exists st, name. split; assumption.
Qed.

Lemma callLoop_line fuel n line k d :
  In d (Functions.callLoop fuel n line k) -> Lsp.line (start (range d)) = n.
Proof.
  intros H. apply callLoop_in in H as (st & name & _ & Hd).
  apply checkCall_start in Hd. now rewrite Hd.
Qed.

(** ** The lint rule: the loop over the lines *)

#[local] Arguments Functions.callLoop : simpl never.

Lemma checkLines_line_ge lines n b d :
  In d (Functions.checkLines lines n b) -> n <= line (start (range d)).
Proof.
  revert n b. induction lines as [|l rest IH]; intros n b H; simpl in H; [contradiction|].
  destruct (Functions.skipsLine _ l).
  - apply IH in H. lia.
  - apply in_app_or in H as [H|H].
    + apply callLoop_line in H. lia.
    + apply IH in H. lia.
Qed.

Lemma diagnosticsOnLine_app k a b :
  diagnosticsOnLine k (a ++ b) = diagnosticsOnLine k a ++ diagnosticsOnLine k b.
Proof. apply filter_app. Qed.

Lemma diagnosticsOnLine_later lines n b k :
  k < n -> diagnosticsOnLine k (Functions.checkLines lines n b) = [].
Proof.
  intros Hlt. apply filter_none. intros d Hd. apply checkLines_line_ge in Hd.
  apply Nat.eqb_neq. lia.
Qed.

(** The diagnostics on a line are those of its own scan. *)
Lemma diagnosticsOnLine_checkLines lines n b j l :
  nth_error lines j = Some l ->
  diagnosticsOnLine (n + j) (Functions.checkLines lines n b) =
  if Functions.skipsLine (commentStateAt lines j b) l then []
  else Functions.callLoop (S (length (Functions.scannedLine l))) (n + j)
         (Functions.scannedLine l) 0.
Proof.
  revert n b j. induction lines as [|l0 rest IH]; intros n b j Hj.
  - destruct j; discriminate.
  - destruct j as [|j]; simpl in Hj.
    + injection Hj as ->. rewrite Nat.add_0_r. simpl.
      destruct (Functions.skipsLine _ l).
      * apply diagnosticsOnLine_later. lia.
      * rewrite diagnosticsOnLine_app, diagnosticsOnLine_later by lia.
        rewrite app_nil_r. apply filter_all. intros d Hd.
        apply callLoop_line in Hd. now apply Nat.eqb_eq.
    + simpl. replace (n + S j) with (S n + j) by lia.
      destruct (Functions.skipsLine _ l0).
      * now apply IH.
      * rewrite diagnosticsOnLine_app, IH by assumption.
        unfold diagnosticsOnLine at 1. rewrite filter_none; [reflexivity|]. intros d Hd.
        apply callLoop_line in Hd. apply Nat.eqb_neq. lia.
Qed.

Lemma diagnosticsAt_onLine k c ds :
  diagnosticsAt {| line := k; character := c |} ds =
  diagnosticsAt {| line := k; character := c |} (diagnosticsOnLine k ds).
Proof.
  unfold diagnosticsAt, diagnosticsOnLine. induction ds as [|d ds IH]; [reflexivity|].
  simpl. destruct (line (start (range d)) =? k) eqn:E.
  - simpl. now rewrite IH.
  - rewrite IH. unfold position_eqb. simpl. now rewrite E.
Qed.

(** The diagnostics of the document at a position of a scanned line. *)
Lemma diagnosticsAt_checkFunctionSpaces text uri k l c :
  lintedLine text k l ->
  diagnosticsAt {| line := k; character := c |} (Functions.checkFunctionSpaces text uri) =
  diagnosticsAt {| line := k; character := c |}
    (Functions.callLoop (S (length (Functions.scannedLine l))) k (Functions.scannedLine l) 0).
Proof.
  intros [Hk Hskip]. rewrite diagnosticsAt_onLine. unfold Functions.checkFunctionSpaces.
  pose proof (diagnosticsOnLine_checkLines (splitLines text) 0 false k l Hk) as H.
  simpl in H. rewrite H, Hskip. reflexivity.
Qed.

(** Every diagnostic of the document comes from a detected match on a
    scanned line. *)
Lemma checkLines_in lines n b d :
  In d (Functions.checkLines lines n b) ->
  exists j l st name,
    nth_error lines j = Some l /\
    Functions.skipsLine (commentStateAt lines j b) l = false /\
    In (st, name) (detectedCalls (Functions.scannedLine l)) /\
    In d (Functions.checkCall (n + j) (Functions.scannedLine l) st name).
Proof.
  revert n b. induction lines as [|l0 rest IH]; intros n b H; simpl in H; [contradiction|].
  destruct (Functions.skipsLine (Functions.commentStep b l0) l0) eqn:Hs.
  - apply IH in H as (j & l & st & name & Hj & Hsk & Hin & Hd).
    exists (S j), l, st, name. simpl. replace (n + S j) with (S n + j) by lia. auto.
  - apply in_app_or in H as [H|H].
    + apply callLoop_in in H as (st & name & Hin & Hd).
      exists 0, l0, st, name. simpl. rewrite Nat.add_0_r. auto.
    + apply IH in H as (j & l & st & name & Hj & Hsk & Hin & Hd).
      exists (S j), l, st, name. simpl. replace (n + S j) with (S n + j) by lia. auto.
Qed.

(** ** The fuel of the loop over the matches *)

Lemma takeWhile_dropWhile_length (p : ascii -> bool) s :
  length (takeWhile p s) + length (dropWhile p s) = length s.
Proof.
  induction s as [|c r IH]; [reflexivity|]. simpl.
  destruct (p c); simpl; lia.
Qed.

Lemma matchCallStart_within prev s name len :
  Functions.matchCallStart prev s = Some (name, len) -> len <= length s.
Proof.
  unfold Functions.matchCallStart. destruct s as [|c r]; [discriminate|].
  destruct (Functions.wordBoundary prev (Some c) && isIdentStart c); [|discriminate].
  pose proof (takeWhile_dropWhile_length isIdentPart r) as H1.
  pose proof (takeWhile_dropWhile_length isSpace (dropWhile isIdentPart r)) as H2.
  destruct (dropWhile isSpace (dropWhile isIdentPart r)) as [|d t]; [discriminate|].
  destruct (eqc d lparen); [|discriminate].
  intros H. injection H as <- <-. simpl in *. lia.
Qed.

Lemma searchCallStart_within prev s i st name k' :
  Functions.searchCallStart prev s i = Some (st, name, k') -> k' <= i + length s.
Proof.
  revert prev i. induction s as [|c r IH]; intros prev i H.
  - simpl in H. discriminate.
  - cbn [Functions.searchCallStart] in H.
    destruct (Functions.matchCallStart prev (c :: r)) as [[nm len]|] eqn:E.
    + injection H as <- <- <-. apply matchCallStart_within in E. lia.
    + apply IH in H. simpl. lia.
Qed.

Lemma execCallStart_within line k st name k' :
  k <= length line ->
  Functions.execCallStart line k = Some (st, name, k') -> k' <= length line.
Proof.
  intros Hk H. apply searchCallStart_within in H. rewrite length_skipn in H. lia.
Qed.

(** The loop has ended before its fuel runs out: more fuel finds the
    same matches. *)
Lemma callMatches_fuel fuel fuel' line k :
  k <= length line -> length line - k < fuel -> length line - k < fuel' ->
  callMatches fuel line k = callMatches fuel' line k.
Proof.
  revert fuel' k. induction fuel as [|fuel IH]; intros fuel' k Hk Hf Hf'; [lia|].
  destruct fuel' as [|fuel']; [lia|]. simpl.
  destruct (Functions.execCallStart line k) as [[[st name] k']|] eqn:E; [|reflexivity].
  pose proof (execCallStart_bounds _ _ _ _ _ E).
  pose proof (execCallStart_within _ _ _ _ _ Hk E).
  f_equal. apply IH; lia.
Qed.

Lemma callLoop_fuel fuel n line :
  length line < fuel ->
  Functions.callLoop fuel n line 0 = Functions.callLoop (S (length line)) n line 0.
Proof.
  intros H. rewrite !callLoop_matches.
  rewrite (callMatches_fuel fuel (S (length line)) line 0) by lia. reflexivity.
Qed.

(** ** The statements about the lint rule *)

Lemma diagnosticsAt_detectedCall text uri k c :
  detectedCall text k c ->
  exists l, lintedLine text k l /\
    diagnosticsAt {| line := k; character := startChar c |}
      (Functions.checkFunctionSpaces text uri) =
    Functions.checkCall k (Functions.scannedLine l) (startChar c) (functionName c) /\
    indexOf lparen (Functions.scannedLine l) (startChar c + length (functionName c))
      = Some (openParenIdx c) /\
    Functions.findCloseParen (Functions.scannedLine l) (openParenIdx c)
      = Some (closeParenIdx c) /\
    args c = slice (Functions.scannedLine l) (openParenIdx c + 1) (closeParenIdx c).
Proof.
  intros (l & Hl & Hin & Ho & Hc & Ha). exists l. split; [assumption|].
  split; [|auto].
  rewrite (diagnosticsAt_checkFunctionSpaces text uri k l _ Hl).
  now apply diagnosticsAt_callLoop_match.
Qed.

(** C2. For a detected call whose argument text is not blank, the rule
    emits exactly one diagnostic at the call when a space is missing:
    with the message [Expected space before ')'] when the arguments
    start with white space and do not end with it, [Expected space after
    '('] in the converse case, and the message that names both sides
    when both are missing.  The diagnostic is a warning and its range
    runs, on the line of the call, from the first column of the
    identifier to the column behind the closing parenthesis. *)
Theorem checkFunctionSpaces_missing_space :
  forall (text uri : jsstring) (k : nat) (c : Call),
    detectedCall text k c ->
    Functions.isBlank (args c) = false ->
    let found :=
      diagnosticsAt {| line := k; character := startChar c |}
        (Functions.checkFunctionSpaces text uri) in
    (Functions.startsWithSpace (args c) = true ->
     Functions.endsWithSpace (args c) = false ->
     found = [callDiagnostic k c (str "Expected space before ')'")]) /\
    (Functions.startsWithSpace (args c) = false ->
     Functions.endsWithSpace (args c) = true ->
     found = [callDiagnostic k c (str "Expected space after '('")]) /\
    (Functions.startsWithSpace (args c) = false ->
     Functions.endsWithSpace (args c) = false ->
     found = [callDiagnostic k c
                (str "Function arguments must have space after '(' and before ')'")]).
Proof.
  intros text uri k c Hcall Hblank found.
  destruct (diagnosticsAt_detectedCall text uri k c Hcall) as (l & _ & Hd & Ho & Hc & Ha).
  subst found. rewrite Hd. unfold Functions.checkCall. rewrite Ho, Hc, <- Ha, Hblank.
  splits; intros Hs He; rewrite Hs, He; reflexivity.
Qed.

Lemma checkFunctionSpaces_missing_space_witness :
  let c := {| startChar := 2; functionName := str "f"; openParenIdx := 3;
              closeParenIdx := 6; args := str " a" |} in
  detectedCall (str "x;f( a)") 0 c /\
  diagnosticsAt {| line := 0; character := 2 |}
    (Functions.checkFunctionSpaces (str "x;f( a)") (str "file:///t.afl")) =
  [callDiagnostic 0 c (str "Expected space before ')'")].
Proof.
  intros c.
  assert (Hcall : detectedCall (str "x;f( a)") 0 c).
  { exists (str "x;f( a)"). split; [split; reflexivity|].
    split; [vm_compute; left; reflexivity|]. split; [reflexivity|].
    split; reflexivity. }
  split; [exact Hcall|].
  apply (checkFunctionSpaces_missing_space (str "x;f( a)") (str "file:///t.afl") 0 c
           Hcall eq_refl); reflexivity.
Defined.

(** C5. A detected call whose argument text is empty or blank gets no
    diagnostic, and a call nested in the arguments of another one is
    checked on its own: on the line [f( f2(a) )] nothing is reported at
    the outer call and exactly one diagnostic at the inner call. *)
Theorem checkFunctionSpaces_blank_and_nested :
  (forall (text uri : jsstring) (k : nat) (c : Call),
     detectedCall text k c ->
     Functions.isBlank (args c) = true ->
     diagnosticsAt {| line := k; character := startChar c |}
       (Functions.checkFunctionSpaces text uri) = []) /\
  (forall uri : jsstring,
     let text := str "f( f2(a) )" in
     let outer := {| startChar := 0; functionName := str "f"; openParenIdx := 1;
                     closeParenIdx := 9; args := str " f2(a) " |} in
     let inner := {| startChar := 3; functionName := str "f2"; openParenIdx := 5;
                     closeParenIdx := 7; args := str "a" |} in
     detectedCall text 0 outer /\ detectedCall text 0 inner /\
     diagnosticsAt {| line := 0; character := 0 |}
       (Functions.checkFunctionSpaces text uri) = [] /\
     diagnosticsAt {| line := 0; character := 3 |}
       (Functions.checkFunctionSpaces text uri) =
     [callDiagnostic 0 inner
        (str "Function arguments must have space after '(' and before ')'")] /\
     Functions.checkFunctionSpaces text uri =
     [callDiagnostic 0 inner
        (str "Function arguments must have space after '(' and before ')'")]).
Proof.
  split.
  - intros text uri k c Hcall Hblank.
    destruct (diagnosticsAt_detectedCall text uri k c Hcall) as (l & _ & Hd & Ho & Hc & Ha).
    rewrite Hd. unfold Functions.checkCall. rewrite Ho, Hc, <- Ha, Hblank. reflexivity.
  - intros uri text outer inner. splits.
    + exists text. split; [split; reflexivity|].
      split; [vm_compute; left; reflexivity|]. split; [reflexivity|]. split; reflexivity.
    + exists text. split; [split; reflexivity|].
      split; [vm_compute; right; left; reflexivity|].
      split; [reflexivity|]. split; reflexivity.
    + reflexivity.
    + reflexivity.
    + reflexivity.
Qed.

Lemma checkFunctionSpaces_blank_and_nested_witness :
  let c := {| startChar := 0; functionName := str "now"; openParenIdx := 4;
              closeParenIdx := 7; args := str "  " |} in
  detectedCall (str "now (  )") 0 c /\
  diagnosticsAt {| line := 0; character := 0 |}
    (Functions.checkFunctionSpaces (str "now (  )") (str "file:///t.afl")) = [].
Proof.
  intros c.
  assert (Hcall : detectedCall (str "now (  )") 0 c).
  { exists (str "now (  )"). split; [split; reflexivity|].
    split; [vm_compute; left; reflexivity|]. split; [reflexivity|].
    split; reflexivity. }
  split; [exact Hcall|].
  exact (proj1 checkFunctionSpaces_blank_and_nested
           (str "now (  )") (str "file:///t.afl") 0 c Hcall eq_refl).
Defined.

Lemma commentStep_both b l :
  includes (str "/*") l = true -> includes (str "*/") l = true ->
  Functions.commentStep b l = false.
Proof.
  intros Ho Hc. unfold Functions.commentStep. rewrite Ho, Hc. reflexivity.
Qed.

Lemma commentStateAt_both lines k b l :
  nth_error lines k = Some l ->
  includes (str "/*") l = true -> includes (str "*/") l = true ->
  commentStateAt lines k b = false.
Proof.
  revert k b. induction lines as [|l0 rest IH]; intros k b Hk Ho Hc.
  - destruct k; discriminate.
  - destruct k as [|k]; simpl in *.
    + injection Hk as ->. now apply commentStep_both.
    + now apply IH.
Qed.

(** C10. After a line that holds both the opening and the closing marker
    of a block comment the engine is outside a block comment, in
    whichever order the markers stand and whatever the state before the
    line; so after a line such as [*/ code /*] the lines that follow are
    linted. *)
Theorem commentStep_both_markers :
  (forall (isInCommentBlock : bool) (l : jsstring),
     includes (str "/*") l = true ->
     includes (str "*/") l = true ->
     Functions.commentStep isInCommentBlock l = false) /\
  (forall (text : jsstring) (k : nat) (l : jsstring),
     nth_error (splitLines text) k = Some l ->
     includes (str "/*") l = true ->
     includes (str "*/") l = true ->
     commentStateAt (splitLines text) k false = false) /\
  (forall uri : jsstring,
     let text := str "*/ code /*" ++ [LF] ++ str "g(b)" in
     commentStateAt (splitLines text) 0 false = false /\
     lintedLine text 1 (str "g(b)") /\
     diagnosticsOnLine 1 (Functions.checkFunctionSpaces text uri) =
     [ {| severity := Warning;
          range := Range_create 1 0 1 4;
          message := str "Function arguments must have space after '(' and before ')'";
          source := str "afl-lsp" |} ]).
Proof.
  splits.
  - intros b l. apply commentStep_both.
  - intros text k l. apply commentStateAt_both.
  - intros uri text. splits; [reflexivity | split; reflexivity | reflexivity].
Qed.

Lemma commentStep_both_markers_witness :
  Functions.commentStep true (str "*/ code /*") = false /\
  Functions.commentStep false (str "/* note */ f(a)") = false /\
  commentStateAt (splitLines (str "/* a" ++ [LF] ++ str "*/ code /*")) 1 false = false.
Proof.
  splits.
  - apply (proj1 commentStep_both_markers true (str "*/ code /*")); reflexivity.
  - apply (proj1 commentStep_both_markers false (str "/* note */ f(a)")); reflexivity.
  - apply (proj1 (proj2 commentStep_both_markers)
             (str "/* a" ++ [LF] ++ str "*/ code /*") 1 (str "*/ code /*"));
      reflexivity.
Defined.

(** ** [stripStrings] *)

Lemma blankMatches_length pending s :
  length (Util.blankMatches pending s) = length s.
Proof.
  revert pending. induction s as [|c r IH]; intros pending; [reflexivity|].
  cbn [Util.blankMatches]. destruct pending as [|p].
  - destruct (Util.matchStringLiteral (c :: r)) as [[|p]|]; simpl; now rewrite IH.
  - simpl. now rewrite IH.
Qed.

Lemma matchStringLiteral_backslash s n :
  Util.matchStringLiteral s = Some n ->
  exists r, s = backslash :: dquote :: r.
Proof.
  destruct s as [|a [|b r]]; try discriminate. simpl.
  destruct (eqc a backslash) eqn:Ha; [|discriminate].
  destruct (eqc b dquote) eqn:Hb; [|discriminate].
  intros _. apply Ascii.eqb_eq in Ha, Hb. subst. now exists r.
Qed.

(** A line without a double quote has no match of the pattern. *)
Lemma stripStrings_no_dquote s :
  ~ In dquote s -> Util.stripStrings s = s.
Proof.
  unfold Util.stripStrings. induction s as [|c r IH]; intros Hno; [reflexivity|].
  cbn [Util.blankMatches].
  destruct (Util.matchStringLiteral (c :: r)) as [n|] eqn:E.
  - apply matchStringLiteral_backslash in E as [r' E]. exfalso. apply Hno.
    rewrite E. right. left. reflexivity.
  - f_equal. apply IH. intros H. apply Hno. now right.
Qed.

(** C7. [stripStrings] keeps the length of the line, but what it blanks
    is a run delimited by backslash-quote pairs: a string literal in
    plain double quotes is left as it is, with its parentheses. *)
Theorem stripStrings_plain_literal_kept :
  (forall line : jsstring, length (Util.stripStrings line) = length line) /\
  (let line := str "f(" ++ [dquote] ++ str "(" ++ [dquote] ++ str ")" in
   Util.stripStrings line = line) /\
  (let line := str "f(\" ++ [dquote] ++ str "(\" ++ [dquote] ++ str ")" in
   Util.stripStrings line = str "f(     )").
Proof.
  split; [|split].
  - intros line. apply blankMatches_length.
  - reflexivity.
  - reflexivity.
Qed.

(** ** Putting a code unit into a string *)

Lemma insertAt_0 ch s : insertAt 0 ch s = ch :: s.
Proof. reflexivity. Qed.

Lemma insertAt_S p ch c r : insertAt (S p) ch (c :: r) = c :: insertAt p ch r.
Proof. reflexivity. Qed.

Lemma skipn_insertAt k p ch s :
  k <= p -> p <= length s ->
  skipn k (insertAt p ch s) = insertAt (p - k) ch (skipn k s).
Proof.
  revert p s. induction k as [|k IH]; intros p s Hk Hp.
  - now rewrite Nat.sub_0_r.
  - destruct p as [|p]; [lia|]. destruct s as [|c r]; [simpl in Hp; lia|].
    rewrite insertAt_S. simpl skipn. apply IH; simpl in Hp; lia.
Qed.

(** The slice that ends behind the new code unit. *)
Lemma slice_insertAt_upto a p ch s :
  a <= p -> p <= length s ->
  slice (insertAt p ch s) a (p + 1) = slice s a p ++ [ch].
Proof.
  intros Ha Hp. unfold slice. rewrite skipn_insertAt by lia.
  unfold insertAt. replace (p + 1 - a) with (length (firstn (p - a) (skipn a s)) + 1).
  - rewrite firstn_app_2. reflexivity.
  - rewrite length_firstn, length_skipn. lia.
Qed.

Lemma takeWhile_insertAt (p : ascii -> bool) q ch s i x :
  i < q -> nth_error s i = Some x -> p x = false ->
  takeWhile p (insertAt q ch s) = takeWhile p s.
Proof.
  revert q s. induction i as [|i IH]; intros q s Hi Hn Hx.
  - destruct s as [|c r]; [discriminate|]. injection Hn as ->.
    destruct q as [|q]; [lia|]. rewrite insertAt_S. simpl. now rewrite Hx.
  - destruct s as [|c r]; [discriminate|]. destruct q as [|q]; [lia|].
    rewrite insertAt_S. simpl. destruct (p c); [|reflexivity].
    f_equal. apply IH; [lia | exact Hn | exact Hx].
Qed.

Lemma indexOfFrom_insertAt ch s i j q x :
  indexOfFrom ch s i = Some (i + j) -> j < q ->
  indexOfFrom ch (insertAt q x s) i = Some (i + j).
Proof.
  revert i j q. induction s as [|c r IH]; intros i j q H Hj; [discriminate|].
  destruct q as [|q]; [lia|]. rewrite insertAt_S. simpl in *.
  destruct (eqc c ch); [exact H|].
  destruct j as [|j].
  - exfalso. clear IH Hj. assert (Hge : forall s k m, indexOfFrom ch s k = Some m -> k <= m).
    { clear. induction s as [|c r IH]; intros k m H; [discriminate|]. simpl in H.
      destruct (eqc c ch); [injection H as <-; lia|]. apply IH in H. lia. }
    apply Hge in H. lia.
  - replace (i + S j) with (S i + j) in * by lia. apply IH; [exact H | lia].
Qed.

Lemma indexOfFrom_ge ch s k m : indexOfFrom ch s k = Some m -> k <= m.
Proof.
  revert k. induction s as [|c r IH]; intros k H; [discriminate|]. simpl in H.
  destruct (eqc c ch); [injection H as <-; lia|]. apply IH in H. lia.
Qed.

Lemma indexOfFrom_found ch s k m :
  indexOfFrom ch s k = Some m -> nth_error s (m - k) = Some ch.
Proof.
  revert k. induction s as [|c r IH]; intros k H; [discriminate|]. simpl in H.
  destruct (eqc c ch) eqn:E.
  - injection H as <-. rewrite Nat.sub_diag. simpl. apply Ascii.eqb_eq in E. now subst.
  - pose proof (indexOfFrom_ge _ _ _ _ H). specialize (IH _ H).
    replace (m - k) with (S (m - S k)) by lia. exact IH.
Qed.

Lemma indexOf_ge ch line from o : indexOf ch line from = Some o -> from <= o.
Proof. apply indexOfFrom_ge. Qed.

Lemma indexOf_found ch line from o :
  indexOf ch line from = Some o -> nth_error line o = Some ch.
Proof.
  intros H. pose proof (indexOf_ge _ _ _ _ H). apply indexOfFrom_found in H.
  rewrite nth_error_skipn in H. now replace (from + (o - from)) with o in H by lia.
Qed.

Lemma indexOf_insertAt ch line from o q x :
  indexOf ch line from = Some o -> o < q -> q <= length line ->
  indexOf ch (insertAt q x line) from = Some o.
Proof.
  intros H Hq Hlen. pose proof (indexOf_ge _ _ _ _ H) as Hge. unfold indexOf in *.
  rewrite skipn_insertAt by lia.
  replace o with (from + (o - from)) in * by lia.
  apply indexOfFrom_insertAt; [exact H | lia].
Qed.

(** The depth-counting loop. *)
Lemma closeParenLoop_ge s i d c :
  Functions.closeParenLoop s i d = Some c -> i <= c.
Proof.
  revert i d. induction s as [|ch r IH]; intros i d H; [discriminate|]. simpl in H.
  match type of H with (if ?b then _ else _) = _ => destruct b end.
  - injection H as <-. lia.
  - apply IH in H. lia.
Qed.

Lemma closeParenLoop_found s i d c :
  (0 < d)%Z -> Functions.closeParenLoop s i d = Some c ->
  nth_error s (c - i) = Some rparen.
Proof.
  revert i d. induction s as [|ch r IH]; intros i d Hd H; [discriminate|]. simpl in H.
  destruct (eqc ch lparen) eqn:El.
  - destruct (Z.eqb_spec (d + 1) 0); [lia|].
    pose proof (closeParenLoop_ge _ _ _ _ H). apply IH in H; [|lia].
    now replace (c - i) with (S (c - S i)) by lia.
  - destruct (eqc ch rparen) eqn:Er.
    + destruct (Z.eqb_spec (d - 1) 0).
      * injection H as <-. rewrite Nat.sub_diag. simpl. apply Ascii.eqb_eq in Er. now subst.
      * pose proof (closeParenLoop_ge _ _ _ _ H). apply IH in H; [|lia].
        now replace (c - i) with (S (c - S i)) by lia.
    + destruct (Z.eqb_spec d 0); [lia|].
      pose proof (closeParenLoop_ge _ _ _ _ H). apply IH in H; [|lia].
      now replace (c - i) with (S (c - S i)) by lia.
Qed.

Lemma closeParenLoop_shift s i d :
  Functions.closeParenLoop s (S i) d = option_map S (Functions.closeParenLoop s i d).
Proof.
  revert i d. induction s as [|ch r IH]; intros i d; [reflexivity|]. simpl.
  match goal with |- (if ?b then _ else _) = _ => destruct b end; [reflexivity|].
  apply IH.
Qed.

Lemma closeParenLoop_space s i d :
  Functions.closeParenLoop (space :: s) i d =
  if (d =? 0)%Z then Some i else Functions.closeParenLoop s (S i) d.
Proof. reflexivity. Qed.

(** A space put in where the loop ends moves the end by one column. *)
Lemma closeParenLoop_insertAt s i d j :
  d <> 0%Z -> Functions.closeParenLoop s i d = Some (i + j) ->
  Functions.closeParenLoop (insertAt j space s) i d = Some (i + j + 1).
Proof.
  revert i d j. induction s as [|ch r IH]; intros i d j Hd H; [discriminate|].
  destruct j as [|j].
  - rewrite insertAt_0, closeParenLoop_space.
    destruct (Z.eqb_spec d 0); [contradiction|].
    rewrite closeParenLoop_shift, H. simpl. f_equal. lia.
  - rewrite insertAt_S. cbn [Functions.closeParenLoop] in *.
    match type of H with (if ?b then _ else _) = _ => destruct b eqn:E end.
    + injection H as H. lia.
    + replace (i + S j) with (S i + j) in * by lia.
      apply IH; [|exact H]. apply Z.eqb_neq. exact E.
Qed.

Lemma findCloseParen_found line o c :
  nth_error line o = Some lparen ->
  Functions.findCloseParen line o = Some c ->
  o < c /\ nth_error line c = Some rparen.
Proof.
  intros Ho H. unfold Functions.findCloseParen in H.
  destruct (skipn o line) as [|ch r] eqn:E.
  - discriminate.
  - assert (ch = lparen).
    { pose proof (nth_error_skipn o line 0) as Hn. rewrite E, Nat.add_0_r, Ho in Hn.
      simpl in Hn. now injection Hn. }
    subst ch. cbn [Functions.closeParenLoop] in H.
    change (eqc lparen lparen) with true in H. cbn iota in H.
    change (0 + 1 =? 0)%Z with false in H. cbn iota in H.
    pose proof (closeParenLoop_ge _ _ _ _ H) as Hge.
    apply closeParenLoop_found in H; [|lia]. split; [lia|].
    pose proof (nth_error_skipn o line (c - o)) as Hn. rewrite E in Hn.
    replace (c - o) with (S (c - S o)) in Hn by lia. simpl in Hn.
    rewrite H in Hn. replace (o + S (c - S o)) with c in Hn by lia. now symmetry.
Qed.

Lemma findCloseParen_insertAt line o c :
  nth_error line o = Some lparen ->
  Functions.findCloseParen line o = Some c ->
  Functions.findCloseParen (insertAt c space line) o = Some (c + 1).
Proof.
  intros Ho H. destruct (findCloseParen_found _ _ _ Ho H) as [Hoc Hc].
  assert (c < length line) by (apply nth_error_Some; congruence).
  unfold Functions.findCloseParen in *. rewrite skipn_insertAt by lia.
  destruct (skipn o line) as [|ch r] eqn:E; [discriminate|].
  assert (ch = lparen).
  { pose proof (nth_error_skipn o line 0) as Hn. rewrite E, Nat.add_0_r, Ho in Hn.
    simpl in Hn. now injection Hn. }
  subst ch. replace (c - o) with (S (c - S o)) by lia. rewrite insertAt_S.
  cbn [Functions.closeParenLoop] in *.
  change (eqc lparen lparen) with true in *. cbn iota in *.
  change (0 + 1 =? 0)%Z with false in *. cbn iota in *.
  replace c with (S o + (c - S o)) in H at 1 by lia.
  apply closeParenLoop_insertAt in H; [|lia]. rewrite H. f_equal. lia.
Qed.

(** ** A call after the quick fix *)

Lemma matchCallStart_name prev s name len :
  Functions.matchCallStart prev s = Some (name, len) ->
  name = takeWhile isIdentPart s.
Proof.
  unfold Functions.matchCallStart. destruct s as [|c r]; [discriminate|].
  destruct (Functions.wordBoundary prev (Some c)); [|discriminate]. cbn [andb].
  destruct (isIdentStart c) eqn:Hc; [|discriminate].
  destruct (dropWhile isSpace (dropWhile isIdentPart r)) as [|d ?]; [discriminate|].
  destruct (eqc d lparen); [|discriminate].
  intros H. injection H as <- _. simpl. now rewrite (isIdentStart_part _ Hc).
Qed.

Lemma searchCallStart_name prev s i st name k' :
  Functions.searchCallStart prev s i = Some (st, name, k') ->
  i <= st /\ name = takeWhile isIdentPart (skipn (st - i) s).
Proof.
  revert prev i. induction s as [|c r IH]; intros prev i H.
  - simpl in H. discriminate.
  - cbn [Functions.searchCallStart] in H.
    destruct (Functions.matchCallStart prev (c :: r)) as [[nm len]|] eqn:E.
    + injection H as <- <- <-. rewrite Nat.sub_diag. split; [lia|].
      now apply matchCallStart_name in E.
    + apply IH in H as [Hle Hn]. split; [lia|].
      replace (st - i) with (S (st - S i)) by lia. exact Hn.
Qed.

Lemma callMatches_name fuel line k st name :
  In (st, name) (callMatches fuel line k) ->
  name = takeWhile isIdentPart (skipn st line).
Proof.
  revert k. induction fuel as [|fuel IH]; intros k H; simpl in H; [contradiction|].
  destruct (Functions.execCallStart line k) as [[[st0 name0] k']|] eqn:E; [|contradiction].
  destruct H as [H|H].
  - injection H as -> ->. apply searchCallStart_name in E as [Hle ->].
    rewrite skipn_skipn. f_equal. f_equal. lia.
  - eapply IH. exact H.
Qed.

Lemma isBlank_app a b :
  Functions.isBlank (a ++ b) = Functions.isBlank a && Functions.isBlank b.
Proof. apply forallb_app. Qed.

Lemma endsWithSpace_snoc a : Functions.endsWithSpace (a ++ [space]) = true.
Proof. unfold Functions.endsWithSpace. rewrite rev_app_distr. reflexivity. Qed.

Lemma startsWithSpace_app a b :
  a <> [] -> Functions.startsWithSpace (a ++ b) = Functions.startsWithSpace a.
Proof. destruct a; [contradiction | reflexivity]. Qed.

(** The shape of a diagnostic that asks for a space before the closing
    parenthesis. *)
Lemma checkCall_before n line st name d :
  In d (Functions.checkCall n line st name) ->
  includes (str "space before ')'") (message d) = true ->
  exists o c,
    indexOf lparen line (st + length name) = Some o /\
    Functions.findCloseParen line o = Some c /\
    Functions.isBlank (slice line (o + 1) c) = false /\
    Functions.startsWithSpace (slice line (o + 1) c) = true /\
    Functions.endsWithSpace (slice line (o + 1) c) = false /\
    range d = Range_create n st n (c + 1).
Proof.
  unfold Functions.checkCall.
  destruct (indexOf lparen line (st + length name)) as [o|] eqn:Ho; [|contradiction].
  destruct (Functions.findCloseParen line o) as [c|] eqn:Hc; [|contradiction].
  destruct (Functions.isBlank _) eqn:Hb; [contradiction|].
  destruct (Functions.startsWithSpace _) eqn:Hs;
    destruct (Functions.endsWithSpace _) eqn:He; cbn [negb orb andb];
    try contradiction; intros [<-|[]] Hm; cbn [message] in Hm;
    try (vm_compute in Hm; discriminate).
  exists o, c. splits; first [assumption | reflexivity].
Qed.

(** After a space is put in before the closing parenthesis of a call
    whose arguments start with white space, the call is in order. *)
Lemma checkCall_fixed n line st name o c :
  indexOf lparen line (st + length name) = Some o ->
  Functions.findCloseParen line o = Some c ->
  Functions.isBlank (slice line (o + 1) c) = false ->
  Functions.startsWithSpace (slice line (o + 1) c) = true ->
  Functions.checkCall n (insertAt c space line) st name = [].
Proof.
  intros Ho Hc Hb Hs.
  pose proof (indexOf_found _ _ _ _ Ho) as Hlp.
  destruct (findCloseParen_found _ _ _ Hlp Hc) as [Hoc Hrp].
  assert (Hlen : c < length line) by (apply nth_error_Some; congruence).
  unfold Functions.checkCall.
  rewrite (indexOf_insertAt _ _ _ _ c space Ho) by lia.
  rewrite (findCloseParen_insertAt _ _ _ Hlp Hc).
  rewrite slice_insertAt_upto by lia.
  rewrite isBlank_app, Hb. cbn [andb].
  rewrite endsWithSpace_snoc, startsWithSpace_app, Hs; [reflexivity|].
  intros E. rewrite E in Hb. discriminate.
Qed.

(** The same match, if any, starts at the column of the call after the
    fix. *)
Lemma callMatches_name_insertAt fuel fuel' line k k' st name name' o c :
  In (st, name) (callMatches fuel line k) ->
  indexOf lparen line (st + length name) = Some o ->
  o < c -> c <= length line ->
  In (st, name') (callMatches fuel' (insertAt c space line) k') ->
  name' = name.
Proof.
  intros Hin Ho Hoc Hc Hin'.
  apply callMatches_name in Hin, Hin'. rewrite Hin' , Hin.
  pose proof (indexOf_ge _ _ _ _ Ho) as Hge.
  pose proof (indexOf_found _ _ _ _ Ho) as Hlp.
  rewrite skipn_insertAt by lia.
  apply (takeWhile_insertAt isIdentPart (c - st) space (skipn st line) (o - st) lparen).
  - lia.
  - rewrite nth_error_skipn. now replace (st + (o - st)) with o by lia.
  - reflexivity.
Qed.

(** ** A line after the quick fix *)

Lemma eqc_neq a b : a <> b -> eqc a b = false.
Proof. intros H. now apply Ascii.eqb_neq. Qed.

Lemma startsWith1_insertAt b c l :
  nth_error l c = Some rparen -> b <> space -> b <> rparen ->
  startsWith [b] (insertAt c space l) = startsWith [b] l.
Proof.
  intros Hn Hs Hr. destruct l as [|x r]; [destruct c; discriminate|].
  destruct c as [|c].
  - injection Hn as ->. rewrite insertAt_0. simpl.
    now rewrite (eqc_neq _ _ Hs), (eqc_neq _ _ Hr).
  - rewrite insertAt_S. reflexivity.
Qed.

Lemma includes_cons p x r :
  includes p (x :: r) = startsWith p (x :: r) || includes p r.
Proof. destruct p; reflexivity. Qed.

Lemma startsWith2_cons a b x r :
  startsWith [a; b] (x :: r) = eqc a x && startsWith [b] r.
Proof. reflexivity. Qed.

Lemma startsWith1_cons a x r : startsWith [a] (x :: r) = eqc a x.
Proof. simpl. apply andb_true_r. Qed.

Lemma includes2_insertAt a b c l :
  nth_error l c = Some rparen -> a <> space -> b <> space -> b <> rparen ->
  includes [a; b] (insertAt c space l) = includes [a; b] l.
Proof.
  intros Hn Ha Hb Hr. revert c Hn. induction l as [|x r IH]; intros c Hn.
  - destruct c; discriminate.
  - destruct c as [|c].
    + rewrite insertAt_0, includes_cons, startsWith2_cons.
      now rewrite (eqc_neq _ _ Ha).
    + rewrite insertAt_S. simpl in Hn. rewrite !includes_cons, (IH c Hn). f_equal.
      rewrite !startsWith2_cons. now rewrite startsWith1_insertAt.
Qed.

Lemma includes1_insertAt a c l :
  c <= length l -> a <> space ->
  includes [a] (insertAt c space l) = includes [a] l.
Proof.
  intros Hc Ha. revert c Hc. induction l as [|x r IH]; intros c Hc.
  - replace c with 0 by (simpl in Hc; lia). rewrite insertAt_0. simpl.
    now rewrite (eqc_neq _ _ Ha).
  - destruct c as [|c].
    + rewrite insertAt_0, includes_cons, startsWith1_cons.
      now rewrite (eqc_neq _ _ Ha).
    + rewrite insertAt_S, !includes_cons, IH by (simpl in Hc; lia).
      rewrite !startsWith1_cons. reflexivity.
Qed.

Lemma commentStep_insertAt b c l :
  nth_error l c = Some rparen ->
  Functions.commentStep b (insertAt c space l) = Functions.commentStep b l.
Proof.
  intros Hn. unfold Functions.commentStep.
  change (str "/*") with ["/"%char; "*"%char]. change (str "*/") with ["*"%char; "/"%char].
  rewrite !includes2_insertAt by (assumption || discriminate). reflexivity.
Qed.

Lemma isLineComment_insertAt c l :
  nth_error l c = Some rparen ->
  Functions.isLineComment (insertAt c space l) = Functions.isLineComment l.
Proof.
  unfold Functions.isLineComment. revert c. induction l as [|x r IH]; intros c Hn.
  - destruct c; discriminate.
  - destruct c as [|c].
    + rewrite insertAt_0. reflexivity.
    + rewrite insertAt_S. simpl in Hn. cbn [dropWhile].
      destruct (isSpace x); [now apply IH|].
      change (str "//") with ["/"%char; "/"%char].
      change (startsWith ["/"%char; "/"%char] (x :: insertAt c space r))
        with (eqc "/"%char x && startsWith ["/"%char] (insertAt c space r)).
      change (startsWith ["/"%char; "/"%char] (x :: r))
        with (eqc "/"%char x && startsWith ["/"%char] r).
      rewrite startsWith1_insertAt by (assumption || discriminate). reflexivity.
Qed.

Lemma forallb_insertAt (p : ascii -> bool) c ch l :
  p ch = true -> forallb p (insertAt c ch l) = forallb p l.
Proof.
  intros Hp. unfold insertAt. rewrite forallb_app. simpl. rewrite Hp. simpl.
  rewrite <- forallb_app, firstn_skipn. reflexivity.
Qed.

Lemma removeLineComment_insertAt c l :
  nth_error l c = Some rparen -> c < length (Functions.removeLineComment l) ->
  Functions.removeLineComment (insertAt c space l) =
  insertAt c space (Functions.removeLineComment l).
Proof.
  revert c. induction l as [|x r IH]; intros c Hn Hlen.
  - destruct c; discriminate.
  - cbn [Functions.removeLineComment] in Hlen.
    destruct (startsWith (str "//") (x :: r)
              && forallb (fun d => negb (isLineTerminator d)) (skipn 2 (x :: r))) eqn:T;
      [simpl in Hlen; lia|].
    destruct c as [|c].
    + injection Hn as ->. reflexivity.
    + simpl in Hn, Hlen. rewrite insertAt_S.
      cbn [Functions.removeLineComment]. rewrite T.
      assert (T' : startsWith (str "//") (x :: insertAt c space r)
                   && forallb (fun d => negb (isLineTerminator d))
                        (skipn 2 (x :: insertAt c space r)) = false).
      { change (str "//") with ["/"%char; "/"%char] in *.
        change (startsWith ["/"%char; "/"%char] (x :: insertAt c space r))
          with (eqc "/"%char x && startsWith ["/"%char] (insertAt c space r)).
        change (startsWith ["/"%char; "/"%char] (x :: r))
          with (eqc "/"%char x && startsWith ["/"%char] r) in T.
        rewrite startsWith1_insertAt by (assumption || discriminate).
        destruct (eqc "/"%char x && startsWith ["/"%char] r) eqn:S0; [|reflexivity].
        cbn [andb] in *. cbn [skipn] in *.
        destruct c as [|c].
        - destruct r as [|y r']; [discriminate|]. injection Hn as ->.
          apply andb_true_iff in S0 as [_ S1]. discriminate S1.
        - destruct r as [|y r']; [discriminate|]. rewrite insertAt_S.
          cbn [skipn] in *. rewrite forallb_insertAt by reflexivity. exact T. }
      rewrite T'. rewrite insertAt_S. f_equal. apply IH; [exact Hn | lia].
Qed.

Lemma removeLineComment_prefix l :
  exists rest, l = Functions.removeLineComment l ++ rest.
Proof.
  induction l as [|x r [rest IH]].
  - now exists [].
  - cbn [Functions.removeLineComment].
    destruct (startsWith (str "//") (x :: r) && _).
    + now exists (x :: r).
    + exists rest. simpl. now rewrite <- IH.
Qed.

Lemma includes1_In a l : includes [a] l = false <-> ~ In a l.
Proof.
  induction l as [|x r IH]; simpl.
  - split; [intros _ [] | reflexivity].
  - rewrite andb_true_r, orb_false_iff, IH. unfold eqc. rewrite Ascii.eqb_neq.
    split.
    + intros [H1 H2] [H|H]; [now subst | contradiction].
    + intros H. split; [intros ->; apply H; now left | intros H'; apply H; now right].
Qed.

(** On a line without a double quote the scanned text is the line up to
    its line comment. *)
Lemma scannedLine_no_dquote l :
  includes [dquote] l = false ->
  Functions.scannedLine l = Functions.removeLineComment l.
Proof.
  intros H. unfold Functions.scannedLine. apply stripStrings_no_dquote.
  apply includes1_In in H. intros Hin. apply H.
  destruct (removeLineComment_prefix l) as [rest E]. rewrite E.
  apply in_or_app. now left.
Qed.

Lemma skipsLine_false b l :
  Functions.skipsLine b l = false ->
  Functions.isLineComment l = false /\ includes [dquote] l = false /\ b = false.
Proof.
  unfold Functions.skipsLine. intros H.
  apply orb_false_iff in H as [H Hb]. apply orb_false_iff in H as [H1 H2]. auto.
Qed.

(** The scanned text of a line and of the line after the fix. *)
Lemma scannedLine_insertAt c l :
  includes [dquote] l = false ->
  c < length (Functions.scannedLine l) ->
  nth_error (Functions.scannedLine l) c = Some rparen ->
  nth_error l c = Some rparen /\
  Functions.scannedLine (insertAt c space l) = insertAt c space (Functions.scannedLine l).
Proof.
  intros Hq Hc Hn. rewrite (scannedLine_no_dquote l Hq) in *.
  assert (Hl : nth_error l c = Some rparen).
  { destruct (removeLineComment_prefix l) as [rest E]. rewrite E.
    rewrite nth_error_app1 by exact Hc. exact Hn. }
  split; [exact Hl|].
  assert (Hlen : c <= length l).
  { assert (c < length l) by (apply nth_error_Some; congruence). lia. }
  rewrite scannedLine_no_dquote.
  - now apply removeLineComment_insertAt.
  - rewrite includes1_insertAt; [exact Hq | exact Hlen | discriminate].
Qed.

(** ** The lines of a text and the offsets of its positions *)

Lemma splitLines_step x r :
  splitLines (x :: r) =
  if eqc x LF then [] :: splitLines r
  else if eqc x CR && startsWith [LF] r then splitLines r
  else match splitLines r with
       | l :: ls => (x :: l) :: ls
       | [] => [[x]]
       end.
Proof.
  cbn [splitLines]. destruct (eqc x LF); [reflexivity|].
  destruct r as [|d r'].
  - rewrite andb_false_r. reflexivity.
  - rewrite startsWith1_cons. destruct (eqc x CR); [|reflexivity]. cbn [andb].
    destruct (eqc d LF) eqn:Ed.
    + unfold eqc in Ed. rewrite Ascii.eqb_sym in Ed. unfold eqc. rewrite Ed.
      rewrite Ascii.eqb_sym in Ed. apply Ascii.eqb_eq in Ed. subst d. reflexivity.
    + unfold eqc in *. rewrite Ascii.eqb_sym, Ed. reflexivity.
Qed.

Lemma splitLines_nonempty s : splitLines s <> [].
Proof.
  induction s as [|x r IH]; [discriminate|]. rewrite splitLines_step.
  destruct (eqc x LF); [discriminate|].
  destruct (eqc x CR && startsWith [LF] r); [exact IH|].
  destruct (splitLines r); discriminate.
Qed.

Lemma splitLines_head_LF r hd tl :
  splitLines r = hd :: tl -> startsWith [LF] r = true -> hd = [].
Proof.
  destruct r as [|d r']; [discriminate|]. rewrite startsWith1_cons. intros H E.
  unfold eqc in E. rewrite Ascii.eqb_sym in E.
  rewrite splitLines_step in H. unfold eqc in H. rewrite E in H. now injection H.
Qed.

Lemma startsWith_insertAt_S p b d r :
  startsWith [b] (insertAt (S p) space (d :: r)) = startsWith [b] (d :: r).
Proof. rewrite insertAt_S, !startsWith1_cons. reflexivity. Qed.

(** The text from the start of a line on begins with that line. *)
Lemma skipn_lineStart text j l :
  nth_error (splitLines text) j = Some l ->
  exists post, skipn (lineStart text j) text = l ++ post.
Proof.
  revert j l. induction text as [|x r IH]; intros j l Hj.
  - destruct j as [|[|j]]; try discriminate. injection Hj as <-. now exists [].
  - rewrite splitLines_step in Hj. destruct (eqc x LF) eqn:Ex.
    + destruct j as [|j].
      * injection Hj as <-. now exists (x :: r).
      * cbn [lineStart]. rewrite Ex. cbn [skipn]. now apply IH.
    + destruct (eqc x CR && startsWith [LF] r) eqn:Eb.
      * apply andb_true_iff in Eb as [_ Eb]. destruct j as [|j].
        -- destruct (splitLines r) as [|hd tl] eqn:Es; [discriminate|].
           injection Hj as <-. rewrite (splitLines_head_LF r hd tl Es Eb).
           now exists (x :: r).
        -- cbn [lineStart]. rewrite Ex. cbn [skipn]. now apply IH.
      * destruct (splitLines r) as [|hd tl] eqn:Es;
          [exfalso; now apply (splitLines_nonempty r)|].
        destruct j as [|j].
        -- injection Hj as <-. destruct (IH 0 hd eq_refl) as [post Hp].
           replace (lineStart r 0) with 0 in Hp by (destruct r; reflexivity).
           replace (lineStart (x :: r) 0) with 0 by reflexivity.
           cbn [skipn] in *. exists post. simpl. now rewrite Hp.
        -- cbn [lineStart]. rewrite Ex. cbn [skipn]. now apply IH.
Qed.

Lemma lineStart_le text j : lineStart text j <= length text.
Proof.
  revert j. induction text as [|x r IH]; intros [|j]; simpl; try lia.
  specialize (IH (if eqc x LF then j else S j)). lia.
Qed.

(** The text that a range inside one line spans. *)
Lemma slice_line text j l a b :
  nth_error (splitLines text) j = Some l -> b <= length l ->
  slice text (lineStart text j + a) (lineStart text j + b) = slice l a b.
Proof.
  intros Hj Hb. destruct (skipn_lineStart text j l Hj) as [post Hp].
  unfold slice. replace (lineStart text j + b - (lineStart text j + a)) with (b - a) by lia.
  destruct (Nat.le_gt_cases a b) as [Hab|Hab].
  - rewrite Nat.add_comm, <- skipn_skipn, Hp, skipn_app.
    replace (a - length l) with 0 by lia. cbn [skipn].
    rewrite firstn_app. replace (b - a - length (skipn a l)) with 0
      by (rewrite length_skipn; lia).
    cbn [firstn]. apply app_nil_r.
  - replace (b - a) with 0 by lia. reflexivity.
Qed.

(** A space put into a line of the text changes that line only. *)
Lemma splitLines_insertAt text j l c :
  nth_error (splitLines text) j = Some l -> c < length l ->
  splitLines (insertAt (lineStart text j + c) space text) =
  firstn j (splitLines text) ++ insertAt c space l :: skipn (S j) (splitLines text).
Proof.
  revert j c l. induction text as [|x r IH]; intros j c l Hj Hc.
  - destruct j as [|[|j]]; try discriminate. injection Hj as <-. simpl in Hc. lia.
  - pose proof Hj as Hj0. rewrite splitLines_step in Hj. rewrite (splitLines_step x r).
    destruct (eqc x LF) eqn:Ex.
    + destruct j as [|j]; [injection Hj as <-; simpl in Hc; lia|].
      cbn [lineStart]. rewrite Ex. cbn [nth_error] in Hj.
      cbn [Nat.add]. rewrite insertAt_S, splitLines_step, Ex.
      rewrite (IH j c l Hj Hc). reflexivity.
    + destruct (eqc x CR && startsWith [LF] r) eqn:Eb.
      * pose proof Eb as Eb0. apply andb_true_iff in Eb as [_ Eb].
        destruct j as [|j].
        -- destruct (splitLines r) as [|hd tl] eqn:Es; [discriminate|].
           injection Hj as <-. rewrite (splitLines_head_LF r hd tl Es Eb) in Hc.
           simpl in Hc. lia.
        -- cbn [lineStart]. rewrite Ex. cbn [Nat.add]. rewrite insertAt_S, splitLines_step, Ex.
           destruct r as [|d r']; [discriminate|].
           cbn [lineStart]. cbn [Nat.add]. rewrite startsWith_insertAt_S, Eb0.
           specialize (IH (S j) c l Hj Hc). cbn [lineStart] in IH. exact IH.
      * destruct (splitLines r) as [|hd tl] eqn:Es;
          [exfalso; now apply (splitLines_nonempty r)|].
        destruct j as [|j].
        -- injection Hj as <-. cbn [lineStart Nat.add firstn skipn app].
           destruct c as [|c].
           ++ rewrite !insertAt_0. rewrite splitLines_step.
              change (eqc space LF) with false. change (eqc space CR) with false.
              cbn [andb]. rewrite (splitLines_step x r), Ex, Eb, Es. reflexivity.
           ++ simpl in Hc. rewrite !insertAt_S, splitLines_step, Ex.
              specialize (IH 0 c hd eq_refl ltac:(lia)).
              replace (lineStart r 0) with 0 in IH by (destruct r; reflexivity).
              cbn [lineStart Nat.add firstn skipn app] in IH. rewrite IH.
              assert (Eb' : eqc x CR && startsWith [LF] (insertAt c space r) = false).
              { destruct c as [|c].
                - rewrite insertAt_0, startsWith1_cons. apply andb_false_r.
                - destruct r as [|d r'].
                  + simpl in Es. injection Es as <- <-. simpl in Hc. lia.
                  + now rewrite startsWith_insertAt_S. }
              rewrite Eb'. reflexivity.
        -- cbn [nth_error] in Hj.
           assert (Hj' : nth_error (splitLines r) (S j) = Some l) by (rewrite Es; exact Hj).
           cbn [lineStart]. rewrite Ex. cbn [Nat.add]. rewrite insertAt_S, splitLines_step, Ex.
           destruct r as [|d r']; [destruct j; discriminate|].
           cbn [lineStart]. cbn [Nat.add]. rewrite startsWith_insertAt_S, Eb.
           specialize (IH (S j) c l Hj Hc). cbn [lineStart Nat.add] in IH.
           rewrite IH. reflexivity.
Qed.

(** ** The positions of the text document *)

Lemma noLoneCR_tail c r : noLoneCR (c :: r) = true -> noLoneCR r = true.
Proof. cbn [noLoneCR]. intros H. now apply andb_true_iff in H as [_ H]. Qed.

Lemma noLoneCR_head c r :
  noLoneCR (c :: r) = true -> eqc c CR = true -> startsWith [LF] r = true.
Proof.
  cbn [noLoneCR]. intros H E. rewrite E in H. now apply andb_true_iff in H as [H _].
Qed.

Lemma eqc_LF_not_CR c : eqc c LF = true -> eqc c CR = false.
Proof.
  unfold eqc. intros E. apply Ascii.eqb_eq in E. subst c. reflexivity.
Qed.

(** A CR in front of an LF starts no line of its own. *)
Lemma lineOffsetsFrom_step c r i :
  (eqc c CR = true -> startsWith [LF] r = true) ->
  lineOffsetsFrom (c :: r) i =
  if eqc c LF then (i + 1) :: lineOffsetsFrom r (i + 1) else lineOffsetsFrom r (i + 1).
Proof.
  intros H. cbn [lineOffsetsFrom]. unfold isEOL.
  destruct (eqc c LF) eqn:El.
  - rewrite (eqc_LF_not_CR c El). cbn [orb andb].
    destruct r as [|d r']; reflexivity.
  - destruct (eqc c CR) eqn:Ec; [|reflexivity]. cbn [orb andb].
    specialize (H eq_refl). destruct r as [|d r']; [discriminate H|].
    rewrite startsWith1_cons in H.
    assert (Ed : eqc d LF = true) by (unfold eqc in *; now rewrite Ascii.eqb_sym).
    rewrite Ed. cbn [lineOffsetsFrom]. unfold isEOL. rewrite Ed, orb_true_r.
    rewrite (eqc_LF_not_CR d Ed). cbn [andb].
    replace (i + 1 + 1) with (i + 2) by lia.
    destruct r' as [|e r'']; reflexivity.
Qed.

(** On a text whose line endings are LF and CR LF, the document has the
    lines of the split, and they start where the split has them. *)
Lemma lineOffsetsFrom_lineStart text :
  noLoneCR text = true ->
  forall i,
    lineOffsetsFrom text i =
    map (fun n => i + lineStart text (S n)) (seq 0 (length (splitLines text) - 1)).
Proof.
  induction text as [|c r IH]; intros Hn i; [reflexivity|].
  pose proof (noLoneCR_tail c r Hn) as Hr.
  rewrite (lineOffsetsFrom_step c r i (noLoneCR_head c r Hn)), splitLines_step.
  assert (Hlen : 0 < length (splitLines r)).
  { destruct (splitLines r) eqn:E; [now apply splitLines_nonempty in E | simpl; lia]. }
  destruct (eqc c LF) eqn:El.
  - pose proof (IH Hr (i + 1)) as IHi. cbn [length].
    match type of Hlen with 0 < ?x => set (m := x) in * end. clearbody m.
    destruct m as [|m]; [lia|].
    cbn [Nat.sub] in *. rewrite Nat.sub_0_r in *. cbn [seq map]. f_equal.
    + cbn [lineStart]. rewrite El. destruct r; cbn [lineStart]; lia.
    + rewrite <- seq_shift, map_map, IHi. apply map_ext.
      intros n. cbn [lineStart]. rewrite El. lia.
  - assert (Hs : forall n, lineStart (c :: r) (S n) = S (lineStart r (S n)))
      by (intros n; cbn [lineStart]; now rewrite El).
    assert (Hl : length (if eqc c CR && startsWith [LF] r then splitLines r
                         else match splitLines r with
                              | l :: ls => (c :: l) :: ls
                              | [] => [[c]]
                              end) = length (splitLines r)).
    { destruct (eqc c CR && startsWith [LF] r); [reflexivity|].
      destruct (splitLines r); [simpl in Hlen; lia | reflexivity]. }
    rewrite Hl, (IH Hr (i + 1)). apply map_ext. intros n. rewrite Hs. lia.
Qed.

Lemma computeLineOffsets_length text :
  noLoneCR text = true -> length (computeLineOffsets text) = length (splitLines text).
Proof.
  intros Hn. unfold computeLineOffsets. cbn [length].
  rewrite (lineOffsetsFrom_lineStart text Hn 0), length_map, length_seq.
  assert (0 < length (splitLines text)).
  { destruct (splitLines text) eqn:E; [now apply splitLines_nonempty in E | simpl; lia]. }
  lia.
Qed.

Lemma computeLineOffsets_nth text j :
  noLoneCR text = true -> j < length (splitLines text) ->
  nth j (computeLineOffsets text) 0 = lineStart text j.
Proof.
  intros Hn Hj. unfold computeLineOffsets.
  destruct j as [|j]; [destruct text; reflexivity|].
  cbn [nth]. rewrite (lineOffsetsFrom_lineStart text Hn 0).
  apply nth_error_nth. rewrite nth_error_map, nth_error_seq.
  destruct (Nat.ltb_spec j (length (splitLines text) - 1)) as [_|Hge]; [reflexivity|].
  unfold jsstring in *. lia.
Qed.

(** A line of such a text holds no line ending. *)
Lemma splitLines_noEOL text :
  noLoneCR text = true ->
  Forall (fun l => forallb (fun c => negb (isEOL c)) l = true) (splitLines text).
Proof.
  induction text as [|c r IH]; intros Hn; [repeat constructor|].
  pose proof (IH (noLoneCR_tail c r Hn)) as Hr. rewrite splitLines_step.
  destruct (eqc c LF) eqn:El; [now constructor|].
  destruct (eqc c CR) eqn:Ec.
  - now rewrite (noLoneCR_head c r Hn Ec).
  - cbn [andb]. destruct (splitLines r) as [|hd tl]; [repeat constructor|].
    + cbn [forallb]. unfold isEOL. now rewrite Ec, El.
    + inversion Hr as [|? ? Hhd Htl]; subst. constructor; [|exact Htl].
      cbn [forallb]. unfold isEOL. now rewrite Ec, El.
Qed.

(** The next line starts behind the line and its ending. *)
Lemma lineStart_next text j l :
  nth_error (splitLines text) j = Some l ->
  S j < length (splitLines text) ->
  lineStart text j + length l < lineStart text (S j).
Proof.
  revert j l. induction text as [|x r IH]; intros j l Hj Hlt.
  - simpl in Hlt. lia.
  - rewrite splitLines_step in Hj, Hlt. destruct (eqc x LF) eqn:Ex.
    + destruct j as [|j].
      * injection Hj as <-. cbn [lineStart length]. rewrite Ex. lia.
      * cbn [nth_error] in Hj. cbn [length] in Hlt.
        specialize (IH j l Hj ltac:(lia)).
        cbn [lineStart]. rewrite Ex. cbn [lineStart] in IH. lia.
    + destruct (eqc x CR && startsWith [LF] r) eqn:Eb.
      * apply andb_true_iff in Eb as [_ Eb]. destruct j as [|j].
        -- destruct (splitLines r) as [|hd tl] eqn:Es; [discriminate|].
           injection Hj as <-. rewrite (splitLines_head_LF r hd tl Es Eb).
           cbn [lineStart length]. rewrite Ex. lia.
        -- specialize (IH (S j) l Hj Hlt).
           change (lineStart (x :: r) (S j)) with (S (lineStart r (if eqc x LF then j else S j))).
           change (lineStart (x :: r) (S (S j)))
             with (S (lineStart r (if eqc x LF then S j else S (S j)))).
           rewrite Ex. lia.
      * destruct (splitLines r) as [|hd tl] eqn:Es;
          [exfalso; now apply (splitLines_nonempty r)|].
        destruct j as [|j].
        -- injection Hj as <-. cbn [length] in *.
           specialize (IH 0 hd eq_refl ltac:(lia)).
           replace (lineStart r 0) with 0 in IH by (destruct r; reflexivity).
           cbn [lineStart]. rewrite Ex. lia.
        -- cbn [nth_error] in Hj. cbn [length] in Hlt.
           specialize (IH (S j) l Hj ltac:(simpl; lia)).
           change (lineStart (x :: r) (S j)) with (S (lineStart r (if eqc x LF then j else S j))).
           change (lineStart (x :: r) (S (S j)))
             with (S (lineStart r (if eqc x LF then S j else S (S j)))).
           rewrite Ex. lia.
Qed.

Lemma ensureBeforeEOL_stays text o lo :
  holdsAt isEOL text o = false -> ensureBeforeEOL text (S o) lo = S o.
Proof.
  unfold holdsAt. intros H. cbn [ensureBeforeEOL].
  destruct (nth_error text o); [rewrite H|]; now rewrite andb_false_r.
Qed.

(** The offset of a position on a line of the split, on a text whose
    line endings are LF and CR LF. *)
Lemma offsetAt_line text j l c :
  noLoneCR text = true ->
  nth_error (splitLines text) j = Some l -> c <= length l ->
  offsetAt text {| line := j; character := c |} = lineStart text j + c.
Proof.
  intros Hn Hj Hc.
  assert (Hjl : j < length (splitLines text)) by (apply nth_error_Some; congruence).
  destruct (skipn_lineStart text j l Hj) as [post Hp].
  pose proof (lineStart_le text j) as Hoff.
  assert (Hlt : lineStart text j + length l <= length text).
  { apply (f_equal (@length _)) in Hp. rewrite length_skipn, length_app in Hp. lia. }
  unfold offsetAt. cbn [Lsp.line character].
  rewrite (computeLineOffsets_length text Hn).
  destruct (Nat.leb_spec (length (splitLines text)) j) as [|_]; [lia|].
  rewrite (computeLineOffsets_nth text j Hn Hjl).
  destruct c as [|c]; [cbn [Nat.eqb]; lia|]. cbn [Nat.eqb].
  assert (Hmin : Nat.min (lineStart text j + S c)
                   (if j + 1 <? length (splitLines text)
                    then nth (j + 1) (computeLineOffsets text) 0
                    else length text) = lineStart text j + S c).
  { apply Nat.min_l. destruct (Nat.ltb_spec (j + 1) (length (splitLines text))) as [Hs|Hs].
    - rewrite (computeLineOffsets_nth text (j + 1) Hn Hs).
      pose proof (lineStart_next text j l Hj ltac:(lia)) as Hnx.
      replace (j + 1) with (S j) by lia. lia.
    - lia. }
  rewrite Hmin. replace (lineStart text j + S c) with (S (lineStart text j + c)) by lia.
  apply ensureBeforeEOL_stays. unfold holdsAt.
  rewrite <- nth_error_skipn, Hp, nth_error_app1 by lia.
  destruct (nth_error l c) as [a|] eqn:Ea; [|reflexivity].
  pose proof (splitLines_noEOL text Hn) as Hall.
  rewrite Forall_forall in Hall. specialize (Hall l (nth_error_In _ _ Hj)).
  rewrite forallb_forall in Hall. specialize (Hall a (nth_error_In _ _ Ea)).
  now apply negb_true_iff in Hall.
Qed.

(** The text that a range inside one line spans in the document. *)
Lemma getTextRange_line doc j l a b :
  noLoneCR (content doc) = true ->
  nth_error (splitLines (content doc)) j = Some l -> a <= b -> b <= length l ->
  getTextRange doc (Range_create j a j b) = slice l a b.
Proof.
  intros Hn Hj Hab Hb. unfold getTextRange, Range_create. cbn [start end_].
  rewrite (offsetAt_line _ j l a Hn Hj), (offsetAt_line _ j l b Hn Hj) by lia.
  unfold substring. rewrite Nat.min_l, Nat.max_r by lia.
  now apply slice_line.
Qed.

(** ** The quick fix on the document *)

Lemma slice_snoc s a c x :
  nth_error s c = Some x -> a <= c -> slice s a (c + 1) = slice s a c ++ [x].
Proof.
  intros Hn Ha. unfold slice.
  assert (Hlen : c < length s) by (apply nth_error_Some; congruence).
  replace (c + 1 - a) with (S (c - a)) by lia.
  assert (Hn' : nth_error (skipn a s) (c - a) = Some x).
  { rewrite nth_error_skipn. now replace (a + (c - a)) with c by lia. }
  revert Hn'. generalize (skipn a s) as t. generalize (c - a) as k. clear.
  induction k as [|k IH]; intros [|y t] H; try discriminate.
  - injection H as ->. reflexivity.
  - simpl. f_equal. now apply IH.
Qed.

Lemma slice_app_l s rest a b : b <= length s -> slice (s ++ rest) a b = slice s a b.
Proof.
  intros Hb. unfold slice. destruct (Nat.le_gt_cases a b) as [Hab|Hab].
  - rewrite skipn_app. replace (a - length s) with 0 by lia. cbn [skipn].
    rewrite firstn_app. replace (b - a - length (skipn a s)) with 0
      by (rewrite length_skipn; lia).
    cbn [firstn]. apply app_nil_r.
  - replace (b - a) with 0 by lia. reflexivity.
Qed.

Lemma firstn_slice s a b :
  a <= b -> b <= length s -> firstn a s ++ slice s a b = firstn b s.
Proof.
  intros Hab Hb. unfold slice. rewrite <- (firstn_skipn a s) at 3.
  replace b with (length (firstn a s) + (b - a)) at 2
    by (rewrite length_firstn; lia).
  now rewrite firstn_app_2.
Qed.

Lemma skipn_nth {A} (s : list A) p x :
  nth_error s p = Some x -> skipn p s = x :: skipn (S p) s.
Proof.
  revert s. induction p as [|p IH]; intros [|y s] H; try discriminate.
  - injection H as ->. reflexivity.
  - simpl in *. now apply IH.
Qed.

Lemma lastIndexOfFrom_snoc ch s i :
  lastIndexOfFrom ch (s ++ [ch]) i = Some (i + length s).
Proof.
  revert i. induction s as [|c r IH]; intros i; simpl.
  - unfold eqc. rewrite Ascii.eqb_refl. f_equal. lia.
  - rewrite IH. f_equal. lia.
Qed.

Lemma lastIndexOf_snoc ch s : lastIndexOf ch (s ++ [ch]) = Some (length s).
Proof. unfold lastIndexOf. now rewrite lastIndexOfFrom_snoc. Qed.

Lemma nth_error_replaced {A} (l : list A) j x y :
  nth_error l j = Some x ->
  nth_error (firstn j l ++ y :: skipn (S j) l) j = Some y.
Proof.
  intros H. assert (j < length l) by (apply nth_error_Some; congruence).
  rewrite nth_error_app2; rewrite length_firstn; [|lia].
  replace (j - Nat.min j (length l)) with 0 by lia. reflexivity.
Qed.

Lemma commentStateAt_replaced lines j l l' b :
  nth_error lines j = Some l ->
  (forall b0, Functions.commentStep b0 l' = Functions.commentStep b0 l) ->
  commentStateAt (firstn j lines ++ l' :: skipn (S j) lines) j b = commentStateAt lines j b.
Proof.
  revert j b. induction lines as [|l0 rest IH]; intros j b Hj Hstep.
  - destruct j; discriminate.
  - destruct j as [|j]; simpl in *.
    + injection Hj as ->. apply Hstep.
    + now apply IH.
Qed.

Lemma fix_newText (x : jsstring) :
  slice (x ++ [rparen]) 0 (length x) ++ str " )" ++ skipn (length x + 1) (x ++ [rparen])
  = x ++ [space; rparen].
Proof.
  unfold slice. rewrite Nat.sub_0_r. cbn [skipn].
  rewrite firstn_app, firstn_all, Nat.sub_diag. cbn [firstn]. rewrite app_nil_r.
  rewrite skipn_all2 by (rewrite length_app; simpl; lia).
  rewrite app_nil_r. reflexivity.
Qed.

(** The text after the edit of the quick fix: a space before the
    closing parenthesis of the call. *)
Lemma applyEdit_fix text j l st c :
  noLoneCR text = true ->
  nth_error (splitLines text) j = Some l ->
  nth_error l c = Some rparen -> st <= c ->
  applyEdit text {| edit_range := Range_create j st j (c + 1);
                    newText := slice l st c ++ [space; rparen] |} =
  insertAt (lineStart text j + c) space text.
Proof.
  intros Hn Hj Hc Hst.
  assert (Hlen : c < length l) by (apply nth_error_Some; congruence).
  destruct (skipn_lineStart text j l Hj) as [post Hp].
  pose proof (lineStart_le text j) as Hoff.
  assert (Hlt : lineStart text j + length l <= length text).
  { apply (f_equal (@length _)) in Hp. rewrite length_skipn, length_app in Hp. lia. }
  assert (Hnth : nth_error text (lineStart text j + c) = Some rparen).
  { rewrite <- nth_error_skipn, Hp, nth_error_app1 by exact Hlen. exact Hc. }
  unfold applyEdit, Range_create. cbn [edit_range newText start end_].
  rewrite (offsetAt_line text j l st Hn Hj), (offsetAt_line text j l (c + 1) Hn Hj) by lia.
  cbv zeta. rewrite Nat.min_l, Nat.max_r by lia. unfold insertAt.
  rewrite <- (slice_line text j l st c Hj) by lia.
  rewrite <- app_assoc, app_assoc, firstn_slice by lia.
  f_equal. cbn. f_equal.
  rewrite (skipn_nth _ _ _ Hnth). f_equal. f_equal. lia.
Qed.

(** C4 (as stated, refuted).  On a text with a CR that no LF follows
    the quick fix need not exist: the rule reads  a CR f( x)  as one
    line and reports the call at columns 2 to 7 of line 0, the document
    ends line 0 at the CR, and the text that the range of the diagnostic
    spans in it holds no closing parenthesis, so that no fix is made. *)
Lemma quick_fix_lone_CR :
  ~ (forall (text uri : jsstring) (s : State) (doc : TextDocument) (d : Diagnostic),
       JsMap.get uri (documents s) = Some doc ->
       content doc = text ->
       In d (Functions.checkFunctionSpaces text uri) ->
       includes (str "space before ')'") (message d) = true ->
       exists (action : CodeAction) (edit : TextEdit) (before after : jsstring),
         Server.onCodeAction uri [d] s = [action] /\
         Functions.fixFunctionSapces (documents s) uri d = Some action /\
         changes action = [(uri, [edit])] /\
         edit_range edit = range d /\
         getTextRange doc (range d) = before ++ rparen :: after /\
         ~ In rparen after /\
         newText edit = before ++ space :: rparen :: after /\
         diagnosticsAt (start (range d))
           (Functions.checkFunctionSpaces (applyEdit text edit) uri) = []).
Proof.
  intros H.
  pose (text := str "a" ++ [CR] ++ str "f( x)").
  pose (u := str "file:///t.afl").
  pose (doc := {| uri := u; languageId := str "afl"; content := text |}).
  pose (d := {| severity := Warning; range := Range_create 0 2 0 7;
                message := str "Expected space before ')'"; source := str "afl-lsp" |}).
  destruct (H text u (with_documents (fun _ => [(u, doc)]) initial) doc d
              eq_refl eq_refl ltac:(vm_compute; left; reflexivity) eq_refl)
    as (action & edit & before & after & Hca & _).
  vm_compute in Hca. discriminate Hca.
Qed.

(** C4 (amended).  On a text whose line endings are LF and CR LF, for a
    diagnostic of the rule whose message asks for a space before the
    closing parenthesis, the quick fix is one edit over the range of the
    diagnostic; its new text is the text of that range with one space
    put in before the last closing parenthesis; and once the edit is
    applied to the text that the diagnostic was computed from, the rule
    reports nothing at the place of the diagnostic. *)
Theorem quick_fix_clears_diagnostic :
  forall (text uri : jsstring) (s : State) (doc : TextDocument) (d : Diagnostic),
    JsMap.get uri (documents s) = Some doc ->
    content doc = text ->
    noLoneCR text = true ->
    In d (Functions.checkFunctionSpaces text uri) ->
    includes (str "space before ')'") (message d) = true ->
    exists (action : CodeAction) (edit : TextEdit) (before after : jsstring),
      Server.onCodeAction uri [d] s = [action] /\
      Functions.fixFunctionSapces (documents s) uri d = Some action /\
      changes action = [(uri, [edit])] /\
      edit_range edit = range d /\
      getTextRange doc (range d) = before ++ rparen :: after /\
      ~ In rparen after /\
      newText edit = before ++ space :: rparen :: after /\
      diagnosticsAt (start (range d))
        (Functions.checkFunctionSpaces (applyEdit text edit) uri) = [].
Proof.
  intros text uri s doc d Hdoc Htext Hn Hd Hmsg.
  unfold Functions.checkFunctionSpaces in Hd.
  apply checkLines_in in Hd as (j & l & st & name & Hj & Hskip & Hin & Hd).
  cbn [Nat.add] in Hd. set (line := Functions.scannedLine l) in *.
  destruct (checkCall_before _ _ _ _ _ Hd Hmsg) as (o & c & Ho & Hc & Hb & Hs & He & Hr).
  pose proof (indexOf_found _ _ _ _ Ho) as Hlp.
  pose proof (indexOf_ge _ _ _ _ Ho) as Hge.
  destruct (findCloseParen_found _ _ _ Hlp Hc) as [Hoc Hrp].
  assert (Hlen : c < length line) by (apply nth_error_Some; congruence).
  destruct (skipsLine_false _ _ Hskip) as (Hlc & Hq & Hst).
  destruct (scannedLine_insertAt c l Hq Hlen Hrp) as [Hrpl Hscan].
  assert (Hcl : c < length l) by (apply nth_error_Some; congruence).
  assert (Hpre : slice l st c = slice line st c /\ slice l st (c + 1) = slice line st (c + 1)).
  { destruct (removeLineComment_prefix l) as [rest E].
    unfold line. rewrite (scannedLine_no_dquote l Hq).
    rewrite E at 1 3. unfold line in Hlen. rewrite (scannedLine_no_dquote l Hq) in Hlen.
    split; apply slice_app_l; lia. }
  destruct Hpre as [Hpre Hpre1].
  assert (Hget : getTextRange doc (range d) = slice line st c ++ [rparen]).
  { rewrite Hr, (getTextRange_line doc j l st (c + 1))
      by (rewrite ?Htext; assumption || lia).
    rewrite Hpre1. apply slice_snoc; [exact Hrp | lia]. }
  set (edit := {| edit_range := range d; newText := slice line st c ++ [space; rparen] |}).
  assert (Hfix : Functions.fixFunctionSapces (documents s) uri d =
                 Some {| title := str "Insert space before ')'"; kind := QuickFix;
                         diagnostics := [d]; changes := [(uri, [edit])] |}).
  { unfold Functions.fixFunctionSapces. rewrite Hdoc, Hget, lastIndexOf_snoc.
    cbv zeta. rewrite fix_newText. reflexivity. }
  eexists _, edit, (slice line st c), []. splits.
  - unfold Server.onCodeAction. cbn [flat_map]. rewrite Hmsg, Hfix. reflexivity.
  - exact Hfix.
  - reflexivity.
  - reflexivity.
  - exact Hget.
  - intros [].
  - reflexivity.
  - unfold edit. rewrite Hr, <- Hpre.
    rewrite (applyEdit_fix text j l st c Hn Hj Hrpl) by lia.
    cbn [start Range_create].
    assert (Hlinted : lintedLine (insertAt (lineStart text j + c) space text) j
                        (insertAt c space l)).
    { unfold lintedLine. rewrite (splitLines_insertAt text j l c Hj Hcl).
      split; [now apply (nth_error_replaced _ _ l)|].
      rewrite (commentStateAt_replaced _ _ l) by
        (assumption || (intros b0; now apply commentStep_insertAt)).
      unfold Functions.skipsLine in *.
      rewrite isLineComment_insertAt by exact Hrpl.
      rewrite includes1_insertAt by (lia || discriminate). exact Hskip. }
    rewrite (diagnosticsAt_checkFunctionSpaces _ uri j _ st Hlinted).
    rewrite Hscan. fold line. apply diagnosticsAt_callLoop_nil.
    intros name' Hin'.
    rewrite (callMatches_name_insertAt _ _ line 0 0 st name name' o c Hin Ho Hoc
               ltac:(lia) Hin').
    now apply (checkCall_fixed j line st name o c).
Qed.

Lemma quick_fix_clears_diagnostic_witness :
  let text := str "y = 1;" ++ [CR; LF] ++ str "x = f( a) + 2; // go" in
  let u := str "file:///t.afl" in
  let doc := {| uri := u; languageId := str "afl"; content := text |} in
  let s := with_documents (fun _ => [(u, doc)]) initial in
  let d := {| severity := Warning; range := Range_create 1 4 1 9;
              message := str "Expected space before ')'"; source := str "afl-lsp" |} in
  noLoneCR text = true /\
  In d (Functions.checkFunctionSpaces text u) /\
  exists (action : CodeAction) (edit : TextEdit) (before after : jsstring),
    Server.onCodeAction u [d] s = [action] /\
    Functions.fixFunctionSapces (documents s) u d = Some action /\
    changes action = [(u, [edit])] /\
    edit_range edit = range d /\
    getTextRange doc (range d) = before ++ rparen :: after /\
    ~ In rparen after /\
    newText edit = before ++ space :: rparen :: after /\
    diagnosticsAt (start (range d))
      (Functions.checkFunctionSpaces (applyEdit text edit) u) = [].
Proof.
  intros text u doc s d.
  assert (Hd : In d (Functions.checkFunctionSpaces text u)).
  { vm_compute. left. reflexivity. }
  split; [reflexivity|]. split; [exact Hd|].
  exact (quick_fix_clears_diagnostic text u s doc d eq_refl eq_refl eq_refl Hd eq_refl).
Defined.

(** ** Block comments as the language has them *)

Lemma scanBlockComment_step b c r :
  scanBlockComment b (c :: r) =
  if startsWith (if b then str "*/" else str "/*") (c :: r) then
    match r with
    | _ :: r' => scanBlockComment (negb b) r'
    | [] => b
    end
  else scanBlockComment b r.
Proof. reflexivity. Qed.

Lemma includes_tail p c r : includes p (c :: r) = false -> includes p r = false.
Proof. rewrite includes_cons. intros H. now apply orb_false_iff in H as [_ H]. Qed.

(** Inside a comment, a line without the closing marker leaves the
    comment open; outside, a line without the opening marker opens
    none. *)
Lemma scanBlockComment_unchanged (b : bool) l :
  includes (if b then str "*/" else str "/*") l = false -> scanBlockComment b l = b.
Proof.
  induction l as [|c r IH]; intros H; [reflexivity|].
  rewrite scanBlockComment_step. rewrite includes_cons in H.
  apply orb_false_iff in H as [-> H]. now apply IH.
Qed.

(** A line with one of the two markers only: the comment is open behind
    it when the marker is the opening one, and closed when it is the
    closing one. *)
Lemma scanBlockComment_switch (b : bool) l :
  includes (if b then str "*/" else str "/*") l = true ->
  includes (if b then str "/*" else str "*/") l = false ->
  scanBlockComment b l = negb b.
Proof.
  induction l as [|c r IH]; intros Hy Hn; [destruct b; discriminate Hy|].
  rewrite scanBlockComment_step. rewrite includes_cons in Hy.
  destruct (startsWith (if b then str "*/" else str "/*") (c :: r)) eqn:Es.
  - destruct r as [|d r']; [destruct b; cbn in Es; rewrite andb_false_r in Es; discriminate|].
    apply includes_tail, includes_tail in Hn.
    pose proof (scanBlockComment_unchanged (negb b) r') as Hu.
    destruct b; cbn [negb] in *; now apply Hu.
  - cbn [orb] in Hy. apply IH; [exact Hy | now apply includes_tail in Hn].
Qed.

(** The two updates of the rule's flag for a line agree with the
    reading of the line, unless the line holds both markers and leaves
    a comment open. *)
Lemma commentStep_scanBlockComment b l :
  (includes (str "/*") l = true -> includes (str "*/") l = true ->
   scanBlockComment b l = false) ->
  Functions.commentStep b l = scanBlockComment b l.
Proof.
  intros H. unfold Functions.commentStep.
  destruct (includes (str "/*") l) eqn:Eo, (includes (str "*/") l) eqn:Ec.
  - now rewrite (H eq_refl eq_refl).
  - destruct b.
    + now rewrite (scanBlockComment_unchanged true l Ec).
    + now rewrite (scanBlockComment_switch false l Eo Ec).
  - destruct b.
    + now rewrite (scanBlockComment_switch true l Ec Eo).
    + now rewrite (scanBlockComment_unchanged false l Eo).
  - destruct b.
    + now rewrite (scanBlockComment_unchanged true l Ec).
    + now rewrite (scanBlockComment_unchanged false l Eo).
Qed.

(** As long as no line holds both markers and leaves a comment open,
    the flag of the rule at the head of a line tells whether a comment
    is open there. *)
Lemma commentStateAt_blockCommentOpenAt lines :
  forall k b l,
    nth_error lines k = Some l ->
    (forall i, i < k ->
       lineIncludes (str "/*") lines i = true ->
       lineIncludes (str "*/") lines i = true ->
       blockCommentOpenAt lines (S i) b = false) ->
    commentStateAt lines k b =
    Functions.commentStep (blockCommentOpenAt lines k b) l.
Proof.
  induction lines as [|l0 rest IH]; intros k b l Hk Hs; [destruct k; discriminate|].
  destruct k as [|k].
  - injection Hk as <-. reflexivity.
  - cbn [commentStateAt blockCommentOpenAt]. cbn [nth_error] in Hk.
    assert (E : Functions.commentStep b l0 = scanBlockComment b l0).
    { apply commentStep_scanBlockComment. intros Ho Hc.
      pose proof (Hs 0 ltac:(lia)) as H0. unfold lineIncludes in H0.
      cbn [nth_error blockCommentOpenAt] in H0. exact (H0 Ho Hc). }
    rewrite E. apply (IH k _ l Hk).
    intros i Hi Ho Hc. pose proof (Hs (S i) ltac:(lia)) as H1.
    unfold lineIncludes in *. cbn [nth_error] in H1.
    change (blockCommentOpenAt (l0 :: rest) (S (S i)) b)
      with (blockCommentOpenAt rest (S i) (scanBlockComment b l0)) in H1.
    exact (H1 Ho Hc).
Qed.

(** C6 (as stated, refuted).  A line inside a block comment can be
    linted: in the text below a second block comment is opened on the
    first line, behind the end of another one, and is closed on the
    third line; the call on the second line lies inside it and is
    reported all the same, because the first line holds the closing
    marker too. *)
Lemma block_comment_line_linted :
  ~ (forall (text uri : jsstring) (k : nat) (l : jsstring),
       nth_error (splitLines text) k = Some l ->
       insideBlockComment (splitLines text) k \/
       Functions.isLineComment l = true \/
       includes [dquote] l = true ->
       diagnosticsOnLine k (Functions.checkFunctionSpaces text uri) = []).
Proof.
  intros H.
  specialize (H (str "/* a */ /* b" ++ [LF] ++ str "f(x)" ++ [LF] ++ str "*/") []
                1 (str "f(x)") eq_refl).
  specialize (H ltac:(left; split; reflexivity)).
  vm_compute in H. discriminate H.
Qed.

(** C6 (amended).  A line that lies inside a block comment contributes
    no diagnostic, provided that no line before it holds both markers
    of a block comment and leaves a comment open; a line that is a line
    comment after optional white space and a line that holds a double
    quote contribute no diagnostic in any text, whatever the spacing of
    the calls on the line. *)
Theorem checkFunctionSpaces_skipped_lines :
  forall (text uri : jsstring) (k : nat) (l : jsstring),
    nth_error (splitLines text) k = Some l ->
    (insideBlockComment (splitLines text) k /\ markersSettled (splitLines text) k) \/
    Functions.isLineComment l = true \/
    includes [dquote] l = true ->
    diagnosticsOnLine k (Functions.checkFunctionSpaces text uri) = [].
Proof.
  intros text uri k l Hk Hskip. unfold Functions.checkFunctionSpaces.
  pose proof (diagnosticsOnLine_checkLines (splitLines text) 0 false k l Hk) as H.
  simpl in H. rewrite H.
  assert (Hs : Functions.skipsLine (commentStateAt (splitLines text) k false) l = true).
  { unfold Functions.skipsLine. destruct Hskip as [[[Hopen Hclose] Hset]|[->| ->]];
      rewrite ?orb_true_r; try reflexivity.
    rewrite (commentStateAt_blockCommentOpenAt _ k false l Hk Hset), Hopen.
    unfold lineIncludes in Hclose. rewrite Hk in Hclose.
    unfold Functions.commentStep. rewrite Hclose.
    destruct (includes (str "/*") l); now rewrite !orb_true_r. }
  now rewrite Hs.
Qed.

Lemma checkFunctionSpaces_skipped_lines_witness :
  let text := str "a( 1 ); /* b */" ++ [LF] ++ str "/* f(a)" ++ [LF] ++ str "g(b)" ++ [LF]
              ++ str "*/" ++ [LF] ++ str "  // h(c)" ++ [LF]
              ++ str "k(" ++ [dquote] ++ str "d" ++ [dquote] ++ str ")" in
  (insideBlockComment (splitLines text) 2 /\ markersSettled (splitLines text) 2) /\
  diagnosticsOnLine 2 (Functions.checkFunctionSpaces text []) = [] /\
  diagnosticsOnLine 4 (Functions.checkFunctionSpaces text []) = [] /\
  diagnosticsOnLine 5 (Functions.checkFunctionSpaces text []) = [].
Proof.
  intros text.
  assert (Hin : insideBlockComment (splitLines text) 2 /\ markersSettled (splitLines text) 2).
  { split; [split; reflexivity|].
    intros i Hi Ho Hc. destruct i as [|[|i]]; [reflexivity | discriminate Hc | lia]. }
  split; [exact Hin|]. splits.
  - apply (checkFunctionSpaces_skipped_lines text [] 2 (str "g(b)") eq_refl).
    left. exact Hin.
  - apply (checkFunctionSpaces_skipped_lines text [] 4 (str "  // h(c)") eq_refl).
    right. left. reflexivity.
  - apply (checkFunctionSpaces_skipped_lines text [] 5
             (str "k(" ++ [dquote] ++ str "d" ++ [dquote] ++ str ")") eq_refl).
    right. right. reflexivity.
Defined.

(** ** The symbol indexer and its cache *)

Lemma getAST_parsed parse text s ast :
  parse text = Returns ast ->
  Util.getAST parse text s = (Returns (Some ast), s).
Proof. intros H. unfold Util.getAST, tryCatch, bind, call. now rewrite H. Qed.

Lemma getAST_failed parse text s e :
  parse text = Throws e ->
  exists s', Util.getAST parse text s = (Returns None, s') /\
    astMap s' = astMap s /\ symbolTable s' = symbolTable s /\
    symbolInfoMap s' = symbolInfoMap s /\ documents s' = documents s /\
    documentSettings s' = documentSettings s /\
    updateSymbolTimeout s' = updateSymbolTimeout s /\ timers s' = timers s /\
    nextTimerId s' = nextTimerId s /\ now s' = now s.
Proof.
  intros H. unfold Util.getAST, tryCatch, bind at 1, call. rewrite H. destruct e as [msg].
  eexists. split; [reflexivity|]. simpl. splits; reflexivity.
Qed.

Lemma indexerFrame_refl s : indexerFrame s s.
Proof. unfold indexerFrame. splits; reflexivity. Qed.

Lemma indexerFrame_trans s1 s2 s3 :
  indexerFrame s1 s2 -> indexerFrame s2 s3 -> indexerFrame s1 s3.
Proof.
  unfold indexerFrame. intros (?&?&?&?&?&?&?) (?&?&?&?&?&?&?).
  splits; congruence.
Qed.

Lemma processNodes_eval nodes uri table s :
  exists s',
    SymbolTable.processNodes nodes uri table s =
    (Returns (fold_left
                (fun table node =>
                   fold_left (fun t info => JsMap.set (SymbolTable.si_name info)
                                                      (SymbolTable.si_loc info) t)
                             (SymbolTable.analyzeNode node uri) table)
                nodes table), s') /\
    astMap s' = astMap s /\ indexerFrame s s'.
Proof.
  revert table s. induction nodes as [|node rest IH]; intros table s.
  - exists s. simpl. splits; [reflexivity | reflexivity | apply indexerFrame_refl].
  - cbn [SymbolTable.processNodes]. unfold bind at 1.
    unfold SymbolTable.processNode at 1.
    match goal with |- context [SymbolTable.processNodes rest uri ?t ?st] =>
      destruct (IH t st) as (s' & Heq & Hast & Hframe) end.
    exists s'. split; [exact Heq|]. split; [rewrite Hast; reflexivity|].
    eapply indexerFrame_trans; [|exact Hframe].
    unfold indexerFrame. simpl. splits; reflexivity.
Qed.

Lemma bind_eval {A B : Type} (m : M A) (k : A -> M B) s a s' :
  m s = (Returns a, s') -> bind m k s = k a s'.
Proof. intros H. unfold bind. now rewrite H. Qed.

Lemma index_eval ast uri s :
  exists s',
    match ast with
    | Program _ body => SymbolTable.processNodes body uri JsMap.empty
    | _ => SymbolTable.processNode ast uri JsMap.empty
    end s = (Returns (tableOf ast uri), s') /\
    astMap s' = astMap s /\ indexerFrame s s'.
Proof.
  destruct ast as [loc body| | | |];
    try (eexists; split; [reflexivity|]; split; [reflexivity|];
         unfold indexerFrame; simpl; splits; reflexivity).
  apply processNodes_eval.
Qed.

Lemma cache_and_index_eval ast uri s :
  exists s',
    (modify (with_astMap (JsMap.set uri ast)) ;;
     match ast with
     | Program _ body => SymbolTable.processNodes body uri JsMap.empty
     | _ => SymbolTable.processNode ast uri JsMap.empty
     end) s = (Returns (tableOf ast uri), s') /\
    astMap s' = JsMap.set uri ast (astMap s) /\ indexerFrame s s'.
Proof.
  destruct (index_eval ast uri (with_astMap (JsMap.set uri ast) s)) as (s' & Heq & Hast & Hfr).
  exists s'. split; [|split].
  - erewrite bind_eval by reflexivity. exact Heq.
  - rewrite Hast. reflexivity.
  - eapply indexerFrame_trans; [|exact Hfr]. unfold indexerFrame. simpl. splits; reflexivity.
Qed.

(** What [analyzeText] does, by the tree it ends up with: the cached
    one, a freshly parsed one, or none. *)
Lemma analyzeText_eval (parse : jsstring -> Completion AnyNode) (text uri : jsstring)
    (clearCache : bool) (s : State) :
  let chosen :=
    match JsMap.get uri (astMap s) with
    | Some a =>
        if clearCache
        then match parse text with Returns a' => Some a' | Throws _ => None end
        else Some a
    | None => match parse text with Returns a' => Some a' | Throws _ => None end
    end in
  exists s',
    indexerFrame s s' /\
    match chosen with
    | Some ast =>
        SymbolTable.analyzeText parse text uri clearCache s = (Returns (tableOf ast uri), s') /\
        astMap s' = JsMap.set uri ast (astMap s)
    | None =>
        SymbolTable.analyzeText parse text uri clearCache s = (Returns JsMap.empty, s') /\
        astMap s' = astMap s /\ symbolInfoMap s' = symbolInfoMap s
    end.
Proof.
  intros chosen. unfold SymbolTable.analyzeText.
  erewrite bind_eval by reflexivity.
  assert (Hparse :
    forall reparse : M (option AnyNode), reparse = Util.getAST parse text ->
    exists s',
      indexerFrame s s' /\
      match (match parse text with Returns a' => Some a' | Throws _ => None end) with
      | Some ast =>
          (ast0 <- reparse ;;
           match ast0 with
           | Some ast =>
               modify (with_astMap (JsMap.set uri ast)) ;;
               match ast with
               | Program _ body => SymbolTable.processNodes body uri JsMap.empty
               | _ => SymbolTable.processNode ast uri JsMap.empty
               end
           | None =>
               console_error (str "Failed to parse AST for URI: " ++ uri) ;;
               ret JsMap.empty
           end) s = (Returns (tableOf ast uri), s') /\
          astMap s' = JsMap.set uri ast (astMap s)
      | None =>
          (ast0 <- reparse ;;
           match ast0 with
           | Some ast =>
               modify (with_astMap (JsMap.set uri ast)) ;;
               match ast with
               | Program _ body => SymbolTable.processNodes body uri JsMap.empty
               | _ => SymbolTable.processNode ast uri JsMap.empty
               end
           | None =>
               console_error (str "Failed to parse AST for URI: " ++ uri) ;;
               ret JsMap.empty
           end) s = (Returns JsMap.empty, s') /\
          astMap s' = astMap s /\ symbolInfoMap s' = symbolInfoMap s
      end).
  { intros reparse ->. destruct (parse text) as [ast|e] eqn:Hp.
    - destruct (cache_and_index_eval ast uri s) as (s' & Heq & Hast & Hfr).
      exists s'. split; [exact Hfr|]. split; [|exact Hast].
      erewrite bind_eval by (apply getAST_parsed; exact Hp). exact Heq.
    - destruct (getAST_failed parse text s e Hp)
        as (s1 & Hg & Ha & Hst & Hi & Hd & Hds & Hu & Ht & Hn & Hnow).
      eexists. split; [|split; [|split]].
      2:{ erewrite bind_eval by exact Hg. reflexivity. }
      + unfold indexerFrame. simpl. splits; assumption.
      + simpl. exact Ha.
      + simpl. exact Hi. }
  subst chosen. cbv beta.
  destruct (JsMap.get uri (astMap s)) as [a|] eqn:Hget.
  - destruct clearCache.
    + apply Hparse. reflexivity.
    + destruct (cache_and_index_eval a uri s) as (s' & Heq & Hast & Hfr).
      exists s'. split; [exact Hfr|]. split; [|exact Hast].
      erewrite bind_eval by reflexivity. exact Heq.
  - apply Hparse. reflexivity.
Qed.

(** The analysis always returns to its caller. *)
Lemma analyzeText_returns (parse : jsstring -> Completion AnyNode) (text uri : jsstring)
    (clearCache : bool) (s : State) :
  exists table s',
    SymbolTable.analyzeText parse text uri clearCache s = (Returns table, s') /\
    indexerFrame s s'.
Proof.
  destruct (analyzeText_eval parse text uri clearCache s) as (s' & Hfr & H).
  destruct (match JsMap.get uri (astMap s) with
            | Some a => if clearCache
                        then match parse text with Returns a' => Some a' | Throws _ => None end
                        else Some a
            | None => match parse text with Returns a' => Some a' | Throws _ => None end
            end) as [ast|].
  - destruct H as [H _]. now exists (tableOf ast uri), s'.
  - destruct H as [H _]. now exists JsMap.empty, s'.
Qed.

(** C1 (as stated, refuted).  With a cached tree for the document, a
    forced refresh on text that does not parse does not return the
    table of the cached tree: it returns the empty table. *)
Lemma analyzeText_no_stale_fallback :
  ~ (forall (parse : jsstring -> Completion AnyNode) (text uri : jsstring)
            (s : State) (prev : AnyNode) (e : JsError),
       JsMap.get uri (astMap s) = Some prev ->
       parse text = Throws e ->
       fst (SymbolTable.analyzeText parse text uri true s) = Returns (tableOf prev uri)).
Proof.
  intros H.
  pose (loc := {| l_start := {| p_line := 1%positive; p_column := 0 |};
                  l_end := {| p_line := 1%positive; p_column := 3 |} |}).
  pose (prev := Program None [Identifier (Some loc) (str "foo")]).
  pose (u := str "file:///a.afl").
  specialize (H (fun _ => Throws (SyntaxError (str "Unexpected token")))
                (str "foo = (") u
                (with_astMap (fun _ => [(u, prev)]) initial) prev
                (SyntaxError (str "Unexpected token")) eq_refl eq_refl).
  vm_compute in H. discriminate.
Qed.

(** C1 (amended).  With a cached tree for the document, a forced
    refresh on text that does not parse returns the empty table to the
    caller, without an exception, and leaves the cached tree in place:
    a later analysis without forced refresh returns the table of that
    tree. *)
Theorem analyzeText_forced_refresh_failure :
  forall (parse : jsstring -> Completion AnyNode) (text uri : jsstring)
         (s : State) (prev : AnyNode) (e : JsError),
    JsMap.get uri (astMap s) = Some prev ->
    parse text = Throws e ->
    exists s',
      SymbolTable.analyzeText parse text uri true s = (Returns JsMap.empty, s') /\
      JsMap.get uri (astMap s') = Some prev /\
      astMap s' = astMap s /\
      symbolTable s' = symbolTable s /\
      forall text', exists s'',
        SymbolTable.analyzeText parse text' uri false s' = (Returns (tableOf prev uri), s'').
Proof.
  intros parse text uri s prev e Hget Hparse.
  destruct (analyzeText_eval parse text uri true s) as (s' & Hfr & H).
  rewrite Hget, Hparse in H. destruct H as (Heq & Hast & _).
  exists s'. split; [exact Heq|]. split; [now rewrite Hast|]. split; [exact Hast|].
  split; [apply Hfr|].
  intros text'. destruct (analyzeText_eval parse text' uri false s') as (s'' & _ & H').
  rewrite Hast, Hget in H'. destruct H' as [H' _]. now exists s''.
Qed.

Lemma analyzeText_forced_refresh_failure_witness :
  let parse := fun _ : jsstring => @Throws AnyNode (SyntaxError (str "Unexpected token")) in
  let loc := {| l_start := {| p_line := 1%positive; p_column := 0 |};
                l_end := {| p_line := 1%positive; p_column := 3 |} |} in
  let prev := Program None [Identifier (Some loc) (str "foo")] in
  let u := str "file:///a.afl" in
  let s := with_astMap (fun _ => [(u, prev)]) initial in
  exists s',
    SymbolTable.analyzeText parse (str "foo = (") u true s = (Returns JsMap.empty, s') /\
    JsMap.get u (astMap s') = Some prev /\
    fst (SymbolTable.analyzeText parse (str "foo = (") u false s') =
    Returns [(str "foo", {| loc_uri := u; loc_range := Range_create 0 0 0 3 |})].
Proof.
  intros parse loc prev u s.
  destruct (analyzeText_forced_refresh_failure parse (str "foo = (") u s prev
              (SyntaxError (str "Unexpected token")) eq_refl eq_refl)
    as (s' & Heq & Hget & _ & _ & Hlater).
  exists s'. split; [exact Heq|]. split; [exact Hget|].
  destruct (Hlater (str "foo = (")) as (s'' & Hl). rewrite Hl. reflexivity.
Defined.

(** ** Maps *)

Lemma eqs_eq a b : JsMap.eqs a b = true <-> a = b.
Proof.
  revert b. induction a as [|x a IH]; intros [|y b]; simpl; try easy.
  unfold eqc. rewrite andb_true_iff, Ascii.eqb_eq, IH. split.
  - intros [-> ->]. reflexivity.
  - intros H. injection H as -> ->. split; reflexivity.
Qed.

Lemma keys_set_same {V} k (v : V) m : In k (JsMap.keys (JsMap.set k v m)).
Proof.
  induction m as [|[k' v'] r IH]; simpl; [now left|].
  destruct (JsMap.eqs k k') eqn:E; simpl; [now left | now right].
Qed.

Lemma keys_set_other {V} k k' (v : V) m :
  In k (JsMap.keys m) -> In k (JsMap.keys (JsMap.set k' v m)).
Proof.
  induction m as [|[k0 v0] r IH]; simpl; [contradiction|].
  intros [<-|H].
  - destruct (JsMap.eqs k' k0) eqn:E; simpl.
    + apply eqs_eq in E. now left.
    + now left.
  - destruct (JsMap.eqs k' k0) eqn:E; simpl; [now right | right; now apply IH].
Qed.

Lemma keys_setAll_dst {V} (src dst : JsMap.t V) k :
  In k (JsMap.keys dst) -> In k (JsMap.keys (JsMap.setAll src dst)).
Proof.
  unfold JsMap.setAll. revert dst. induction src as [|[k0 v0] r IH]; intros dst H; simpl.
  - exact H.
  - apply IH. now apply keys_set_other.
Qed.

Lemma keys_setAll_src {V} (src dst : JsMap.t V) k :
  In k (JsMap.keys src) -> In k (JsMap.keys (JsMap.setAll src dst)).
Proof.
  unfold JsMap.setAll. revert dst. induction src as [|[k0 v0] r IH]; intros dst H; simpl in *.
  - contradiction.
  - destruct H as [<-|H].
    + apply (keys_setAll_dst r). apply keys_set_same.
    + now apply IH.
Qed.

(** ** The handlers and the symbol table *)

Lemma updateSymbolsForDocument_eval parse doc clearCache s :
  exists symbols s1,
    SymbolTable.analyzeText parse (getText doc) (uri doc) clearCache s = (Returns symbols, s1) /\
    Server.updateSymbolsForDocument parse doc clearCache s =
    (Returns tt, with_symbolTable (JsMap.setAll symbols) s1) /\
    indexerFrame s s1.
Proof.
  destruct (analyzeText_returns parse (getText doc) (uri doc) clearCache s)
    as (symbols & s1 & Heq & Hfr).
  exists symbols, s1. split; [exact Heq|]. split; [|exact Hfr].
  unfold Server.updateSymbolsForDocument. erewrite bind_eval by exact Heq. reflexivity.
Qed.

Lemma completion_labels s :
  map label (Server.onCompletion s) = JsMap.keys (symbolTable s).
Proof.
  unfold Server.onCompletion, JsMap.keys. rewrite map_map. reflexivity.
Qed.

Lemma updateSymbolsForDocument_keeps parse doc clearCache s :
  exists s',
    Server.updateSymbolsForDocument parse doc clearCache s = (Returns tt, s') /\
    forall name, In name (JsMap.keys (symbolTable s)) ->
                 In name (JsMap.keys (symbolTable s')).
Proof.
  destruct (updateSymbolsForDocument_eval parse doc clearCache s)
    as (symbols & s1 & _ & Hupd & Hfr).
  eexists. split; [exact Hupd|]. intros name Hin. cbn.
  apply keys_setAll_dst. destruct Hfr as [Htab _]. now rewrite Htab.
Qed.

Lemma onDidChangeContent_returns doc s :
  exists s',
    Server.onDidChangeContent doc s = (Returns tt, s') /\
    symbolTable s' = symbolTable s.
Proof.
  unfold Server.onDidChangeContent.
  destruct (JsMap.eqs (languageId doc) (str "afl")); cbn [negb].
  - erewrite bind_eval by reflexivity.
    destruct (updateSymbolTimeout s); eexists; split; reflexivity.
  - eexists. split; reflexivity.
Qed.

Lemma runCallbacks_keep parse (due : list Timer) s :
  exists s',
    forEach (fun t => Server.runCallback parse (callback t)) due s = (Returns tt, s') /\
    forall name, In name (JsMap.keys (symbolTable s)) ->
                 In name (JsMap.keys (symbolTable s')).
Proof.
  revert s. induction due as [|t rest IH]; intros s.
  - exists s. split; [reflexivity | auto].
  - cbn [forEach]. destruct (callback t) as [doc]. cbn [Server.runCallback].
    destruct (updateSymbolsForDocument_keeps parse doc true s) as (s1 & H1 & K1).
    destruct (IH s1) as (s2 & H2 & K2).
    exists s2. split; [|auto]. erewrite bind_eval by exact H1. exact H2.
Qed.

Lemma elapse_keeps parse ms s :
  exists fired s',
    Server.elapse parse ms s = (Returns fired, s') /\
    forall name, In name (JsMap.keys (symbolTable s)) ->
                 In name (JsMap.keys (symbolTable s')).
Proof.
  unfold Server.elapse.
  erewrite bind_eval by reflexivity. erewrite bind_eval by reflexivity.
  erewrite bind_eval by reflexivity.
  set (due := filter _ _). set (st := with_timers _ _).
  destruct (runCallbacks_keep parse due st) as (s1 & H1 & K1).
  exists (map callback due), s1. split.
  - erewrite bind_eval by exact H1. reflexivity.
  - exact K1.
Qed.

(** No handler removes a name from the symbol table. *)
Lemma handle_keeps parse e s :
  exists s',
    handle parse e s = (Returns tt, s') /\
    forall name, In name (JsMap.keys (symbolTable s)) ->
                 In name (JsMap.keys (symbolTable s')).
Proof.
  destruct e as [[doc|doc|doc]|ms]; cbn [handle Server.notify].
  - erewrite bind_eval by reflexivity.
    destruct (updateSymbolsForDocument_keeps parse doc false
                (with_documents (JsMap.set (uri doc) doc) s)) as (s1 & H1 & K1).
    destruct (onDidChangeContent_returns doc s1) as (s2 & H2 & K2).
    exists s2. split.
    + unfold Server.onDidOpen. erewrite bind_eval by exact H1. exact H2.
    + intros name Hin. rewrite K2. apply K1. exact Hin.
  - erewrite bind_eval by reflexivity.
    destruct (onDidChangeContent_returns doc (with_documents (JsMap.set (uri doc) doc) s))
      as (s2 & H2 & K2).
    exists s2. split; [exact H2|]. intros name Hin. rewrite K2. exact Hin.
  - eexists. split; [reflexivity|]. auto.
  - destruct (elapse_keeps parse ms s) as (fired & s1 & H1 & K1).
    exists s1. split; [|exact K1]. erewrite bind_eval by exact H1. reflexivity.
Qed.

Lemma handleAll_keeps parse events s :
  exists s',
    forEach (handle parse) events s = (Returns tt, s') /\
    forall name, In name (JsMap.keys (symbolTable s)) ->
                 In name (JsMap.keys (symbolTable s')).
Proof.
  revert s. induction events as [|e rest IH]; intros s.
  - exists s. split; [reflexivity | auto].
  - destruct (handle_keeps parse e s) as (s1 & H1 & K1).
    destruct (IH s1) as (s2 & H2 & K2).
    exists s2. split; [|auto]. cbn [forEach]. erewrite bind_eval by exact H1. exact H2.
Qed.

(** C8. Closing a document removes nothing from the global symbol
    table: the close handler changes the per-document settings only, the
    completion list is the same after it as before, it still holds
    every name that was indexed from the closed document, and no later
    notification, close notifications included, takes a name out of
    it. *)
Theorem close_keeps_symbols :
  forall (parse : jsstring -> Completion AnyNode),
    (forall (doc : TextDocument) (s : State),
       exists s',
         Server.notify parse (Server.DidClose doc) s = (Returns tt, s') /\
         symbolTable s' = symbolTable s /\
         Server.onCompletion s' = Server.onCompletion s) /\
    (forall (doc : TextDocument) (s : State) (clearCache : bool)
            (symbols : JsMap.t Location) (s1 s2 s3 : State) (name : jsstring),
       SymbolTable.analyzeText parse (getText doc) (uri doc) clearCache s
         = (Returns symbols, s1) ->
       Server.updateSymbolsForDocument parse doc clearCache s = (Returns tt, s2) ->
       Server.notify parse (Server.DidClose doc) s2 = (Returns tt, s3) ->
       In name (JsMap.keys symbols) ->
       In name (map label (Server.onCompletion s3))) /\
    (forall (events : list Event) (s : State),
       exists s',
         forEach (handle parse) events s = (Returns tt, s') /\
         forall name, In name (map label (Server.onCompletion s)) ->
                      In name (map label (Server.onCompletion s'))).
Proof.
  intros parse.
  assert (Hclose : forall doc s, exists s',
         Server.notify parse (Server.DidClose doc) s = (Returns tt, s') /\
         symbolTable s' = symbolTable s /\
         Server.onCompletion s' = Server.onCompletion s).
  { intros doc s. eexists. split; [reflexivity|]. split; reflexivity. }
  split; [exact Hclose|]. split.
  - intros doc s clearCache symbols s1 s2 s3 name Hidx Hupd Hcl Hin.
    destruct (Hclose doc s2) as (s3' & Hcl' & Htab & _). rewrite Hcl in Hcl'.
    injection Hcl' as <-.
    rewrite completion_labels, Htab.
    destruct (updateSymbolsForDocument_eval parse doc clearCache s)
      as (symbols' & s1' & Hidx' & Hupd' & _).
    rewrite Hidx in Hidx'. injection Hidx' as <- <-.
    rewrite Hupd in Hupd'. injection Hupd' as ->. simpl.
    now apply keys_setAll_src.
  - intros events s. destruct (handleAll_keeps parse events s) as (s' & H & K).
    exists s'. split; [exact H|]. intros name. rewrite !completion_labels. apply K.
Qed.

Lemma close_keeps_symbols_witness :
  let loc := {| l_start := {| p_line := 1%positive; p_column := 0 |};
                l_end := {| p_line := 1%positive; p_column := 3 |} |} in
  let parse := fun _ : jsstring => Returns (Program None [Identifier (Some loc) (str "foo")]) in
  let doc := {| uri := str "file:///a.afl"; languageId := str "afl";
                content := str "foo;" |} in
  let s2 := snd (Server.onDidOpen parse doc initial) in
  let s3 := snd (Server.notify parse (Server.DidClose doc) s2) in
  In (str "foo") (map label (Server.onCompletion s3)) /\
  exists s4,
    forEach (handle parse)
      [Notified (Server.DidOpen doc); Elapsed 2000; Notified (Server.DidClose doc)] s3
    = (Returns tt, s4) /\
    In (str "foo") (map label (Server.onCompletion s4)).
Proof.
  intros loc parse doc s2 s3.
  destruct (close_keeps_symbols parse) as (_ & Hidx & Hlater).
  assert (Hin : In (str "foo") (map label (Server.onCompletion s3))).
  { apply (Hidx doc initial false
             [(str "foo", {| loc_uri := str "file:///a.afl";
                             loc_range := Range_create 0 0 0 3 |})]
             (snd (SymbolTable.analyzeText parse (getText doc) (uri doc) false initial))
             s2 s3 (str "foo")).
    - reflexivity.
    - reflexivity.
    - reflexivity.
    - left. reflexivity. }
  split; [exact Hin|].
  destruct (Hlater [Notified (Server.DidOpen doc); Elapsed 2000;
                    Notified (Server.DidClose doc)] s3) as (s4 & Hrun & Hkeep).
  exists s4. split; [exact Hrun | exact (Hkeep _ Hin)].
Defined.

(** ** The debounce timer *)

Lemma tracked_filter_handle s id :
  tracked s -> updateSymbolTimeout s = Some id ->
  filter (fun t => negb (timerId t =? id)) (timers s) = [].
Proof.
  intros Htr Hh. apply filter_none. intros t Ht.
  specialize (Htr t Ht). rewrite Hh in Htr. injection Htr as ->.
  now rewrite Nat.eqb_refl.
Qed.

Lemma tracked_no_handle s :
  tracked s -> updateSymbolTimeout s = None -> timers s = [].
Proof.
  intros Htr Hh. destruct (timers s) as [|t q] eqn:E; [reflexivity|].
  specialize (Htr t). rewrite E, Hh in Htr. discriminate Htr. now left.
Qed.

(** A change of a document with the language id [afl] leaves exactly
    one pending timer: the new one. *)
Lemma onDidChangeContent_afl s doc :
  tracked s -> isAfl doc ->
  exists s',
    Server.onDidChangeContent doc s = (Returns tt, s') /\
    timers s' = [ {| timerId := nextTimerId s; due := now s + 2000;
                     callback := UpdateSymbols doc |} ] /\
    updateSymbolTimeout s' = Some (nextTimerId s) /\
    now s' = now s /\ tracked s'.
Proof.
  intros Htr Hafl. unfold Server.onDidChangeContent. unfold isAfl in Hafl. rewrite Hafl.
  cbn [negb]. erewrite bind_eval by reflexivity.
  destruct (updateSymbolTimeout s) as [id|] eqn:Hh.
  - eexists. split; [reflexivity|]. cbn.
    rewrite (tracked_filter_handle s id Htr Hh). cbn.
    splits; try reflexivity.
    unfold tracked. cbn. rewrite (tracked_filter_handle s id Htr Hh). cbn.
    intros t [<-|[]]. reflexivity.
  - eexists. split; [reflexivity|]. cbn.
    rewrite (tracked_no_handle s Htr Hh). cbn.
    splits; try reflexivity.
    unfold tracked. cbn. rewrite (tracked_no_handle s Htr Hh). cbn.
    intros t [<-|[]]. reflexivity.
Qed.

Lemma onDidChangeContent_other s doc :
  ~ isAfl doc -> Server.onDidChangeContent doc s = (Returns tt, s).
Proof.
  intros Hn. unfold Server.onDidChangeContent, isAfl in *.
  destruct (JsMap.eqs (languageId doc) (str "afl")); [contradiction Hn; reflexivity|].
  reflexivity.
Qed.

(** Time passes and the single pending timer is not due yet. *)
Lemma elapse_early parse ms s t :
  timers s = [t] -> now s + ms < due t ->
  exists s',
    Server.elapse parse ms s = (Returns [], s') /\
    timers s' = [t] /\ updateSymbolTimeout s' = updateSymbolTimeout s /\
    now s' = now s + ms /\ nextTimerId s' = nextTimerId s.
Proof.
  intros Ht Hdue. unfold Server.elapse.
  erewrite bind_eval by reflexivity. erewrite bind_eval by reflexivity.
  cbn [timers with_now now]. rewrite Ht. cbn [filter].
  destruct (Nat.leb_spec (due t) (now s + ms)); [lia|].
  erewrite bind_eval by reflexivity. cbn [forEach].
  erewrite bind_eval by reflexivity.
  eexists. split; [reflexivity|]. cbn. rewrite Ht. cbn.
  destruct (Nat.leb_spec (due t) (now s + ms)); [lia|]. cbn.
  splits; reflexivity.
Qed.

(** Time passes and the single pending timer comes due. *)
Lemma elapse_due parse ms s t doc :
  timers s = [t] -> callback t = UpdateSymbols doc -> due t <= now s + ms ->
  exists s',
    Server.elapse parse ms s = (Returns [UpdateSymbols doc], s') /\
    timers s' = [] /\ updateSymbolTimeout s' = updateSymbolTimeout s.
Proof.
  intros Ht Hcb Hdue. unfold Server.elapse.
  erewrite bind_eval by reflexivity. erewrite bind_eval by reflexivity.
  cbn [timers with_now now]. rewrite Ht. cbn [filter].
  destruct (Nat.leb_spec (due t) (now s + ms)); [|lia].
  erewrite bind_eval by reflexivity. cbn [forEach]. rewrite Hcb.
  cbn [Server.runCallback].
  set (st := with_timers _ (with_now (now s + ms) s)).
  destruct (updateSymbolsForDocument_eval parse doc true st)
    as (symbols & s1 & _ & Hupd & Hfr).
  erewrite bind_eval.
  2:{ erewrite bind_eval by exact Hupd. reflexivity. }
  eexists. split; [cbn [map]; rewrite Hcb; reflexivity|]. cbn.
  destruct Hfr as (_ & _ & _ & Hu & Htm & _ & _). rewrite Hu, Htm.
  subst st. cbn. rewrite Ht. cbn.
  destruct (Nat.leb_spec (due t) (now s + ms)); [|lia]. cbn.
  split; reflexivity.
Qed.

(** The invariant of the timer queue under the handlers. *)
Lemma tracked_subset s s' :
  tracked s -> updateSymbolTimeout s' = updateSymbolTimeout s ->
  (forall t, In t (timers s') -> In t (timers s)) -> tracked s'.
Proof. intros Htr Hh Hsub t Hin. rewrite Hh. apply Htr. now apply Hsub. Qed.

Lemma updateSymbolsForDocument_timers parse doc clearCache s :
  exists s',
    Server.updateSymbolsForDocument parse doc clearCache s = (Returns tt, s') /\
    timers s' = timers s /\ updateSymbolTimeout s' = updateSymbolTimeout s.
Proof.
  destruct (updateSymbolsForDocument_eval parse doc clearCache s)
    as (symbols & s1 & _ & Hupd & (_ & _ & _ & Hu & Ht & _ & _)).
  eexists. split; [exact Hupd|]. split; [exact Ht | exact Hu].
Qed.

Lemma onDidChangeContent_tracked doc s :
  tracked s ->
  exists s', Server.onDidChangeContent doc s = (Returns tt, s') /\ tracked s'.
Proof.
  intros Htr. destruct (JsMap.eqs (languageId doc) (str "afl")) eqn:E.
  - destruct (onDidChangeContent_afl s doc Htr E) as (s' & H & _ & _ & _ & Htr').
    now exists s'.
  - exists s. split; [|exact Htr]. apply onDidChangeContent_other.
    unfold isAfl. rewrite E. discriminate.
Qed.

Lemma runCallbacks_timers parse (fired : list Timer) s :
  exists s',
    forEach (fun t => Server.runCallback parse (callback t)) fired s = (Returns tt, s') /\
    timers s' = timers s /\ updateSymbolTimeout s' = updateSymbolTimeout s.
Proof.
  revert s. induction fired as [|t rest IH]; intros s.
  - exists s. splits; reflexivity.
  - cbn [forEach]. destruct (callback t) as [doc]. cbn [Server.runCallback].
    destruct (updateSymbolsForDocument_timers parse doc true s) as (s1 & H1 & T1 & U1).
    destruct (IH s1) as (s2 & H2 & T2 & U2).
    exists s2. split; [|split; congruence]. erewrite bind_eval by exact H1. exact H2.
Qed.

Lemma elapse_tracked parse ms s :
  tracked s ->
  exists fired s', Server.elapse parse ms s = (Returns fired, s') /\ tracked s'.
Proof.
  intros Htr. unfold Server.elapse.
  erewrite bind_eval by reflexivity. erewrite bind_eval by reflexivity.
  erewrite bind_eval by reflexivity.
  set (fired := filter _ _). set (st := with_timers _ _).
  destruct (runCallbacks_timers parse fired st) as (s1 & H1 & T1 & U1).
  exists (map callback fired), s1. split.
  - erewrite bind_eval by exact H1. reflexivity.
  - apply (tracked_subset s); [exact Htr | rewrite U1; reflexivity|].
    intros t. rewrite T1. subst st. cbn. intros Hin.
    apply filter_In in Hin. apply Hin.
Qed.

Lemma handle_tracked parse e s :
  tracked s ->
  exists s', handle parse e s = (Returns tt, s') /\ tracked s'.
Proof.
  intros Htr. destruct e as [[doc|doc|doc]|ms]; cbn [handle Server.notify].
  - erewrite bind_eval by reflexivity.
    destruct (updateSymbolsForDocument_timers parse doc false
                (with_documents (JsMap.set (uri doc) doc) s)) as (s1 & H1 & T1 & U1).
    assert (Htr1 : tracked s1).
    { apply (tracked_subset s); [exact Htr | exact U1 | intros t; now rewrite T1]. }
    destruct (onDidChangeContent_tracked doc s1 Htr1) as (s2 & H2 & Htr2).
    exists s2. split; [|exact Htr2].
    unfold Server.onDidOpen. erewrite bind_eval by exact H1. exact H2.
  - erewrite bind_eval by reflexivity.
    apply onDidChangeContent_tracked.
    apply (tracked_subset s); [exact Htr | reflexivity | auto].
  - eexists. split; [reflexivity|].
    apply (tracked_subset s); [exact Htr | reflexivity | auto].
  - destruct (elapse_tracked parse ms s Htr) as (fired & s1 & H1 & Htr1).
    exists s1. split; [|exact Htr1]. erewrite bind_eval by exact H1. reflexivity.
Qed.

(** Every state that the server reaches keeps the invariant. *)
Lemma reachable_tracked parse events s :
  tracked s ->
  exists s', forEach (handle parse) events s = (Returns tt, s') /\ tracked s'.
Proof.
  revert s. induction events as [|e rest IH]; intros s Htr.
  - exists s. split; [reflexivity | exact Htr].
  - destruct (handle_tracked parse e s Htr) as (s1 & H1 & Htr1).
    destruct (IH s1 Htr1) as (s2 & H2 & Htr2).
    exists s2. split; [|exact Htr2]. cbn [forEach]. erewrite bind_eval by exact H1. exact H2.
Qed.

Lemma tracked_initial : tracked initial.
Proof. intros t []. Qed.

(** A burst of changes to documents with the language id [afl], each
    less than two seconds after the one before, followed by a last one
    and two seconds of rest, fires one recompute: that of the last
    change. *)
Lemma burst_coalesces parse changes last :
  Forall (fun c => isAfl (fst c) /\ snd c < 2000) changes -> isAfl last ->
  forall s, tracked s ->
  exists s',
    run parse (burst changes ++ [Change last; Wait 2000]) s
      = (Returns [UpdateSymbols last], s') /\
    timers s' = [].
Proof.
  intros Hall Hlast. induction Hall as [|c rest [Hafl Hgap] _ IH]; intros s Htr.
  - cbn [burst flat_map app run].
    destruct (onDidChangeContent_afl s last Htr Hlast) as (s1 & Hch & Ht & Hh & Hnow & Htr1).
    erewrite bind_eval by exact Hch.
    destruct (elapse_due parse 2000 s1 _ last Ht eq_refl) as (s2 & Hel & Ht2 & _).
    { cbn. lia. }
    erewrite bind_eval by exact Hel. erewrite bind_eval by reflexivity.
    exists s2. split; [reflexivity | exact Ht2].
  - cbn [burst flat_map app run] in *.
    destruct (onDidChangeContent_afl s (fst c) Htr Hafl) as (s1 & Hch & Ht & Hh & Hnow & Htr1).
    erewrite bind_eval by exact Hch.
    destruct (elapse_early parse (snd c) s1 _ Ht) as (s2 & Hel & Ht2 & Hh2 & _ & _).
    { cbn. lia. }
    erewrite bind_eval by exact Hel.
    assert (Htr2 : tracked s2).
    { intros t Hin. rewrite Ht2 in Hin. rewrite Hh2. apply Htr1. now rewrite Ht. }
    destruct (IH s2 Htr2) as (s' & Hrun & Hts).
    erewrite bind_eval by exact Hrun.
    exists s'. split; [reflexivity | exact Hts].
Qed.

(** C9 (as stated, refuted).  A pending recompute for one document does
    not survive a change notification for another document. *)
Lemma change_of_other_document_cancels :
  ~ (forall (s : State) (docA docB : TextDocument),
       tracked s -> uri docA <> uri docB ->
       pendingFor (uri docA) s ->
       pendingFor (uri docA) (snd (Server.onDidChangeContent docB s))).
Proof.
  intros H.
  pose (docA := {| uri := str "file:///a.afl"; languageId := str "afl";
                   content := str "x = 1;" |}).
  pose (docB := {| uri := str "file:///b.afl"; languageId := str "afl";
                   content := str "y = 2;" |}).
  specialize (H (snd (Server.onDidChangeContent docA initial)) docA docB).
  destruct H as (t & doc & Hin & Hcb & Huri).
  - intros t [<-|[]]. reflexivity.
  - discriminate.
  - exists {| timerId := 1; due := 2000; callback := UpdateSymbols docA |}, docA.
    split; [left; reflexivity|]. split; reflexivity.
  - cbn in Hin. destruct Hin as [<-|[]]. cbn in Hcb. injection Hcb as <-.
    discriminate Huri.
Qed.

(** C9 (amended).  The server keeps one debounce timer for all
    documents, and in every state that it reaches the only pending
    timer is the one that [updateSymbolTimeout] names.  Every change
    notification for a document with the language id [afl], whichever
    document it is for, cancels the pending recompute and schedules one
    for its own document, two seconds later; a change notification for a
    document of another language leaves the pending recompute as it is.
    So successive change notifications, each less than two seconds after
    the one before, coalesce into a single recompute, that of the latest
    change. *)
Theorem change_notifications_coalesce :
  forall (parse : jsstring -> Completion AnyNode),
    (forall events : list Event,
       exists s, forEach (handle parse) events initial = (Returns tt, s) /\ tracked s) /\
    (forall s : State,
       tracked s ->
       (forall doc, isAfl doc ->
          exists s',
            Server.onDidChangeContent doc s = (Returns tt, s') /\
            timers s' = [ {| timerId := nextTimerId s; due := now s + 2000;
                             callback := UpdateSymbols doc |} ] /\
            tracked s') /\
       (forall doc, ~ isAfl doc -> Server.onDidChangeContent doc s = (Returns tt, s)) /\
       (forall changes last,
          Forall (fun c => isAfl (fst c) /\ snd c < 2000) changes -> isAfl last ->
          exists s',
            run parse (burst changes ++ [Change last; Wait 2000]) s
              = (Returns [UpdateSymbols last], s') /\
            timers s' = [])).
Proof.
  intros parse. split.
  - intros events. apply reachable_tracked. apply tracked_initial.
  - intros s Htr. splits.
    + intros doc Hafl.
      destruct (onDidChangeContent_afl s doc Htr Hafl) as (s' & Hch & Ht & _ & _ & Htr').
      exists s'. splits; assumption.
    + intros doc. apply onDidChangeContent_other.
    + intros changes last Hall Hlast. now apply burst_coalesces.
Qed.

Lemma change_notifications_coalesce_witness :
  let parse := fun _ : jsstring => @Throws AnyNode (SyntaxError (str "Unexpected token")) in
  let docA := {| uri := str "file:///a.afl"; languageId := str "afl";
                 content := str "x = 1;" |} in
  let docB := {| uri := str "file:///b.afl"; languageId := str "afl";
                 content := str "y = 2;" |} in
  let note := {| uri := str "file:///n.txt"; languageId := str "plaintext";
                 content := str "n" |} in
  tracked initial /\
  Server.onDidChangeContent note initial = (Returns tt, initial) /\
  exists s',
    run parse (burst [(docA, 500); (docA, 1999)] ++ [Change docB; Wait 2000]) initial
      = (Returns [UpdateSymbols docB], s') /\
    timers s' = [].
Proof.
  intros parse docA docB note.
  destruct (change_notifications_coalesce parse) as (Hreach & Hstate).
  assert (Htr : tracked initial).
  { destruct (Hreach []) as (s0 & Hrun & Htr). injection Hrun as <-. exact Htr. }
  destruct (Hstate initial Htr) as (_ & Hother & Hburst).
  split; [exact Htr|]. split.
  - apply Hother. unfold isAfl. vm_compute. discriminate.
  - apply Hburst.
    + repeat constructor; cbn; lia.
    + reflexivity.
Defined.

(** ** Lookups in the tables *)

Lemma eqs_refl a : JsMap.eqs a a = true.
Proof. now apply eqs_eq. Qed.

Lemma get_set {V} k k' (v : V) m :
  JsMap.get k (JsMap.set k' v m) = if JsMap.eqs k k' then Some v else JsMap.get k m.
Proof.
  induction m as [|[k0 v0] r IH]; simpl.
  - reflexivity.
  - destruct (JsMap.eqs k' k0) eqn:E.
    + apply eqs_eq in E. subst k0. simpl. now destruct (JsMap.eqs k k').
    + simpl. rewrite IH. destruct (JsMap.eqs k k0) eqn:E0; [|reflexivity].
      apply eqs_eq in E0. subst k0.
      destruct (JsMap.eqs k k') eqn:E1; [|reflexivity].
      apply eqs_eq in E1. subst k'. rewrite eqs_refl in E. discriminate.
Qed.

Lemma get_none {V} k (m : JsMap.t V) :
  JsMap.get k m = None <-> ~ In k (JsMap.keys m).
Proof.
  induction m as [|[k0 v0] r IH]; simpl.
  - tauto.
  - destruct (JsMap.eqs k k0) eqn:E.
    + apply eqs_eq in E. subst. split; [discriminate | intros H; exfalso; auto].
    + rewrite IH. split.
      * intros H [H1|H1]; [subst; rewrite eqs_refl in E; discriminate | auto].
      * intros H H1. auto.
Qed.

Lemma keys_set {V} k (v : V) m :
  (In k (JsMap.keys m) /\ JsMap.keys (JsMap.set k v m) = JsMap.keys m) \/
  (~ In k (JsMap.keys m) /\ JsMap.keys (JsMap.set k v m) = JsMap.keys m ++ [k]).
Proof.
  induction m as [|[k0 v0] r IH]; simpl.
  - right. split; [intros [] | reflexivity].
  - destruct (JsMap.eqs k k0) eqn:E.
    + apply eqs_eq in E. subst k0. left. split; [now left | reflexivity].
    + destruct IH as [[Hi He]|[Hn He]].
      * left. split; [now right|].
        change (k0 :: JsMap.keys (JsMap.set k v r) = k0 :: JsMap.keys r). now rewrite He.
      * right. split.
        -- intros [->|Hi]; [rewrite eqs_refl in E; discriminate | contradiction].
        -- change (k0 :: JsMap.keys (JsMap.set k v r) = k0 :: JsMap.keys r ++ [k]).
           now rewrite He.
Qed.

Lemma NoDup_set {V} k (v : V) m :
  NoDup (JsMap.keys m) -> NoDup (JsMap.keys (JsMap.set k v m)).
Proof.
  intros H. destruct (keys_set k v m) as [[_ ->]|[Hn ->]]; [exact H|].
  apply NoDup_app; [exact H | constructor; [intros [] | constructor] |].
  intros x Hx [<-|[]]. contradiction.
Qed.

Lemma NoDup_setAll {V} (src dst : JsMap.t V) :
  NoDup (JsMap.keys dst) -> NoDup (JsMap.keys (JsMap.setAll src dst)).
Proof.
  unfold JsMap.setAll. revert dst.
  induction src as [|[k v] r IH]; intros dst H; simpl; [exact H|].
  apply IH. now apply NoDup_set.
Qed.

Lemma get_setAll {V} (src dst : JsMap.t V) k :
  NoDup (JsMap.keys src) ->
  JsMap.get k (JsMap.setAll src dst) =
  match JsMap.get k src with
  | Some v => Some v
  | None => JsMap.get k dst
  end.
Proof.
  unfold JsMap.setAll. revert dst.
  induction src as [|[k0 v0] r IH]; intros dst H; simpl; [reflexivity|].
  inversion H as [|? ? Hn Hr]; subst.
  rewrite (IH _ Hr), get_set.
  destruct (JsMap.eqs k k0) eqn:E; [|reflexivity].
  apply eqs_eq in E. subst k0.
  apply get_none in Hn. unfold JsMap.keys in Hn. now rewrite Hn.
Qed.

Lemma set_get_same {V} k (v : V) m : JsMap.get k m = Some v -> JsMap.set k v m = m.
Proof.
  induction m as [|[k0 v0] r IH]; simpl; [discriminate|].
  destruct (JsMap.eqs k k0) eqn:E.
  - apply eqs_eq in E. subst. now intros [= ->].
  - intros H. now rewrite IH.
Qed.

Lemma find_app {A} (f : A -> bool) a b :
  find f (a ++ b) = match find f a with Some x => Some x | None => find f b end.
Proof. induction a as [|x a IH]; simpl; [reflexivity|]. now destruct (f x). Qed.

(** The entry that a run of [set] calls leaves for a name is the one of
    the last symbol of that name. *)
Lemma get_fold_set {V} (g : SymbolTable.SymbolInfo -> V) infos t k :
  JsMap.get k (fold_left (fun t info => JsMap.set (SymbolTable.si_name info) (g info) t)
                         infos t) =
  match lastNamed k infos with
  | Some info => Some (g info)
  | None => JsMap.get k t
  end.
Proof.
  unfold lastNamed. revert t.
  induction infos as [|x r IH]; intros t; simpl; [reflexivity|].
  rewrite IH, find_app, get_set. simpl.
  destruct (find _ (rev r)); [reflexivity|].
  now destruct (JsMap.eqs k (SymbolTable.si_name x)).
Qed.

Lemma lastNamed_in k infos info :
  lastNamed k infos = Some info -> In info infos /\ SymbolTable.si_name info = k.
Proof.
  unfold lastNamed. intros H. apply find_some in H as [H1 H2].
  apply in_rev in H1. apply eqs_eq in H2. now split.
Qed.

Lemma NoDup_fold_set {V} (g : SymbolTable.SymbolInfo -> V) infos t :
  NoDup (JsMap.keys t) ->
  NoDup (JsMap.keys (fold_left (fun t info => JsMap.set (SymbolTable.si_name info) (g info) t)
                               infos t)).
Proof.
  revert t. induction infos as [|x r IH]; intros t H; simpl; [exact H|].
  apply IH. now apply NoDup_set.
Qed.

Lemma fold_left_flat_map {A B C} (f : A -> B -> A) (h : C -> list B) l a :
  fold_left (fun t n => fold_left f (h n) t) l a = fold_left f (flat_map h l) a.
Proof.
  revert a. induction l as [|x r IH]; intros a; simpl; [reflexivity|].
  now rewrite fold_left_app, IH.
Qed.

Lemma tableOf_symbolsOf ast uri :
  tableOf ast uri =
  fold_left (fun t info => JsMap.set (SymbolTable.si_name info) (SymbolTable.si_loc info) t)
            (symbolsOf ast uri) JsMap.empty.
Proof. unfold tableOf, symbolsOf. apply fold_left_flat_map. Qed.

Lemma NoDup_tableOf ast uri : NoDup (JsMap.keys (tableOf ast uri)).
Proof. rewrite tableOf_symbolsOf. apply NoDup_fold_set. constructor. Qed.

Lemma get_tableOf ast uri k :
  JsMap.get k (tableOf ast uri) =
  option_map SymbolTable.si_loc (lastNamed k (symbolsOf ast uri)).
Proof.
  rewrite tableOf_symbolsOf, get_fold_set. now destruct (lastNamed k _).
Qed.

(** ** What the indexer stores *)

(** Every symbol that [analyzeNode] reads off a tree lies in the
    analysed document, and its info names the line of its location,
    counted from 1. *)
Lemma analyzeNode_shape uri :
  forall node info,
    In info (SymbolTable.analyzeNode node uri) ->
    loc_uri (SymbolTable.si_loc info) = uri /\
    SymbolTable.si_info info =
      str "Identifier used at line "
      ++ SymbolTable.decimal (S (line (start (loc_range (SymbolTable.si_loc info))))).
Proof.
  fix IH 1. intros node info.
  destruct node as [loc body|loc id params body|loc decls|loc name|loc].
  - intros [].
  - cbn [SymbolTable.analyzeNode].
    destruct id as [identifier|]; [|intros []].
    destruct loc as [loc|]; [|intros []].
    destruct (SymbolTable.isIdentifierNode identifier); [|intros []].
    rewrite !in_app_iff. intros [H|[H|H]].
    + exact (IH identifier info H).
    + destruct body as [stmts|]; [|destruct H].
      induction stmts as [|child rest IHl]; [destruct H|].
      cbn [flat_map] in H. apply in_app_iff in H as [H|H].
      * exact (IH child info H).
      * exact (IHl H).
    + induction params as [|param rest IHl]; [destruct H|].
      cbn [flat_map] in H. apply in_app_iff in H as [H|H].
      * exact (IH param info H).
      * exact (IHl H).
  - cbn [SymbolTable.analyzeNode]. intros H.
    induction decls as [|decl rest IHl]; [destruct H|].
    cbn [flat_map] in H. apply in_app_iff in H as [H|H].
    + exact (IH decl info H).
    + exact (IHl H).
  - cbn [SymbolTable.analyzeNode]. destruct loc as [loc|]; [|intros []].
    intros [<-|[]]. split; [reflexivity|].
    unfold Range_create.
    cbn [SymbolTable.si_info SymbolTable.si_loc loc_range start Lsp.line].
    do 2 f_equal. pose proof (Pos2Nat.is_pos (p_line (l_start loc))). lia.
  - intros [].
Qed.

Lemma symbolsOf_shape ast uri info :
  In info (symbolsOf ast uri) ->
  loc_uri (SymbolTable.si_loc info) = uri /\
  SymbolTable.si_info info =
    str "Identifier used at line "
    ++ SymbolTable.decimal (S (line (start (loc_range (SymbolTable.si_loc info))))).
Proof.
  unfold symbolsOf. intros H. apply in_flat_map in H as (node & _ & H).
  exact (analyzeNode_shape uri node info H).
Qed.

Lemma processNodes_info nodes uri table s :
  exists s',
    SymbolTable.processNodes nodes uri table s =
    (Returns (fold_left
                (fun table node =>
                   fold_left (fun t info => JsMap.set (SymbolTable.si_name info)
                                                      (SymbolTable.si_loc info) t)
                             (SymbolTable.analyzeNode node uri) table)
                nodes table), s') /\
    symbolInfoMap s' =
      fold_left (fun m info => JsMap.set (SymbolTable.si_name info) (SymbolTable.si_info info) m)
                (flat_map (fun node => SymbolTable.analyzeNode node uri) nodes)
                (symbolInfoMap s) /\
    astMap s' = astMap s /\ console s' = console s /\ indexerFrame s s'.
Proof.
  revert table s. induction nodes as [|node rest IH]; intros table s.
  - exists s. simpl. splits; try reflexivity. apply indexerFrame_refl.
  - cbn [SymbolTable.processNodes]. unfold bind at 1.
    unfold SymbolTable.processNode at 1.
    match goal with |- context [SymbolTable.processNodes rest uri ?t ?st] =>
      destruct (IH t st) as (s' & Heq & Hinfo & Hast & Hcon & Hframe) end.
    exists s'. split; [exact Heq|]. splits.
    + rewrite Hinfo. cbn [flat_map]. rewrite fold_left_app. reflexivity.
    + rewrite Hast. reflexivity.
    + rewrite Hcon. reflexivity.
    + eapply indexerFrame_trans; [|exact Hframe].
      unfold indexerFrame. simpl. splits; reflexivity.
Qed.

(** What [analyzeText] does once it has a tree, be it the cached one or
    a freshly parsed one. *)
Lemma analyzeText_with (parse : jsstring -> Completion AnyNode) (text uri : jsstring)
    (clearCache : bool) (s : State) (ast : AnyNode) :
  (JsMap.get uri (astMap s) = Some ast /\ clearCache = false) \/
  ((JsMap.get uri (astMap s) = None \/ clearCache = true) /\ parse text = Returns ast) ->
  exists s',
    SymbolTable.analyzeText parse text uri clearCache s = (Returns (tableOf ast uri), s') /\
    symbolInfoMap s' =
      fold_left (fun m info => JsMap.set (SymbolTable.si_name info) (SymbolTable.si_info info) m)
                (symbolsOf ast uri) (symbolInfoMap s) /\
    astMap s' = JsMap.set uri ast (astMap s) /\ console s' = console s /\
    indexerFrame s s'.
Proof.
  intros Hcase. unfold SymbolTable.analyzeText.
  erewrite bind_eval by reflexivity.
  erewrite bind_eval with (a := Some ast) (s' := s).
  2:{ destruct Hcase as [[-> ->]|[Hc Hp]]; [reflexivity|].
      destruct Hc as [-> | ->].
      - now apply getAST_parsed.
      - destruct (JsMap.get uri (astMap s)); now apply getAST_parsed. }
  erewrite bind_eval by reflexivity.
  destruct ast as [loc body| | | |];
    try (eexists; split; [reflexivity|]; cbn; rewrite ?app_nil_r;
         splits; try reflexivity; unfold indexerFrame; simpl; splits; reflexivity).
  destruct (processNodes_info body uri JsMap.empty (with_astMap (JsMap.set uri (Program loc body)) s))
    as (s' & Heq & Hinfo & Hast & Hcon & Hframe).
  exists s'. split; [exact Heq|]. splits.
  - exact Hinfo.
  - rewrite Hast. reflexivity.
  - rewrite Hcon. reflexivity.
  - eapply indexerFrame_trans; [|exact Hframe].
    unfold indexerFrame. simpl. splits; reflexivity.
Qed.

(** The tree that a call of [analyzeText] ends up with, if any. *)
Lemma analyzeText_cases (parse : jsstring -> Completion AnyNode) (text uri : jsstring)
    (clearCache : bool) (s : State) (table : JsMap.t Location) (s' : State) :
  SymbolTable.analyzeText parse text uri clearCache s = (Returns table, s') ->
  (table = JsMap.empty /\ symbolInfoMap s' = symbolInfoMap s) \/
  exists ast,
    table = tableOf ast uri /\
    symbolInfoMap s' =
      fold_left (fun m info => JsMap.set (SymbolTable.si_name info) (SymbolTable.si_info info) m)
                (symbolsOf ast uri) (symbolInfoMap s).
Proof.
  intros Hrun.
  assert (Hfresh : JsMap.get uri (astMap s) = None \/ clearCache = true ->
            (table = JsMap.empty /\ symbolInfoMap s' = symbolInfoMap s) \/
            exists ast,
              table = tableOf ast uri /\
              symbolInfoMap s' =
                fold_left (fun m info => JsMap.set (SymbolTable.si_name info)
                                                   (SymbolTable.si_info info) m)
                          (symbolsOf ast uri) (symbolInfoMap s)).
  { intros Hc. destruct (parse text) as [ast|e] eqn:Hp.
    - right. exists ast.
      destruct (analyzeText_with parse text uri clearCache s ast (or_intror (conj Hc Hp)))
        as (s1 & Heq & Hinfo & _).
      rewrite Heq in Hrun. injection Hrun as <- <-. now split.
    - left. pose proof (analyzeText_eval parse text uri clearCache s) as He.
      cbv zeta in He. rewrite Hp in He.
      destruct He as (s1 & _ & He).
      destruct Hc as [Hc|Hc].
      + rewrite Hc in He. destruct He as (Heq & _ & Hinfo). rewrite Heq in Hrun.
        injection Hrun as <- <-. now split.
      + subst clearCache.
        destruct (JsMap.get uri (astMap s)); destruct He as (Heq & _ & Hinfo);
          rewrite Heq in Hrun; injection Hrun as <- <-; now split. }
  destruct (JsMap.get uri (astMap s)) as [a|] eqn:Hget; [|now apply Hfresh; left].
  destruct clearCache; [now apply Hfresh; right|].
  right. exists a.
  destruct (analyzeText_with parse text uri false s a (or_introl (conj Hget eq_refl)))
    as (s1 & Heq & Hinfo & _).
  rewrite Heq in Hrun. injection Hrun as <- <-. now split.
Qed.

(** The entries for a name after an analysis that lists the name: the
    symbol table and the info map hold the location and the info of the
    same symbol. *)
Lemma analyzeText_entry (parse : jsstring -> Completion AnyNode) (text uri : jsstring)
    (clearCache : bool) (s : State) (table : JsMap.t Location) (s' : State)
    (name : jsstring) (loc : Location) :
  SymbolTable.analyzeText parse text uri clearCache s = (Returns table, s') ->
  JsMap.get name table = Some loc ->
  loc_uri loc = uri /\
  SymbolTable.getSymbolInfo name s' =
    Some (str "Identifier used at line "
          ++ SymbolTable.decimal (S (line (start (loc_range loc))))) /\
  NoDup (JsMap.keys table).
Proof.
  intros Hrun Hget.
  destruct (analyzeText_cases _ _ _ _ _ _ _ Hrun) as [[-> _]|(ast & -> & Hinfo)];
    [discriminate|].
  rewrite get_tableOf in Hget.
  destruct (lastNamed name (symbolsOf ast uri)) as [info|] eqn:Hlast; [|discriminate].
  injection Hget as <-.
  destruct (lastNamed_in _ _ _ Hlast) as [Hin _].
  destruct (symbolsOf_shape _ _ _ Hin) as [Huri Htext].
  splits; [exact Huri | | apply NoDup_tableOf].
  unfold SymbolTable.getSymbolInfo. rewrite Hinfo, get_fold_set, Hlast, Htext.
  reflexivity.
Qed.

(** ** The states that the server reaches *)

Lemma updateSymbolsForDocument_tables parse doc clearCache s s' :
  Server.updateSymbolsForDocument parse doc clearCache s = (Returns tt, s') ->
  exists symbols s1,
    SymbolTable.analyzeText parse (getText doc) (uri doc) clearCache s = (Returns symbols, s1) /\
    symbolTable s' = JsMap.setAll symbols (symbolTable s) /\
    symbolInfoMap s' = symbolInfoMap s1 /\ documents s' = documents s.
Proof.
  intros H.
  destruct (updateSymbolsForDocument_eval parse doc clearCache s)
    as (symbols & s1 & Ha & Hu & Hfr).
  rewrite Hu in H. injection H as <-. exists symbols, s1.
  destruct Hfr as (Ht & Hd & _). cbn. rewrite Ht, Hd. auto.
Qed.

Lemma onDidChangeContent_tables doc s :
  exists s',
    Server.onDidChangeContent doc s = (Returns tt, s') /\
    symbolTable s' = symbolTable s /\ symbolInfoMap s' = symbolInfoMap s.
Proof.
  unfold Server.onDidChangeContent.
  destruct (JsMap.eqs (languageId doc) (str "afl")); cbn [negb].
  - erewrite bind_eval by reflexivity.
    destruct (updateSymbolTimeout s); eexists; split; try split; reflexivity.
  - eexists. split; [|split]; reflexivity.
Qed.

Section Invariant.

Variable parse : jsstring -> Completion AnyNode.

(** A property of the two symbol maps that every recompute keeps. *)
Variable Inv : JsMap.t Location -> JsMap.t jsstring -> Prop.

Hypothesis Inv_update :
  forall doc clearCache s s',
    Server.updateSymbolsForDocument parse doc clearCache s = (Returns tt, s') ->
    Inv (symbolTable s) (symbolInfoMap s) -> Inv (symbolTable s') (symbolInfoMap s').

Lemma updateSymbolsForDocument_inv doc clearCache s :
  Inv (symbolTable s) (symbolInfoMap s) ->
  exists s',
    Server.updateSymbolsForDocument parse doc clearCache s = (Returns tt, s') /\
    Inv (symbolTable s') (symbolInfoMap s').
Proof.
  intros H.
  destruct (updateSymbolsForDocument_eval parse doc clearCache s) as (symbols & s1 & _ & Hu & _).
  eexists. split; [exact Hu|]. exact (Inv_update _ _ _ _ Hu H).
Qed.

Lemma runCallbacks_inv (fired : list Timer) s :
  Inv (symbolTable s) (symbolInfoMap s) ->
  exists s',
    forEach (fun t => Server.runCallback parse (callback t)) fired s = (Returns tt, s') /\
    Inv (symbolTable s') (symbolInfoMap s').
Proof.
  revert s. induction fired as [|t rest IH]; intros s H.
  - exists s. split; [reflexivity | exact H].
  - cbn [forEach]. destruct (callback t) as [doc]. cbn [Server.runCallback].
    destruct (updateSymbolsForDocument_inv doc true s H) as (s1 & H1 & K1).
    destruct (IH s1 K1) as (s2 & H2 & K2).
    exists s2. split; [|exact K2]. erewrite bind_eval by exact H1. exact H2.
Qed.

Lemma elapse_inv ms s :
  Inv (symbolTable s) (symbolInfoMap s) ->
  exists fired s',
    Server.elapse parse ms s = (Returns fired, s') /\
    Inv (symbolTable s') (symbolInfoMap s').
Proof.
  intros H. unfold Server.elapse.
  erewrite bind_eval by reflexivity. erewrite bind_eval by reflexivity.
  erewrite bind_eval by reflexivity.
  set (due := filter _ _). set (st := with_timers _ _).
  destruct (runCallbacks_inv due st H) as (s1 & H1 & K1).
  exists (map callback due), s1. split; [|exact K1].
  erewrite bind_eval by exact H1. reflexivity.
Qed.

Lemma handle_inv e s :
  Inv (symbolTable s) (symbolInfoMap s) ->
  exists s', handle parse e s = (Returns tt, s') /\ Inv (symbolTable s') (symbolInfoMap s').
Proof.
  intros H. destruct e as [[doc|doc|doc]|ms]; cbn [handle Server.notify].
  - erewrite bind_eval by reflexivity.
    destruct (updateSymbolsForDocument_inv doc false
                (with_documents (JsMap.set (uri doc) doc) s) H) as (s1 & H1 & K1).
    destruct (onDidChangeContent_tables doc s1) as (s2 & H2 & Ht & Hi).
    exists s2. split.
    + unfold Server.onDidOpen. erewrite bind_eval by exact H1. exact H2.
    + now rewrite Ht, Hi.
  - erewrite bind_eval by reflexivity.
    destruct (onDidChangeContent_tables doc (with_documents (JsMap.set (uri doc) doc) s))
      as (s2 & H2 & Ht & Hi).
    exists s2. split; [exact H2|]. now rewrite Ht, Hi.
  - eexists. split; [reflexivity | exact H].
  - destruct (elapse_inv ms s H) as (fired & s1 & H1 & K1).
    exists s1. split; [|exact K1]. erewrite bind_eval by exact H1. reflexivity.
Qed.

Lemma handleAll_inv events s s' :
  Inv (symbolTable s) (symbolInfoMap s) ->
  forEach (handle parse) events s = (Returns tt, s') ->
  Inv (symbolTable s') (symbolInfoMap s').
Proof.
  revert s. induction events as [|e rest IH]; intros s H Hrun.
  - injection Hrun as <-. exact H.
  - destruct (handle_inv e s H) as (s1 & H1 & K1).
    cbn [forEach] in Hrun. erewrite bind_eval in Hrun by exact H1.
    exact (IH s1 K1 Hrun).
Qed.

Lemma reachable_inv s :
  Inv JsMap.empty JsMap.empty -> reachable parse s -> Inv (symbolTable s) (symbolInfoMap s).
Proof. intros H0 [events Hrun]. exact (handleAll_inv events initial s H0 Hrun). Qed.

End Invariant.

Lemma updateSymbolsForDocument_NoDup parse doc clearCache s s' :
  Server.updateSymbolsForDocument parse doc clearCache s = (Returns tt, s') ->
  NoDup (JsMap.keys (symbolTable s)) -> NoDup (JsMap.keys (symbolTable s')).
Proof.
  intros Hu H.
  destruct (updateSymbolsForDocument_tables _ _ _ _ _ Hu) as (symbols & s1 & _ & Ht & _).
  rewrite Ht. now apply NoDup_setAll.
Qed.

Lemma setAll_empty {V} (dst : JsMap.t V) : JsMap.setAll JsMap.empty dst = dst.
Proof. reflexivity. Qed.

Lemma updateSymbolsForDocument_inSync parse doc clearCache s s' :
  Server.updateSymbolsForDocument parse doc clearCache s = (Returns tt, s') ->
  inSync s -> inSync s'.
Proof.
  intros Hu H.
  destruct (updateSymbolsForDocument_tables _ _ _ _ _ Hu) as (symbols & s1 & Ha & Ht & Hi & _).
  intros name. rewrite Ht, Hi.
  destruct (analyzeText_cases _ _ _ _ _ _ _ Ha) as [[-> ->]|(ast & -> & ->)].
  - rewrite setAll_empty. apply H.
  - rewrite get_fold_set, (get_setAll _ _ _ (NoDup_tableOf ast (uri doc))), get_tableOf.
    destruct (lastNamed name (symbolsOf ast (uri doc))) as [info|] eqn:Hlast; cbn [option_map].
    + destruct (lastNamed_in _ _ _ Hlast) as [Hin _].
      destruct (symbolsOf_shape _ _ _ Hin) as [_ ->]. reflexivity.
    + apply H.
Qed.

Lemma reachable_NoDup parse s :
  reachable parse s -> NoDup (JsMap.keys (symbolTable s)).
Proof.
  intros H.
  refine (reachable_inv parse (fun t _ => NoDup (JsMap.keys t)) _ s _ H); [|constructor].
  intros doc cc s0 s1 Hu. exact (updateSymbolsForDocument_NoDup _ _ _ _ _ Hu).
Qed.

Lemma reachable_inSync parse s : reachable parse s -> inSync s.
Proof.
  intros H.
  refine (reachable_inv parse
           (fun t m => forall name,
              JsMap.get name m =
              option_map
                (fun loc => str "Identifier used at line "
                            ++ SymbolTable.decimal (S (line (start (loc_range loc)))))
                (JsMap.get name t)) _ s _ H).
  - intros doc cc s0 s1 Hu. exact (updateSymbolsForDocument_inSync _ _ _ _ _ Hu).
  - intros name. reflexivity.
Qed.

(** ** The requests for a position *)

Lemma slice_nonempty line st e :
  st < e -> e <= length line -> exists c r, slice line st e = c :: r.
Proof.
  intros H1 H2. pose proof (slice_length line st e H2) as Hl.
  destruct (slice line st e) as [|c r]; [simpl in Hl; lia | eauto].
Qed.

Lemma getWordAtPosition_hit line st e c :
  maximal_run line st e -> (Z.of_nat st <= c <= Z.of_nat e)%Z ->
  SymbolTable.getWordAtPosition line c = Some (slice line st e).
Proof.
  intros Hrun Hc. unfold SymbolTable.getWordAtPosition.
  apply wordLoop_hit; [exact Hrun | lia | lia | exact Hc].
Qed.

Lemma getWordAtPosition_some line c w :
  SymbolTable.getWordAtPosition line c = Some w ->
  exists st e, maximal_run line st e /\ (Z.of_nat st <= c <= Z.of_nat e)%Z /\
               w = slice line st e.
Proof.
  unfold SymbolTable.getWordAtPosition. apply wordLoop_some; [now left | lia].
Qed.

Lemma getWordAtPosition_miss line c :
  (forall st e, maximal_run line st e -> ~ (Z.of_nat st <= c <= Z.of_nat e)%Z) ->
  SymbolTable.getWordAtPosition line c = None.
Proof.
  intros H. destruct (SymbolTable.getWordAtPosition line c) as [w|] eqn:E; [|reflexivity].
  destruct (getWordAtPosition_some _ _ _ E) as (st & e & Hrun & Hc & _).
  exfalso. exact (H st e Hrun Hc).
Qed.

Lemma lineAt_some lines n l : nth_error lines n = Some l -> Server.lineAt lines n = l.
Proof. unfold Server.lineAt. now intros ->. Qed.

Lemma lineAt_none lines n : length lines <= n -> Server.lineAt lines n = str "undefined".
Proof. unfold Server.lineAt. intros H. apply nth_error_None in H. now rewrite H. Qed.

Lemma maximal_run_undefined : maximal_run (str "undefined") 0 9.
Proof.
  split.
  - unfold identifier_at. splits; [lia | simpl; lia | reflexivity].
  - intros s' e' (H1 & H2 & _) Hs He. simpl in H2. lia.
Qed.

(** ** Properties of the symbol index and of the requests that read it *)

(** X1. Every entry of the table that [analyzeText] returns lies in the
    analysed document: its location carries the uri that was passed in.
    After the call the info map holds, for the name of the entry, the
    text [Identifier used at line N], where N is the line of that
    location counted from 1. *)
Theorem analyzeText_entries_in_document :
  forall (parse : jsstring -> Completion AnyNode) (text uri : jsstring)
         (clearCache : bool) (s s' : State) (table : JsMap.t Location)
         (name : jsstring) (loc : Location),
    SymbolTable.analyzeText parse text uri clearCache s = (Returns table, s') ->
    JsMap.get name table = Some loc ->
    loc_uri loc = uri /\
    SymbolTable.getSymbolInfo name s' =
      Some (str "Identifier used at line "
            ++ SymbolTable.decimal (S (line (start (loc_range loc))))).
Proof.
  intros parse text uri clearCache s s' table name loc Hrun Hget.
  destruct (analyzeText_entry _ _ _ _ _ _ _ _ _ Hrun Hget) as (H1 & H2 & _).
  now split.
Qed.

Lemma analyzeText_entries_in_document_witness :
  let pos := fun l c => {| p_line := l; p_column := c |} in
  let f := Identifier (Some {| l_start := pos 3%positive 9; l_end := pos 3%positive 12 |})
             (str "sma") in
  let x := Identifier (Some {| l_start := pos 12%positive 0; l_end := pos 12%positive 3 |})
             (str "sma") in
  let tree := Program None
                [FunctionDeclaration (Some {| l_start := pos 3%positive 0;
                                              l_end := pos 5%positive 1 |})
                   (Some f) [] (Some []);
                 VariableDeclaration None [x]] in
  let parse := fun _ : jsstring => Returns tree in
  let u := str "file:///a.afl" in
  let loc := {| loc_uri := u; loc_range := Range_create 11 0 11 3 |} in
  let run := SymbolTable.analyzeText parse [] u false initial in
  fst run = Returns [(str "sma", loc)] /\
  loc_uri loc = u /\
  SymbolTable.getSymbolInfo (str "sma") (snd run) = Some (str "Identifier used at line 12").
Proof.
  intros pos f x tree parse u loc run.
  split; [reflexivity|].
  exact (analyzeText_entries_in_document parse [] u false initial (snd run)
           [(str "sma", loc)] (str "sma") loc eq_refl eq_refl).
Defined.

(** X2. Once a tree is cached for a document, an analysis without
    forced refresh reads neither the text nor the parser: it returns the
    table of the cached tree and leaves the cache and the console as
    they were, whatever text it is given.  So the open handler indexes a
    document whose tree is cached from the cached tree, also when the
    document arrives with another text. *)
Theorem analyzeText_cached_ignores_text :
  forall (parse parse' : jsstring -> Completion AnyNode) (text text' uri : jsstring)
         (s : State) (cached : AnyNode),
    JsMap.get uri (astMap s) = Some cached ->
    (exists s',
       SymbolTable.analyzeText parse text uri false s = (Returns (tableOf cached uri), s') /\
       astMap s' = astMap s /\ console s' = console s) /\
    SymbolTable.analyzeText parse' text' uri false s =
    SymbolTable.analyzeText parse text uri false s /\
    (forall doc doc' : TextDocument,
       uri = Lsp.uri doc -> Lsp.uri doc' = Lsp.uri doc ->
       Server.onDidOpen parse' doc' s = Server.onDidOpen parse doc s).
Proof.
  intros parse parse' text text' uri s cached Hget.
  assert (Hsame : forall p p' t t',
            SymbolTable.analyzeText p' t' uri false s = SymbolTable.analyzeText p t uri false s).
  { intros p p' t t'. unfold SymbolTable.analyzeText.
    erewrite bind_eval by reflexivity. symmetry. erewrite bind_eval by reflexivity.
    cbv beta. rewrite Hget. reflexivity. }
  splits.
  - destruct (analyzeText_with parse text uri false s cached (or_introl (conj Hget eq_refl)))
      as (s' & Heq & _ & Hast & Hcon & _).
    exists s'. splits; [exact Heq | | exact Hcon].
    rewrite Hast. now apply set_get_same.
  - apply Hsame.
  - intros doc doc' -> Hu.
    unfold Server.onDidOpen, Server.updateSymbolsForDocument.
    rewrite Hu. unfold bind. now rewrite (Hsame parse parse' (getText doc) (getText doc')).
Qed.

Lemma analyzeText_cached_ignores_text_witness :
  let loc := {| l_start := {| p_line := 1%positive; p_column := 0 |};
                l_end := {| p_line := 1%positive; p_column := 3 |} |} in
  let parse := fun _ : jsstring => Returns (Program None [Identifier (Some loc) (str "foo")]) in
  let failing := fun _ : jsstring => @Throws AnyNode (SyntaxError (str "Unexpected token")) in
  let u := str "file:///a.afl" in
  let doc := {| uri := u; languageId := str "afl"; content := str "foo;" |} in
  let doc' := {| uri := u; languageId := str "afl"; content := str "bar = (" |} in
  let s := snd (Server.onDidOpen parse doc initial) in
  JsMap.get u (astMap s) = Some (Program None [Identifier (Some loc) (str "foo")]) /\
  Server.onDidOpen failing doc' s = Server.onDidOpen parse doc s /\
  JsMap.keys (symbolTable (snd (Server.onDidOpen failing doc' s))) = [str "foo"].
Proof.
  intros loc parse failing u doc doc' s.
  split; [reflexivity|]. split; [|reflexivity].
  exact (proj2 (proj2 (analyzeText_cached_ignores_text parse failing (str "foo;")
                         (str "bar = (") u s _ eq_refl)) doc doc' eq_refl eq_refl).
Defined.

(** X3. After [updateSymbolsForDocument] the global symbol table answers
    a lookup with the entry of the freshly analysed document for every
    name that the document defines, and that entry lies in the document;
    for every other name the answer is the one from before. *)
Theorem updateSymbolsForDocument_lookup :
  forall (parse : jsstring -> Completion AnyNode) (doc : TextDocument) (clearCache : bool)
         (s s1 : State) (symbols : JsMap.t Location),
    SymbolTable.analyzeText parse (getText doc) (uri doc) clearCache s
      = (Returns symbols, s1) ->
    exists s',
      Server.updateSymbolsForDocument parse doc clearCache s = (Returns tt, s') /\
      forall name,
        match JsMap.get name symbols with
        | Some loc =>
            JsMap.get name (symbolTable s') = Some loc /\ loc_uri loc = uri doc
        | None => JsMap.get name (symbolTable s') = JsMap.get name (symbolTable s)
        end.
Proof.
  intros parse doc clearCache s s1 symbols Ha.
  destruct (updateSymbolsForDocument_eval parse doc clearCache s)
    as (symbols' & s1' & Ha' & Hu & Hfr).
  rewrite Ha in Ha'. injection Ha' as <- <-.
  eexists. split; [exact Hu|]. intros name. cbn [symbolTable with_symbolTable].
  destruct Hfr as [Ht _]. rewrite Ht.
  assert (Hnd : NoDup (JsMap.keys symbols)).
  { destruct (analyzeText_cases _ _ _ _ _ _ _ Ha) as [[-> _]|(ast & -> & _)];
      [constructor | apply NoDup_tableOf]. }
  rewrite (get_setAll _ _ _ Hnd).
  destruct (JsMap.get name symbols) as [loc|] eqn:Hget; [|reflexivity].
  split; [reflexivity|].
  now destruct (analyzeText_entry _ _ _ _ _ _ _ _ _ Ha Hget) as (H1 & _).
Qed.

Lemma updateSymbolsForDocument_lookup_witness :
  let pos := fun l c => {| p_line := l; p_column := c |} in
  let tree := Program None
                [Identifier (Some {| l_start := pos 2%positive 0; l_end := pos 2%positive 3 |})
                   (str "foo")] in
  let parse := fun _ : jsstring => Returns tree in
  let a := {| uri := str "file:///a.afl"; languageId := str "afl"; content := str "foo;" |} in
  let b := {| uri := str "file:///b.afl"; languageId := str "afl"; content := str "foo;" |} in
  let s := with_symbolTable
             (fun _ => [(str "foo", {| loc_uri := uri b; loc_range := Range_create 7 0 7 3 |});
                        (str "bar", {| loc_uri := uri b; loc_range := Range_create 9 0 9 3 |})])
             initial in
  exists s',
    Server.updateSymbolsForDocument parse a true s = (Returns tt, s') /\
    JsMap.get (str "foo") (symbolTable s')
      = Some {| loc_uri := uri a; loc_range := Range_create 1 0 1 3 |} /\
    JsMap.get (str "bar") (symbolTable s')
      = Some {| loc_uri := uri b; loc_range := Range_create 9 0 9 3 |}.
Proof.
  intros pos tree parse a b s.
  destruct (updateSymbolsForDocument_lookup parse a true s _ _ eq_refl) as (s' & Hu & Hl).
  exists s'. split; [exact Hu|].
  split; [exact (proj1 (Hl (str "foo"))) | exact (Hl (str "bar"))].
Defined.

(** X4. In every state that the server reaches from its start, the
    completion list names no symbol twice. *)
Theorem completion_labels_distinct :
  forall (parse : jsstring -> Completion AnyNode) (s : State),
    reachable parse s ->
    NoDup (map label (Server.onCompletion s)).
Proof.
  intros parse s H. rewrite completion_labels. exact (reachable_NoDup parse s H).
Qed.

Lemma completion_labels_distinct_witness :
  let pos := fun l c => {| p_line := l; p_column := c |} in
  let foo := fun l => Identifier (Some {| l_start := pos l 0; l_end := pos l 3 |}) (str "foo") in
  let parse := fun _ : jsstring =>
                 Returns (Program None [foo 1%positive; foo 4%positive]) in
  let a := {| uri := str "file:///a.afl"; languageId := str "afl"; content := str "foo;" |} in
  let b := {| uri := str "file:///b.afl"; languageId := str "afl"; content := str "foo;" |} in
  let events := [Notified (Server.DidOpen a); Notified (Server.DidOpen b); Elapsed 2000] in
  let s := snd (forEach (handle parse) events initial) in
  map label (Server.onCompletion s) = [str "foo"] /\
  NoDup (map label (Server.onCompletion s)).
Proof.
  intros pos foo parse a b events s.
  split; [vm_compute; reflexivity|].
  apply (completion_labels_distinct parse s). exists events. vm_compute. reflexivity.
Defined.

(** X5. A definition request resolves the word under the cursor in the
    symbol table: for a document that the server holds and a line of it,
    a cursor on a maximal identifier run, its two ends included, gives
    the table's entry for that run, and a cursor that no run holds gives
    null, as does a request for a document that the server does not
    hold. *)
Theorem onDefinition_resolves :
  forall (uri : jsstring) (position : Position) (s : State),
    (JsMap.get uri (documents s) = None -> Server.onDefinition uri position s = None) /\
    (forall (doc : TextDocument) (l : jsstring),
       JsMap.get uri (documents s) = Some doc ->
       nth_error (splitLines (getText doc)) (line position) = Some l ->
       (forall st e, maximal_run l st e -> st <= character position <= e ->
          Server.onDefinition uri position s = JsMap.get (slice l st e) (symbolTable s)) /\
       ((forall st e, maximal_run l st e -> ~ st <= character position <= e) ->
          Server.onDefinition uri position s = None)).
Proof.
  intros uri position s. split.
  - intros H. unfold Server.onDefinition. now rewrite H.
  - intros doc l Hdoc Hl. unfold Server.onDefinition. rewrite Hdoc.
    cbv zeta. rewrite (lineAt_some _ _ _ Hl). split.
    + intros st e Hrun Hc.
      rewrite (getWordAtPosition_hit l st e _ Hrun) by lia.
      destruct Hrun as [(H1 & H2 & _) _].
      destruct (slice_nonempty l st e H1 H2) as (c & r & ->). reflexivity.
    + intros Hno. rewrite getWordAtPosition_miss; [reflexivity|].
      intros st e Hrun Hc. apply (Hno st e Hrun). lia.
Qed.

Lemma onDefinition_resolves_witness :
  let u := str "file:///a.afl" in
  let doc := {| uri := u; languageId := str "afl";
                content := str "x = 1;" ++ [LF] ++ str "y = foo + 2;" |} in
  let loc := {| loc_uri := u; loc_range := Range_create 4 9 4 12 |} in
  let s := with_symbolTable (fun _ => [(str "foo", loc)])
             (with_documents (fun _ => [(u, doc)]) initial) in
  maximal_run (str "y = foo + 2;") 4 7 /\
  Server.onDefinition u {| line := 1; character := 7 |} s = Some loc /\
  Server.onDefinition (str "file:///b.afl") {| line := 1; character := 7 |} s = None.
Proof.
  intros u doc loc s.
  assert (Hrun : maximal_run (str "y = foo + 2;") 4 7).
  { split.
    - unfold identifier_at. splits; [lia | simpl; lia | reflexivity].
    - intros s' e' Hid Hs He. apply identifier_at_iff in Hid as (H1 & H2 & H3 & H4).
      simpl in H2.
      assert (e' = 7).
      { destruct (Nat.eq_dec e' 7) as [|Hne]; [assumption|].
        assert (H7 : holdsAt isIdentPart (str "y = foo + 2;") 7 = true) by (apply H4; lia).
        discriminate H7. }
      assert (s' = 4).
      { destruct (Nat.eq_dec s' 4) as [|Hne]; [assumption|].
        assert (H3' : holdsAt isIdentPart (str "y = foo + 2;") 3 = true) by (apply H4; lia).
        discriminate H3'. }
      now split. }
  split; [exact Hrun|]. split.
  - exact (proj1 (proj2 (onDefinition_resolves u {| line := 1; character := 7 |} s)
                    doc (str "y = foo + 2;") eq_refl eq_refl) 4 7 Hrun
             ltac:(simpl; lia)).
  - exact (proj1 (onDefinition_resolves (str "file:///b.afl")
                    {| line := 1; character := 7 |} s) eq_refl).
Defined.

(** X6. A definition request for a line past the last line of the
    document does not read the document: the handler takes the missing
    line for the word [undefined], so a cursor in columns 0 to 9 gives
    the symbol table's entry for the name [undefined], and a cursor
    further right gives null. *)
Theorem onDefinition_past_last_line :
  forall (uri : jsstring) (position : Position) (s : State) (doc : TextDocument),
    JsMap.get uri (documents s) = Some doc ->
    length (splitLines (getText doc)) <= line position ->
    Server.onDefinition uri position s =
    if character position <=? 9 then JsMap.get (str "undefined") (symbolTable s) else None.
Proof.
  intros uri position s doc Hdoc Hlen. unfold Server.onDefinition. rewrite Hdoc.
  cbv zeta. rewrite (lineAt_none _ _ Hlen).
  destruct (character position <=? 9) eqn:E.
  - apply Nat.leb_le in E.
    rewrite (getWordAtPosition_hit _ 0 9 _ maximal_run_undefined) by lia. reflexivity.
  - apply Nat.leb_gt in E. rewrite getWordAtPosition_miss; [reflexivity|].
    intros st e [(H1 & H2 & _) _] Hc. simpl in H2. lia.
Qed.

Lemma onDefinition_past_last_line_witness :
  let u := str "file:///a.afl" in
  let doc := {| uri := u; languageId := str "afl"; content := str "x = 1;" |} in
  let loc := {| loc_uri := u; loc_range := Range_create 0 0 0 9 |} in
  let s := with_symbolTable (fun _ => [(str "undefined", loc)])
             (with_documents (fun _ => [(u, doc)]) initial) in
  Server.onDefinition u {| line := 5; character := 3 |} s = Some loc.
Proof.
  intros u doc loc s.
  exact (onDefinition_past_last_line u {| line := 5; character := 3 |} s doc eq_refl
           ltac:(simpl; lia)).
Defined.

(** X7. In every state that the server reaches from its start, hover and
    definition agree: a hover request has an answer exactly when the
    definition request for the same position has one, and the answer is
    the markdown text with the word in bold and the line of the
    definition, counted from 1. *)
Theorem hover_matches_definition :
  forall (parse : jsstring -> Completion AnyNode) (s : State),
    reachable parse s ->
    forall (uri : jsstring) (position : Position),
      (Server.onDefinition uri position s = None /\ Server.onHover uri position s = None) \/
      exists word loc,
        JsMap.get word (symbolTable s) = Some loc /\
        Server.onDefinition uri position s = Some loc /\
        Server.onHover uri position s =
          Some {| contents := {| mc_kind := Markdown; mc_value := hoverText word loc |} |}.
Proof.
  intros parse s Hreach uri position.
  pose proof (reachable_inSync parse s Hreach) as Hsync.
  unfold Server.onDefinition, Server.onHover.
  destruct (JsMap.get uri (documents s)) as [doc|]; [|now left].
  cbv zeta.
  destruct (SymbolTable.getWordAtPosition _ _) as [[|c r]|]; [now left | | now left].
  unfold SymbolTable.getSymbolInfo. rewrite (Hsync (c :: r)).
  destruct (JsMap.get (c :: r) (symbolTable s)) as [loc|] eqn:Hget; [|now left].
  right. exists (c :: r), loc. splits; [exact Hget | reflexivity | reflexivity].
Qed.

Lemma hover_matches_definition_witness :
  let pos := fun l c => {| p_line := l; p_column := c |} in
  let parse := fun _ : jsstring =>
    Returns (Program None
               [Identifier (Some {| l_start := pos 1%positive 0; l_end := pos 1%positive 3 |})
                  (str "foo")]) in
  let u := str "file:///a.afl" in
  let doc := {| uri := u; languageId := str "afl"; content := str "foo = 1;" |} in
  let s := snd (forEach (handle parse) [Notified (Server.DidOpen doc)] initial) in
  let here := {| line := 0; character := 2 |} in
  Server.onHover u here s =
    Some {| contents :=
              {| mc_kind := Markdown;
                 mc_value := str "**foo**" ++ [LF; LF] ++ str "Identifier used at line 1" |} |} /\
  ((Server.onDefinition u here s = None /\ Server.onHover u here s = None) \/
   exists word loc,
     JsMap.get word (symbolTable s) = Some loc /\
     Server.onDefinition u here s = Some loc /\
     Server.onHover u here s =
       Some {| contents := {| mc_kind := Markdown; mc_value := hoverText word loc |} |}).
Proof.
  intros pos parse u doc s here.
  split; [vm_compute; reflexivity|].
  apply (hover_matches_definition parse s); exists [Notified (Server.DidOpen doc)].
  vm_compute. reflexivity.
Defined.

(** ** What the lint rule reports, and what it never reports *)

Lemma checkCall_in n line st name d :
  In d (Functions.checkCall n line st name) ->
  exists o c,
    indexOf lparen line (st + length name) = Some o /\
    Functions.findCloseParen line o = Some c /\
    Functions.isBlank (slice line (o + 1) c) = false /\
    Functions.startsWithSpace (slice line (o + 1) c)
      && Functions.endsWithSpace (slice line (o + 1) c) = false /\
    d = {| severity := Warning;
           range := Range_create n st n (c + 1);
           message := messageFor (slice line (o + 1) c);
           source := str "afl-lsp" |}.
Proof.
  unfold Functions.checkCall, messageFor.
  destruct (indexOf lparen line (st + length name)) as [o|]; [|intros []].
  destruct (Functions.findCloseParen line o) as [c|] eqn:Hc; [|intros []].
  destruct (Functions.isBlank (slice line (o + 1) c)) eqn:Hb; [intros []|].
  destruct (Functions.startsWithSpace (slice line (o + 1) c)) eqn:Hs;
    destruct (Functions.endsWithSpace (slice line (o + 1) c)) eqn:He;
    cbn [negb orb andb]; intros H;
    first [ now destruct H
          | destruct H as [<-|[]]; exists o, c; rewrite ?Hb, ?Hs, ?He;
            splits; first [reflexivity | assumption] ].
Qed.

Lemma checkCall_length n line st name :
  length (Functions.checkCall n line st name) <= 1.
Proof.
  unfold Functions.checkCall.
  destruct (indexOf _ _ _); [|simpl; lia].
  destruct (Functions.findCloseParen _ _); [|simpl; lia].
  destruct (Functions.isBlank _); [simpl; lia|].
  destruct (_ || _); simpl; lia.
Qed.

Lemma searchCallStart_start prev s i st name k' :
  Functions.searchCallStart prev s i = Some (st, name, k') ->
  holdsAt isIdentStart s (st - i) = true.
Proof.
  revert prev i. induction s as [|c r IH]; intros prev i; simpl.
  - discriminate.
  - destruct (Functions.wordBoundary prev (Some c) && isIdentStart c) eqn:E.
    + destruct (dropWhile isSpace (dropWhile isIdentPart r)) as [|d0 rest].
      * intros H. pose proof (searchCallStart_bounds _ _ _ _ _ _ H) as Hb.
        apply IH in H. replace (st - i) with (S (st - S i)) by lia. exact H.
      * destruct (eqc d0 lparen).
        -- intros [= <- _ _]. rewrite Nat.sub_diag. unfold holdsAt. simpl.
           now apply andb_true_iff in E.
        -- intros H. pose proof (searchCallStart_bounds _ _ _ _ _ _ H) as Hb.
           apply IH in H. replace (st - i) with (S (st - S i)) by lia. exact H.
    + intros H. pose proof (searchCallStart_bounds _ _ _ _ _ _ H) as Hb.
      apply IH in H. replace (st - i) with (S (st - S i)) by lia. exact H.
Qed.

Lemma execCallStart_start line k st name k' :
  Functions.execCallStart line k = Some (st, name, k') ->
  holdsAt isIdentStart line st = true.
Proof.
  intros H. pose proof (execCallStart_bounds _ _ _ _ _ H) as Hb.
  unfold Functions.execCallStart in H. apply searchCallStart_start in H.
  rewrite holdsAt_skipn in H. now replace (k + (st - k)) with st in H by lia.
Qed.

Lemma callMatches_start fuel line k st name :
  In (st, name) (callMatches fuel line k) -> holdsAt isIdentStart line st = true.
Proof.
  revert k. induction fuel as [|fuel IH]; intros k; simpl; [intros []|].
  destruct (Functions.execCallStart line k) as [[[st0 name0] k']|] eqn:E; [|intros []].
  intros [[= <- <-]|H].
  - exact (execCallStart_start _ _ _ _ _ E).
  - exact (IH _ H).
Qed.

Lemma nth_error_prefix {A} (a rest : list A) i x :
  nth_error a i = Some x -> nth_error (a ++ rest) i = Some x.
Proof.
  intros H. rewrite nth_error_app1; [exact H|]. apply nth_error_Some. congruence.
Qed.

Lemma holdsAt_prefix p a rest i :
  holdsAt p a i = true -> holdsAt p (a ++ rest) i = true.
Proof.
  unfold holdsAt. destruct (nth_error a i) as [x|] eqn:E; [|discriminate].
  now rewrite (nth_error_prefix a rest i x E).
Qed.

(** Where a diagnostic of the rule comes from: a line that the rule
    scans, a match of the call pattern on it, the parentheses of the
    call and the arguments between them. *)
Lemma checkLines_origin lines d :
  In d (Functions.checkLines lines 0 false) ->
  exists j l st name o c,
    nth_error lines j = Some l /\
    Functions.skipsLine (commentStateAt lines j false) l = false /\
    In (st, name) (detectedCalls (Functions.scannedLine l)) /\
    indexOf lparen (Functions.scannedLine l) (st + length name) = Some o /\
    Functions.findCloseParen (Functions.scannedLine l) o = Some c /\
    Functions.isBlank (slice (Functions.scannedLine l) (o + 1) c) = false /\
    Functions.startsWithSpace (slice (Functions.scannedLine l) (o + 1) c)
      && Functions.endsWithSpace (slice (Functions.scannedLine l) (o + 1) c) = false /\
    d = {| severity := Warning;
           range := Range_create j st j (c + 1);
           message := messageFor (slice (Functions.scannedLine l) (o + 1) c);
           source := str "afl-lsp" |}.
Proof.
  intros H. apply checkLines_in in H as (j & l & st & name & Hj & Hskip & Hin & Hd).
  apply checkCall_in in Hd as (o & c & Ho & Hc & Hb & Hs & ->).
  exists j, l, st, name, o, c. splits; try assumption. reflexivity.
Qed.

(** X8. The rule reports nothing but calls with a missing space: every
    diagnostic belongs to a call that the rule detects, whose arguments
    are not blank and lack white space at one end at least, and it is
    the diagnostic of that call with the message for its arguments.  So
    a text in which every detected call has blank arguments or white
    space at both ends of them gets no diagnostic at all. *)
Theorem checkFunctionSpaces_reports_only_calls :
  forall (text uri : jsstring),
    (forall d, In d (Functions.checkFunctionSpaces text uri) ->
       exists k c,
         detectedCall text k c /\
         Functions.isBlank (args c) = false /\
         Functions.startsWithSpace (args c) && Functions.endsWithSpace (args c) = false /\
         d = callDiagnostic k c (messageFor (args c))) /\
    ((forall k c, detectedCall text k c ->
        Functions.isBlank (args c) = true \/
        Functions.startsWithSpace (args c) && Functions.endsWithSpace (args c) = true) ->
     Functions.checkFunctionSpaces text uri = []).
Proof.
  intros text uri.
  assert (Hsound : forall d, In d (Functions.checkFunctionSpaces text uri) ->
            exists k c,
              detectedCall text k c /\
              Functions.isBlank (args c) = false /\
              Functions.startsWithSpace (args c) && Functions.endsWithSpace (args c) = false /\
              d = callDiagnostic k c (messageFor (args c))).
  { intros d Hd. unfold Functions.checkFunctionSpaces in Hd.
    apply checkLines_origin in Hd
      as (j & l & st & name & o & c & Hj & Hskip & Hin & Ho & Hc & Hb & Hs & ->).
    exists j, {| startChar := st; functionName := name; openParenIdx := o;
                 closeParenIdx := c;
                 args := slice (Functions.scannedLine l) (o + 1) c |}.
    splits; try assumption; [|reflexivity].
    exists l. split; [split; assumption|]. cbn. splits; try assumption. reflexivity. }
  split; [exact Hsound|].
  intros Hall. destruct (Functions.checkFunctionSpaces text uri) as [|d ds] eqn:E;
    [reflexivity|].
  destruct (Hsound d (or_introl eq_refl)) as (k & c & Hcall & Hb & Hs & _).
  destruct (Hall k c Hcall) as [H|H]; congruence.
Qed.

Lemma checkFunctionSpaces_reports_only_calls_witness :
  (let text := str "x = f(a);" in
   let d := {| severity := Warning; range := Range_create 0 4 0 8;
               message := Functions.msgBoth; source := str "afl-lsp" |} in
   In d (Functions.checkFunctionSpaces text []) /\
   exists k c,
     detectedCall text k c /\
     Functions.isBlank (args c) = false /\
     Functions.startsWithSpace (args c) && Functions.endsWithSpace (args c) = false /\
     d = callDiagnostic k c (messageFor (args c))) /\
  Functions.checkFunctionSpaces (str "x = f( a );") [] = [].
Proof.
  split.
  - intros text d.
    assert (Hd : In d (Functions.checkFunctionSpaces text [])) by (left; reflexivity).
    split; [exact Hd|].
    exact (proj1 (checkFunctionSpaces_reports_only_calls text []) d Hd).
  - apply (proj2 (checkFunctionSpaces_reports_only_calls (str "x = f( a );") [])).
    intros k c (l & [Hn _] & Hin & Ho & Hc & Ha).
    destruct k as [|k]; [|destruct k; discriminate Hn].
    injection Hn as <-.
    destruct Hin as [Hin|[]]. injection Hin as Hst Hname.
    rewrite <- Hst, <- Hname in Ho. injection Ho as Ho.
    rewrite <- Ho in Hc, Ha. injection Hc as Hc. rewrite <- Hc in Ha.
    right. rewrite Ha. reflexivity.
Defined.

(** X9. The range of every diagnostic lies on one line of the document,
    within the text of that line: it begins at the first character of
    an identifier and ends right behind a closing parenthesis. *)
Theorem checkFunctionSpaces_ranges :
  forall (text uri : jsstring) (d : Diagnostic),
    In d (Functions.checkFunctionSpaces text uri) ->
    exists l,
      nth_error (splitLines text) (line (start (range d))) = Some l /\
      line (end_ (range d)) = line (start (range d)) /\
      character (start (range d)) < character (end_ (range d)) /\
      character (end_ (range d)) <= length l /\
      holdsAt isIdentStart l (character (start (range d))) = true /\
      nth_error l (character (end_ (range d)) - 1) = Some rparen.
Proof.
  intros text uri d Hd. unfold Functions.checkFunctionSpaces in Hd.
  apply checkLines_origin in Hd
    as (j & l & st & name & o & c & Hj & Hskip & Hin & Ho & Hc & _ & _ & ->).
  destruct (skipsLine_false _ _ Hskip) as (_ & Hq & _).
  rewrite (scannedLine_no_dquote l Hq) in *.
  destruct (removeLineComment_prefix l) as [rest E].
  pose proof (indexOf_found _ _ _ _ Ho) as Hlp.
  pose proof (indexOf_ge _ _ _ _ Ho) as Hge.
  destruct (findCloseParen_found _ _ _ Hlp Hc) as [Hoc Hrp].
  pose proof (callMatches_start _ _ _ _ _ Hin) as Hst.
  assert (Hrpl : nth_error l c = Some rparen).
  { rewrite E. now apply nth_error_prefix. }
  exists l. cbn. splits.
  - exact Hj.
  - reflexivity.
  - lia.
  - assert (c < length l) by (apply nth_error_Some; congruence). lia.
  - rewrite E. now apply holdsAt_prefix.
  - now replace (c + 1 - 1) with c by lia.
Qed.

Lemma checkFunctionSpaces_ranges_witness :
  let text := str "y = 1;" ++ [LF] ++ str "x = f( a) + 2; // go(b)" in
  let d := {| severity := Warning; range := Range_create 1 4 1 9;
              message := str "Expected space before ')'"; source := str "afl-lsp" |} in
  Functions.checkFunctionSpaces text [] = [d] /\
  exists l,
    nth_error (splitLines text) 1 = Some l /\
    1 = 1 /\ 4 < 9 /\ 9 <= length l /\
    holdsAt isIdentStart l 4 = true /\
    nth_error l (9 - 1) = Some rparen.
Proof.
  intros text d.
  split; [reflexivity|].
  exact (checkFunctionSpaces_ranges text [] d (or_introl eq_refl)).
Defined.

Lemma ForallOrdPairs_app {A} (R : A -> A -> Prop) a b :
  ForallOrdPairs R a -> ForallOrdPairs R b ->
  (forall x y, In x a -> In y b -> R x y) ->
  ForallOrdPairs R (a ++ b).
Proof.
  intros Ha Hb Hab. induction Ha as [|x a Hx Ha IH]; simpl; [exact Hb|].
  constructor.
  - apply Forall_app. split; [exact Hx|].
    apply Forall_forall. intros y Hy. apply Hab; [now left | exact Hy].
  - apply IH. intros x' y Hx' Hy. apply Hab; [now right | exact Hy].
Qed.

Lemma ForallOrdPairs_short {A} (R : A -> A -> Prop) l :
  length l <= 1 -> ForallOrdPairs R l.
Proof.
  destruct l as [|x [|y r]]; simpl; intros H.
  - constructor.
  - constructor; constructor.
  - lia.
Qed.

Lemma ForallOrdPairs_filter_one {A} (R : A -> A -> Prop) (f : A -> bool) l :
  ForallOrdPairs R l ->
  (forall x y, f x = true -> f y = true -> ~ R x y) ->
  length (filter f l) <= 1.
Proof.
  intros Hl Hf. induction Hl as [|x l Hx Hl IH]; simpl; [lia|].
  destruct (f x) eqn:E; [|exact IH].
  rewrite filter_none; [simpl; lia|].
  intros y Hy. destruct (f y) eqn:Ey; [|reflexivity].
  exfalso. apply (Hf x y E Ey). rewrite Forall_forall in Hx. now apply Hx.
Qed.

Lemma callLoop_ordered fuel n line k :
  ForallOrdPairs startsBefore (Functions.callLoop fuel n line k).
Proof.
  rewrite callLoop_matches.
  revert k. induction fuel as [|fuel IH]; intros k; cbn [callMatches].
  - constructor.
  - destruct (Functions.execCallStart line k) as [[[st name] k']|] eqn:E; [|constructor].
    pose proof (execCallStart_bounds _ _ _ _ _ E) as [_ Hlt].
    cbn [flat_map fst snd]. apply ForallOrdPairs_app.
    + apply ForallOrdPairs_short, checkCall_length.
    + apply IH.
    + intros x y Hx Hy.
      apply checkCall_start in Hx.
      apply in_flat_map in Hy as ([st' name'] & Hm & Hy).
      apply callMatches_ge in Hm. apply checkCall_start in Hy.
      unfold startsBefore, position_lt. rewrite Hx, Hy. cbn. right. lia.
Qed.

Lemma checkLines_ordered lines n b :
  ForallOrdPairs startsBefore (Functions.checkLines lines n b).
Proof.
  revert n b. induction lines as [|l rest IH]; intros n b; cbn [Functions.checkLines].
  - constructor.
  - destruct (Functions.skipsLine _ l); [apply IH|].
    apply ForallOrdPairs_app; [apply callLoop_ordered | apply IH |].
    intros x y Hx Hy. apply callLoop_line in Hx. apply checkLines_line_ge in Hy.
    unfold startsBefore, position_lt. left. lia.
Qed.

(** X10. The diagnostics come in the order of the document: each one
    starts before all that follow it in the list, by line and then by
    column.  Hence no two diagnostics start at the same position. *)
Theorem checkFunctionSpaces_in_document_order :
  forall (text uri : jsstring),
    ForallOrdPairs startsBefore (Functions.checkFunctionSpaces text uri) /\
    forall p : Position,
      length (diagnosticsAt p (Functions.checkFunctionSpaces text uri)) <= 1.
Proof.
  intros text uri.
  assert (H : ForallOrdPairs startsBefore (Functions.checkFunctionSpaces text uri))
    by apply checkLines_ordered.
  split; [exact H|].
  intros p. unfold diagnosticsAt. apply (ForallOrdPairs_filter_one _ _ _ H).
  intros x y Hx Hy. apply position_eqb_eq in Hx, Hy.
  unfold startsBefore, position_lt. rewrite Hx, Hy. lia.
Qed.

(** ** Line endings *)

Lemma plainLine_cons x l :
  plainLine (x :: l) = true ->
  eqc x LF = false /\ (l = [] -> eqc x CR = false) /\ plainLine l = true.
Proof.
  unfold plainLine. cbn [forallb rev]. intros H.
  apply andb_true_iff in H as [H1 H2]. apply andb_true_iff in H1 as [Hx Hl].
  apply negb_true_iff in Hx. splits.
  - exact Hx.
  - intros ->. simpl in H2. now apply negb_true_iff in H2.
  - rewrite Hl. simpl. destruct (rev l) as [|c r] eqn:E; [reflexivity|].
    simpl in H2. exact H2.
Qed.

Lemma plainLine_head x l : plainLine (x :: l) = true -> startsWith [LF] (x :: l) = false.
Proof.
  intros H. apply plainLine_cons in H as (Hx & _). rewrite startsWith1_cons.
  unfold eqc in *. now rewrite Ascii.eqb_sym.
Qed.

Lemma splitLines_line (sep : jsstring) l rest :
  plainLine l = true -> sep = [LF] \/ sep = [CR; LF] ->
  splitLines (l ++ sep ++ rest) = l :: splitLines rest.
Proof.
  intros Hl Hsep. induction l as [|x l IH].
  - destruct Hsep as [-> | ->]; reflexivity.
  - destruct (plainLine_cons _ _ Hl) as (Hx & Hcr & Hl').
    cbn [app]. rewrite splitLines_step, Hx.
    assert (Hno : eqc x CR && startsWith [LF] (l ++ sep ++ rest) = false).
    { destruct l as [|y l].
      - rewrite (Hcr eq_refl). reflexivity.
      - cbn [app]. replace (startsWith [LF] (y :: l ++ sep ++ rest))
          with (startsWith [LF] (y :: l)) by reflexivity.
        rewrite (plainLine_head _ _ Hl'). apply andb_false_r. }
    rewrite Hno, (IH Hl'). reflexivity.
Qed.

Lemma splitLines_last l : plainLine l = true -> splitLines l = [l].
Proof.
  intros Hl. induction l as [|x l IH]; [reflexivity|].
  destruct (plainLine_cons _ _ Hl) as (Hx & Hcr & Hl').
  rewrite splitLines_step, Hx.
  assert (Hno : eqc x CR && startsWith [LF] l = false).
  { destruct l as [|y l]; [apply andb_false_r|].
    rewrite (plainLine_head _ _ Hl'). apply andb_false_r. }
  rewrite Hno, (IH Hl'). reflexivity.
Qed.

Lemma splitLines_joinLines (sep : jsstring) lines :
  lines <> [] -> forallb plainLine lines = true ->
  sep = [LF] \/ sep = [CR; LF] ->
  splitLines (joinLines sep lines) = lines.
Proof.
  intros Hne Hall Hsep. induction lines as [|l rest IH]; [contradiction|].
  cbn [forallb] in Hall. apply andb_true_iff in Hall as [Hl Hrest].
  cbn [joinLines]. destruct rest as [|l2 rest].
  - now apply splitLines_last.
  - rewrite (splitLines_line sep l _ Hl Hsep). f_equal.
    apply IH; [discriminate | exact Hrest].
Qed.

(** X11. The rule reads a text by its lines, whichever way they are
    ended: lines joined by LF and the same lines joined by CR LF are
    split into the lines again, and get the same diagnostics. *)
Theorem checkFunctionSpaces_line_endings :
  forall (lines : list jsstring) (uri : jsstring),
    lines <> [] ->
    forallb plainLine lines = true ->
    splitLines (joinLines [LF] lines) = lines /\
    splitLines (joinLines [CR; LF] lines) = lines /\
    Functions.checkFunctionSpaces (joinLines [CR; LF] lines) uri =
    Functions.checkFunctionSpaces (joinLines [LF] lines) uri.
Proof.
  intros lines uri Hne Hall.
  pose proof (splitLines_joinLines [LF] lines Hne Hall (or_introl eq_refl)) as H1.
  pose proof (splitLines_joinLines [CR; LF] lines Hne Hall (or_intror eq_refl)) as H2.
  splits; [exact H1 | exact H2 |].
  unfold Functions.checkFunctionSpaces. now rewrite H1, H2.
Qed.

Lemma checkFunctionSpaces_line_endings_witness :
  let lines := [str "x = f(a);"; []; str "y = g( b );"] in
  splitLines (joinLines [LF] lines) = lines /\
  splitLines (joinLines [CR; LF] lines) = lines /\
  Functions.checkFunctionSpaces (joinLines [CR; LF] lines) [] =
  Functions.checkFunctionSpaces (joinLines [LF] lines) [].
Proof.
  intros lines.
  exact (checkFunctionSpaces_line_endings lines [] ltac:(discriminate) eq_refl).
Defined.

(** ** What [stripStrings] changes *)

Lemma blankMatches_pointwise pending s i c :
  nth_error (Util.blankMatches pending s) i = Some c ->
  c = space \/ nth_error s i = Some c.
Proof.
  revert pending i. induction s as [|x r IH]; intros pending i; cbn [Util.blankMatches].
  - destruct i; discriminate.
  - destruct pending as [|p].
    + destruct (Util.matchStringLiteral (x :: r)) as [[|p]|];
        (destruct i as [|i]; cbn [nth_error];
         [intros [= <-]; auto | apply IH]).
    + destruct i as [|i]; cbn [nth_error]; [intros [= <-]; auto | apply IH].
Qed.

Lemma stripStrings_no_backslash s :
  ~ In backslash s -> Util.stripStrings s = s.
Proof.
  unfold Util.stripStrings. induction s as [|c r IH]; intros Hno; [reflexivity|].
  cbn [Util.blankMatches].
  destruct (Util.matchStringLiteral (c :: r)) as [n|] eqn:E.
  - apply matchStringLiteral_backslash in E as [r' E]. exfalso. apply Hno.
    rewrite E. left. reflexivity.
  - f_equal. apply IH. intros H. apply Hno. now right.
Qed.

(** X12. [stripStrings] does nothing but blank: every code unit of its
    result is the one of the line at the same column, or a space.  A
    line without a backslash or without a double quote comes back
    unchanged.  The lint rule skips every line with a double quote
    before it strips strings, so on every line that it scans the
    stripping changes nothing. *)
Theorem stripStrings_only_blanks :
  (forall (line : jsstring) (i : nat) (c : ascii),
     nth_error (Util.stripStrings line) i = Some c ->
     c = space \/ nth_error line i = Some c) /\
  (forall line : jsstring,
     ~ In backslash line \/ ~ In dquote line -> Util.stripStrings line = line) /\
  (forall (text : jsstring) (k : nat) (l : jsstring),
     lintedLine text k l ->
     Functions.scannedLine l = Functions.removeLineComment l).
Proof.
  splits.
  - intros line i c. apply blankMatches_pointwise.
  - intros line [H|H]; [now apply stripStrings_no_backslash | now apply stripStrings_no_dquote].
  - intros text k l [_ Hskip].
    destruct (skipsLine_false _ _ Hskip) as (_ & Hq & _).
    now apply scannedLine_no_dquote.
Qed.

Lemma stripStrings_only_blanks_witness :
  Util.stripStrings (str "f('a\b')") = str "f('a\b')" /\
  lintedLine (str "f( a ) // \" ++ [LF] ++ str "g(b)") 0 (str "f( a ) // \") /\
  Functions.scannedLine (str "f( a ) // \") = str "f( a ) ".
Proof.
  destruct stripStrings_only_blanks as (_ & Hkeep & Hscan).
  assert (Hl : lintedLine (str "f( a ) // \" ++ [LF] ++ str "g(b)") 0 (str "f( a ) // \"))
    by (split; reflexivity).
  splits.
  - apply Hkeep. right. intros H. simpl in H.
    repeat (destruct H as [H|H]; [discriminate H|]). exact H.
  - exact Hl.
  - rewrite (Hscan _ _ _ Hl). reflexivity.
Defined.

(** ** The quick fix on any diagnostic *)

Lemma lastIndexOfFrom_none ch s i : ~ In ch s -> lastIndexOfFrom ch s i = None.
Proof.
  revert i. induction s as [|c r IH]; intros i Hno; [reflexivity|].
  cbn [lastIndexOfFrom]. rewrite IH by (intros H; apply Hno; now right).
  rewrite eqc_neq; [reflexivity|]. intros ->. apply Hno. now left.
Qed.

Lemma eqc_refl c : eqc c c = true.
Proof. apply Ascii.eqb_refl. Qed.

Lemma lastIndexOfFrom_last ch a b i :
  ~ In ch b -> lastIndexOfFrom ch (a ++ ch :: b) i = Some (i + length a).
Proof.
  intros Hno. revert i. induction a as [|x a IH]; intros i; cbn [app lastIndexOfFrom].
  - rewrite (lastIndexOfFrom_none ch b (S i) Hno), eqc_refl. f_equal. simpl. lia.
  - rewrite IH. f_equal. simpl. lia.
Qed.

Lemma last_occurrence (ch : ascii) s :
  In ch s -> exists a b, s = a ++ ch :: b /\ ~ In ch b.
Proof.
  induction s as [|x r IH]; [intros []|].
  intros H. destruct (in_dec Ascii.ascii_dec ch r) as [Hr|Hr].
  - destruct (IH Hr) as (a & b & -> & Hb). now exists (x :: a), b.
  - destruct H as [->|H]; [|contradiction]. now exists [], r.
Qed.

Lemma fixFunctionSapces_some docs uri d doc before after :
  JsMap.get uri docs = Some doc ->
  getTextRange doc (range d) = before ++ rparen :: after ->
  ~ In rparen after ->
  Functions.fixFunctionSapces docs uri d =
  Some {| title := str "Insert space before ')'"; kind := QuickFix;
          diagnostics := [d];
          changes := [(uri, [ {| edit_range := range d;
                                 newText := before ++ space :: rparen :: after |} ])] |}.
Proof.
  intros Hdoc Htext Hno. unfold Functions.fixFunctionSapces.
  rewrite Hdoc. cbv zeta. rewrite Htext. unfold lastIndexOf.
  rewrite (lastIndexOfFrom_last rparen before after 0 Hno). cbn [Nat.add].
  do 5 f_equal.
  unfold slice. rewrite Nat.sub_0_r. cbn [skipn].
  rewrite firstn_app, firstn_all, Nat.sub_diag. cbn [firstn]. rewrite app_nil_r.
  f_equal. cbn [str list_ascii_of_string app]. do 2 f_equal.
  replace (length before + 1) with (length before + 1 + 0) by lia.
  rewrite skipn_app.
  rewrite skipn_all2 by lia.
  replace (length before + 1 + 0 - length before) with 1 by lia. reflexivity.
Qed.

(** X13. The quick fix, for any diagnostic it is given: if the server
    does not hold the document, or the text that the range of the
    diagnostic spans holds no closing parenthesis, there is no action;
    otherwise the action is one edit over that range, and its new text
    is the spanned text with one space put in before its last closing
    parenthesis. *)
Theorem fixFunctionSapces_edit :
  forall (docs : JsMap.t TextDocument) (uri : jsstring) (d : Diagnostic),
    (JsMap.get uri docs = None -> Functions.fixFunctionSapces docs uri d = None) /\
    (forall doc : TextDocument,
       JsMap.get uri docs = Some doc ->
       (~ In rparen (getTextRange doc (range d)) ->
        Functions.fixFunctionSapces docs uri d = None) /\
       (In rparen (getTextRange doc (range d)) ->
        exists before after,
          getTextRange doc (range d) = before ++ rparen :: after /\
          ~ In rparen after /\
          Functions.fixFunctionSapces docs uri d =
          Some {| title := str "Insert space before ')'"; kind := QuickFix;
                  diagnostics := [d];
                  changes := [(uri, [ {| edit_range := range d;
                                         newText := before ++ space :: rparen :: after |} ])] |})).
Proof.
  intros docs uri d. split.
  - intros H. unfold Functions.fixFunctionSapces. now rewrite H.
  - intros doc Hdoc. split.
    + intros Hno. unfold Functions.fixFunctionSapces. rewrite Hdoc. cbv zeta.
      unfold lastIndexOf. now rewrite lastIndexOfFrom_none.
    + intros Hin. destruct (last_occurrence _ _ Hin) as (before & after & Htext & Hno).
      exists before, after. splits; [exact Htext | exact Hno |].
      exact (fixFunctionSapces_some docs uri d doc before after Hdoc Htext Hno).
Qed.

Lemma fixFunctionSapces_edit_witness :
  let u := str "file:///t.afl" in
  let doc := {| uri := u; languageId := str "afl";
                content := str "x = f( g(a), b);" |} in
  let d := {| severity := Warning; range := Range_create 0 4 0 15;
              message := str "Expected space before ')'"; source := str "afl-lsp" |} in
  getTextRange doc (range d) = str "f( g(a), b)" /\
  exists before after,
    getTextRange doc (range d) = before ++ rparen :: after /\
    ~ In rparen after /\
    Functions.fixFunctionSapces [(u, doc)] u d =
    Some {| title := str "Insert space before ')'"; kind := QuickFix;
            diagnostics := [d];
            changes := [(u, [ {| edit_range := range d;
                                 newText := before ++ space :: rparen :: after |} ])] |}.
Proof.
  intros u doc d. split; [reflexivity|].
  apply (proj2 (proj2 (fixFunctionSapces_edit [(u, doc)] u d) doc eq_refl)).
  vm_compute. tauto.
Defined.

(** ** The quick fix on the diagnostics of the rule *)

(** The fix for a diagnostic of the rule that asks for a space before
    the closing parenthesis, on a text whose line endings are LF and
    CR LF, and the lines of the text after its edit: the line of the
    diagnostic has a space more, the others are as before. *)
Lemma fix_of_emitted text uri docs doc d :
  JsMap.get uri docs = Some doc ->
  content doc = text ->
  noLoneCR text = true ->
  In d (Functions.checkFunctionSpaces text uri) ->
  includes (str "space before ')'") (message d) = true ->
  exists j l st c edit,
    nth_error (splitLines text) j = Some l /\
    nth_error l c = Some rparen /\
    range d = Range_create j st j (c + 1) /\
    Functions.fixFunctionSapces docs uri d =
      Some {| title := str "Insert space before ')'"; kind := QuickFix;
              diagnostics := [d]; changes := [(uri, [edit])] |} /\
    edit_range edit = range d /\
    splitLines (applyEdit text edit) =
      firstn j (splitLines text) ++ insertAt c space l :: skipn (S j) (splitLines text).
Proof.
  intros Hdoc Htext Hn Hd Hmsg.
  unfold Functions.checkFunctionSpaces in Hd.
  apply checkLines_in in Hd as (j & l & st & name & Hj & Hskip & Hin & Hd).
  cbn [Nat.add] in Hd. set (line := Functions.scannedLine l) in *.
  destruct (checkCall_before _ _ _ _ _ Hd Hmsg) as (o & c & Ho & Hc & Hb & Hs & He & Hr).
  pose proof (indexOf_found _ _ _ _ Ho) as Hlp.
  pose proof (indexOf_ge _ _ _ _ Ho) as Hge.
  destruct (findCloseParen_found _ _ _ Hlp Hc) as [Hoc Hrp].
  assert (Hlen : c < length line) by (apply nth_error_Some; congruence).
  destruct (skipsLine_false _ _ Hskip) as (Hlc & Hq & Hst).
  destruct (scannedLine_insertAt c l Hq Hlen Hrp) as [Hrpl Hscan].
  assert (Hcl : c < length l) by (apply nth_error_Some; congruence).
  assert (Hget : getTextRange doc (range d) = slice l st c ++ rparen :: []).
  { rewrite Hr, (getTextRange_line doc j l st (c + 1))
      by (rewrite ?Htext; assumption || lia).
    apply slice_snoc; [exact Hrpl | lia]. }
  exists j, l, st, c,
    {| edit_range := range d; newText := slice l st c ++ space :: rparen :: [] |}.
  splits; try assumption.
  - apply (fixFunctionSapces_some docs uri d doc _ _ Hdoc Hget). intros [].
  - reflexivity.
  - rewrite Hr. rewrite (applyEdit_fix text j l st c Hn Hj Hrpl) by lia.
    exact (splitLines_insertAt text j l c Hj Hcl).
Qed.

Lemma messageFor_cases a :
  messageFor a = Functions.msgBefore \/ messageFor a = Functions.msgAfter \/
  messageFor a = Functions.msgBoth.
Proof.
  unfold messageFor.
  destruct (Functions.startsWithSpace a); [now left|].
  destruct (Functions.endsWithSpace a); [right; now left | right; now right].
Qed.

Lemma emitted_message text uri d :
  In d (Functions.checkFunctionSpaces text uri) ->
  message d = Functions.msgBefore \/ message d = Functions.msgAfter \/
  message d = Functions.msgBoth.
Proof.
  intros Hd. unfold Functions.checkFunctionSpaces in Hd.
  apply checkLines_origin in Hd as (j & l & st & name & o & c & _ & _ & _ & _ & _ & _ & _ & ->).
  apply messageFor_cases.
Qed.

(** X14. Of the diagnostics of the rule on a document whose line
    endings are LF and CR LF, the code action handler offers a fix for
    those with the message that asks for a space before the closing
    parenthesis, one action for each, in the order given, and for no
    other: a missing space after the opening parenthesis, alone or
    together with the other one, gets no fix.  For a document that the
    server does not hold there is no action at all. *)
Theorem onCodeAction_fixes_before_only :
  forall (uri : jsstring) (s : State),
    (forall (doc : TextDocument) (context : list Diagnostic),
       JsMap.get uri (documents s) = Some doc ->
       noLoneCR (content doc) = true ->
       (forall d, In d context ->
                  In d (Functions.checkFunctionSpaces (content doc) uri)) ->
       map diagnostics (Server.onCodeAction uri context s) =
       map (fun d => [d])
           (filter (fun d => JsMap.eqs (message d) Functions.msgBefore) context)) /\
    (forall context : list Diagnostic,
       JsMap.get uri (documents s) = None ->
       Server.onCodeAction uri context s = []).
Proof.
  intros uri s. split.
  - intros doc context Hdoc Hn Hall. unfold Server.onCodeAction.
    induction context as [|d ds IH]; [reflexivity|].
    cbn [flat_map filter]. rewrite map_app.
    rewrite IH by (intros d' Hd'; apply Hall; now right).
    assert (Hd : In d (Functions.checkFunctionSpaces (content doc) uri))
      by (apply Hall; now left).
    destruct (emitted_message _ _ _ Hd) as [Hm|[Hm|Hm]]; rewrite Hm.
    + destruct (fix_of_emitted (content doc) uri (documents s) doc d Hdoc eq_refl Hn Hd)
        as (j & l & st & c & edit & _ & _ & _ & Hfix & _).
      { rewrite Hm. reflexivity. }
      rewrite Hfix.
      replace (includes (str "space before ')'") Functions.msgBefore) with true
        by reflexivity.
      replace (JsMap.eqs Functions.msgBefore Functions.msgBefore) with true
        by reflexivity.
      reflexivity.
    + replace (includes (str "space before ')'") Functions.msgAfter) with false
        by reflexivity.
      replace (JsMap.eqs Functions.msgAfter Functions.msgBefore) with false
        by reflexivity.
      reflexivity.
    + replace (includes (str "space before ')'") Functions.msgBoth) with false
        by reflexivity.
      replace (JsMap.eqs Functions.msgBoth Functions.msgBefore) with false
        by reflexivity.
      reflexivity.
  - intros context Hdoc. unfold Server.onCodeAction.
    apply flat_map_nil. intros d _.
    unfold Functions.fixFunctionSapces. rewrite Hdoc.
    now destruct (includes _ _).
Qed.

Lemma onCodeAction_fixes_before_only_witness :
  let u := str "file:///t.afl" in
  let text := str "a = f(x);" ++ [CR; LF] ++ str "b = g( y);" ++ [LF] ++ str "c = h(z );" in
  let doc := {| uri := u; languageId := str "afl"; content := text |} in
  let s := with_documents (fun _ => [(u, doc)]) initial in
  let d1 := {| severity := Warning; range := Range_create 1 4 1 9;
               message := Functions.msgBefore; source := str "afl-lsp" |} in
  length (Functions.checkFunctionSpaces text u) = 3 /\
  map diagnostics (Server.onCodeAction u (Functions.checkFunctionSpaces text u) s) = [[d1]].
Proof.
  intros u text doc s d1. split; [reflexivity|].
  rewrite (proj1 (onCodeAction_fixes_before_only u s) doc
             (Functions.checkFunctionSpaces text u) eq_refl eq_refl (fun d H => H)).
  reflexivity.
Defined.

(** ** The whole effect of the quick fix *)

(** *** Lists with a code unit put in *)

Lemma takeWhile_dropWhile_app (p : ascii -> bool) s : takeWhile p s ++ dropWhile p s = s.
Proof.
  induction s as [|c r IH]; [reflexivity|]. simpl.
  destruct (p c); [simpl; now rewrite IH | reflexivity].
Qed.

Lemma forallb_takeWhile (p : ascii -> bool) s : forallb p (takeWhile p s) = true.
Proof.
  induction s as [|c r IH]; [reflexivity|]. simpl.
  destruct (p c) eqn:E; [simpl; now rewrite E | reflexivity].
Qed.

Lemma length_insertAt c (x : ascii) l : c <= length l -> length (insertAt c x l) = S (length l).
Proof.
  intros H. unfold insertAt. rewrite length_app. cbn [length].
  rewrite length_firstn, length_skipn. lia.
Qed.

Lemma nth_error_insertAt_lt c (x : ascii) l i :
  i < c -> c <= length l -> nth_error (insertAt c x l) i = nth_error l i.
Proof.
  revert l i. induction c as [|c IH]; intros l i Hi Hc; [lia|].
  destruct l as [|y l]; [simpl in Hc; lia|]. rewrite insertAt_S.
  destruct i as [|i]; [reflexivity|]. cbn [nth_error]. apply IH; simpl in Hc; lia.
Qed.

Lemma nth_error_insertAt_gt c (x : ascii) l i :
  c <= i -> c <= length l -> nth_error (insertAt c x l) (S i) = nth_error l i.
Proof.
  revert l i. induction c as [|c IH]; intros l i Hi Hc; [reflexivity|].
  destruct l as [|y l]; [simpl in Hc; lia|]. rewrite insertAt_S.
  destruct i as [|i]; [lia|]. cbn [nth_error]. apply IH; simpl in Hc; lia.
Qed.

Lemma skipn_insertAt_gt c (x : ascii) l k :
  c <= k -> c <= length l -> skipn (S k) (insertAt c x l) = skipn k l.
Proof.
  revert l k. induction c as [|c IH]; intros l k Hk Hc; [reflexivity|].
  destruct l as [|y l]; [simpl in Hc; lia|]. rewrite insertAt_S.
  destruct k as [|k]; [lia|]. cbn [skipn]. apply IH; simpl in Hc; lia.
Qed.

Lemma slice_insertAt_before c (x : ascii) l a b :
  b <= c -> c <= length l -> slice (insertAt c x l) a b = slice l a b.
Proof.
  intros Hb Hc. unfold slice.
  destruct (Nat.le_gt_cases b a) as [Hba|Hab].
  - replace (b - a) with 0 by lia. reflexivity.
  - rewrite skipn_insertAt by lia. unfold insertAt.
    rewrite firstn_app, length_firstn, length_skipn.
    replace (b - a - Nat.min (c - a) (length l - a)) with 0 by lia.
    cbn [firstn]. rewrite app_nil_r, firstn_firstn. f_equal. lia.
Qed.

Lemma slice_insertAt_after c (x : ascii) l a b :
  c <= a -> c <= length l -> slice (insertAt c x l) (S a) (S b) = slice l a b.
Proof.
  intros Ha Hc. unfold slice. rewrite skipn_insertAt_gt by lia. reflexivity.
Qed.

Lemma firstn_insertAt q (x : ascii) t n :
  q < n -> q <= length t -> firstn (S n) (insertAt q x t) = insertAt q x (firstn n t).
Proof.
  revert t n. induction q as [|q IH]; intros t n Hn Hq.
  - destruct n; [lia|]. reflexivity.
  - destruct t as [|y t]; [simpl in Hq; lia|]. destruct n as [|n]; [lia|].
    rewrite insertAt_S. cbn [firstn]. rewrite insertAt_S. f_equal.
    apply IH; simpl in Hq; lia.
Qed.

Lemma slice_insertAt_mid c (x : ascii) l a b :
  a <= c -> c < b -> b <= length l ->
  slice (insertAt c x l) a (S b) = insertAt (c - a) x (slice l a b).
Proof.
  intros Ha Hb Hl. unfold slice. rewrite skipn_insertAt by lia.
  replace (S b - a) with (S (b - a)) by lia.
  apply firstn_insertAt; [lia|]. rewrite length_skipn. lia.
Qed.

(** *** The call pattern on a line with a space put in before a closing
    parenthesis *)

Lemma spaces_then_paren_insertAt t q :
  nth_error t q = Some rparen ->
  match dropWhile isSpace (insertAt q space t) with
  | d :: _ => if eqc d lparen
              then Some (length (takeWhile isSpace (insertAt q space t))) else None
  | [] => None
  end =
  match dropWhile isSpace t with
  | d :: _ => if eqc d lparen then Some (length (takeWhile isSpace t)) else None
  | [] => None
  end.
Proof.
  revert q. induction t as [|x t IH]; intros q Hq; [destruct q; discriminate|].
  destruct q as [|q].
  - injection Hq as ->. rewrite insertAt_0. reflexivity.
  - rewrite insertAt_S. cbn [dropWhile takeWhile nth_error] in *.
    destruct (isSpace x); [|reflexivity].
    specialize (IH q Hq). cbn [length].
    destruct (dropWhile isSpace (insertAt q space t)) as [|d ?];
      destruct (dropWhile isSpace t) as [|d' ?]; try exact IH.
    + destruct (eqc d' lparen); [discriminate | reflexivity].
    + destruct (eqc d lparen); [discriminate | reflexivity].
    + destruct (eqc d lparen); destruct (eqc d' lparen); try discriminate; try reflexivity.
      injection IH as IH. now rewrite IH.
Qed.

Lemma name_then_paren_insertAt r p :
  nth_error r p = Some rparen ->
  takeWhile isIdentPart (insertAt p space r) = takeWhile isIdentPart r /\
  match dropWhile isSpace (dropWhile isIdentPart (insertAt p space r)) with
  | d :: _ => if eqc d lparen
              then Some (length (takeWhile isSpace (dropWhile isIdentPart (insertAt p space r))))
              else None
  | [] => None
  end =
  match dropWhile isSpace (dropWhile isIdentPart r) with
  | d :: _ => if eqc d lparen
              then Some (length (takeWhile isSpace (dropWhile isIdentPart r))) else None
  | [] => None
  end.
Proof.
  revert p. induction r as [|x r IH]; intros p Hp; [destruct p; discriminate|].
  destruct p as [|p].
  - injection Hp as ->. rewrite insertAt_0. split; reflexivity.
  - rewrite insertAt_S. cbn [takeWhile dropWhile nth_error] in *.
    destruct (isIdentPart x).
    + destruct (IH p Hp) as [H1 H2]. split; [now rewrite H1 | exact H2].
    + split; [reflexivity|].
      rewrite <- insertAt_S. apply spaces_then_paren_insertAt. exact Hp.
Qed.

Lemma matchCallStart_insertAt prev s p :
  nth_error s p = Some rparen ->
  Functions.matchCallStart prev (insertAt p space s) = Functions.matchCallStart prev s.
Proof.
  intros Hp. destruct s as [|c r]; [destruct p; discriminate|].
  destruct p as [|p].
  - injection Hp as ->. rewrite insertAt_0. unfold Functions.matchCallStart.
    change (isIdentStart space) with false. change (isIdentStart rparen) with false.
    now rewrite !andb_false_r.
  - rewrite insertAt_S. cbn [nth_error] in Hp. unfold Functions.matchCallStart.
    destruct (Functions.wordBoundary prev (Some c) && isIdentStart c); [|reflexivity].
    destruct (name_then_paren_insertAt r p Hp) as [H1 H2].
    cbv zeta. rewrite H1.
    destruct (dropWhile isSpace (dropWhile isIdentPart (insertAt p space r))) as [|d ?];
      destruct (dropWhile isSpace (dropWhile isIdentPart r)) as [|d' ?].
    + reflexivity.
    + destruct (eqc d' lparen); [discriminate | reflexivity].
    + destruct (eqc d lparen); [discriminate | reflexivity].
    + destruct (eqc d lparen); destruct (eqc d' lparen); try discriminate; try reflexivity.
      injection H2 as H2. now rewrite H2.
Qed.

(** *** What a match of the call pattern is made of *)

Lemma matchCallStart_spec prev s name len :
  Functions.matchCallStart prev s = Some (name, len) ->
  Functions.isWordAt prev = false /\
  holdsAt isIdentStart s 0 = true /\
  forallb isIdentPart name = true /\
  1 <= length name /\
  exists ws rest,
    s = name ++ ws ++ lparen :: rest /\ forallb isSpace ws = true /\
    len = length name + length ws + 1.
Proof.
  unfold Functions.matchCallStart. destruct s as [|c r]; [discriminate|].
  destruct (Functions.wordBoundary prev (Some c) && isIdentStart c) eqn:E; [|discriminate].
  apply andb_true_iff in E as [Hb Hc]. cbv zeta.
  destruct (dropWhile isSpace (dropWhile isIdentPart r)) as [|d rest] eqn:Ed; [discriminate|].
  destruct (eqc d lparen) eqn:El; [|discriminate].
  intros [= <- <-]. apply Ascii.eqb_eq in El. subst d.
  splits.
  - unfold Functions.wordBoundary in Hb. cbn [Functions.isWordAt] in Hb.
    rewrite (isIdentStart_part _ Hc) in Hb.
    destruct (Functions.isWordAt prev); [discriminate | reflexivity].
  - exact Hc.
  - cbn [forallb]. now rewrite (isIdentStart_part _ Hc), forallb_takeWhile.
  - simpl. lia.
  - exists (takeWhile isSpace (dropWhile isIdentPart r)), rest. splits.
    + cbn [app]. f_equal. rewrite <- Ed.
      now rewrite takeWhile_dropWhile_app, takeWhile_dropWhile_app.
    + apply forallb_takeWhile.
    + reflexivity.
Qed.

Lemma searchCallStart_at prev t i st n k' :
  Functions.searchCallStart prev t i = Some (st, n, k') ->
  i <= st /\ st < k' /\
  Functions.matchCallStart (match st - i with O => prev | S q => nth_error t q end)
                           (skipn (st - i) t) = Some (n, k' - st).
Proof.
  revert prev i. induction t as [|c r IH]; intros prev i H.
  - simpl in H. discriminate.
  - cbn [Functions.searchCallStart] in H.
    destruct (Functions.matchCallStart prev (c :: r)) as [[nm len]|] eqn:E.
    + injection H as <- <- <-. pose proof (matchCallStart_length _ _ _ _ E).
      rewrite Nat.sub_diag. splits; [lia | lia |].
      cbn [skipn]. rewrite E. do 2 f_equal. lia.
    + apply IH in H as (H1 & H2 & H3). splits; [lia | lia |].
      replace (st - i) with (S (st - S i)) by lia. cbn [skipn].
      rewrite <- H3. f_equal. destruct (st - S i); reflexivity.
Qed.

Lemma execCallStart_at line k s n k' :
  Functions.execCallStart line k = Some (s, n, k') ->
  k <= s /\ s < k' /\
  Functions.matchCallStart (match s with O => None | S q => nth_error line q end)
                           (skipn s line) = Some (n, k' - s).
Proof.
  intros H. unfold Functions.execCallStart in H.
  apply searchCallStart_at in H as (H1 & H2 & H3). splits; [lia | lia |].
  rewrite skipn_skipn in H3. replace (s - k + k) with s in H3 by lia.
  rewrite <- H3. f_equal.
  destruct (s - k) as [|q] eqn:E.
  - replace s with k by lia. reflexivity.
  - rewrite nth_error_skipn. replace s with (S (k + q)) by lia. reflexivity.
Qed.

Lemma holdsAt_app_l p a b i : i < length a -> holdsAt p (a ++ b) i = holdsAt p a i.
Proof. intros H. unfold holdsAt. now rewrite nth_error_app1. Qed.

Lemma holdsAt_app_r p a b i : holdsAt p (a ++ b) (length a + i) = holdsAt p b i.
Proof.
  unfold holdsAt. rewrite nth_error_app2 by lia.
  now replace (length a + i - length a) with i by lia.
Qed.

(** A match in the terms of the line: the name, the white space behind
    it, the opening parenthesis, and the word boundary before it. *)
Lemma execCallStart_span line k s n k' :
  Functions.execCallStart line k = Some (s, n, k') ->
  k <= s /\ 1 <= length n /\ s + length n < k' /\
  (forall i, s <= i < s + length n -> holdsAt isIdentPart line i = true) /\
  (forall i, s + length n <= i < k' - 1 -> holdsAt isSpace line i = true) /\
  nth_error line (k' - 1) = Some lparen /\
  holdsAt isIdentStart line s = true /\
  (forall q, s = S q -> holdsAt isIdentPart line q = false).
Proof.
  intros H. apply execCallStart_at in H as (H1 & H2 & H3).
  apply matchCallStart_spec in H3 as (Hw & Hs & Hn & Hlen & ws & rest & Hsplit & Hws & Hk).
  assert (Hat : forall p i, holdsAt p line (s + i) = holdsAt p (n ++ ws ++ lparen :: rest) i).
  { intros p i. rewrite <- Hsplit. symmetry. apply holdsAt_skipn. }
  splits.
  - exact H1.
  - exact Hlen.
  - lia.
  - intros i Hi. replace i with (s + (i - s)) by lia.
    rewrite Hat, holdsAt_app_l by lia.
    apply (proj1 (forallb_nth _ _) Hn). lia.
  - intros i Hi. replace i with (s + (length n + (i - s - length n))) by lia.
    rewrite Hat, holdsAt_app_r, holdsAt_app_l by lia.
    apply (proj1 (forallb_nth _ _) Hws). lia.
  - replace (k' - 1) with (s + (length n + (length ws + 0))) by lia.
    rewrite <- nth_error_skipn, Hsplit.
    rewrite nth_error_app2 by lia.
    replace (length n + (length ws + 0) - length n) with (length ws + 0) by lia.
    rewrite nth_error_app2 by lia.
    now replace (length ws + 0 - length ws) with 0 by lia.
  - replace s with (s + 0) at 1 by lia. rewrite holdsAt_skipn in Hs.
    exact Hs.
  - intros q ->. unfold Functions.isWordAt in Hw. unfold holdsAt.
    destruct (nth_error line q); [exact Hw | reflexivity].
Qed.

(** No closing parenthesis lies within a match. *)
Lemma execCallStart_no_rparen line k s n k' c :
  Functions.execCallStart line k = Some (s, n, k') ->
  nth_error line c = Some rparen -> c < s \/ k' <= c.
Proof.
  intros H Hc.
  destruct (execCallStart_span _ _ _ _ _ H) as (_ & _ & Hlt & Hn & Hws & Hlp & _ & _).
  destruct (Nat.lt_ge_cases c s) as [|Hge]; [now left|].
  destruct (Nat.le_gt_cases k' c) as [|Hlt']; [now right|]. exfalso.
  destruct (Nat.lt_ge_cases c (s + length n)) as [H1|H1].
  - specialize (Hn c ltac:(lia)). unfold holdsAt in Hn. rewrite Hc in Hn. discriminate.
  - destruct (Nat.eq_dec c (k' - 1)) as [->|Hne]; [rewrite Hlp in Hc; discriminate Hc|].
    specialize (Hws c ltac:(lia)). unfold holdsAt in Hws. rewrite Hc in Hws. discriminate.
Qed.

(** The opening parenthesis that [checkCall] looks for is the one of
    the match. *)
Lemma indexOfFrom_first ch s i j :
  nth_error s j = Some ch ->
  (forall m x, m < j -> nth_error s m = Some x -> x <> ch) ->
  indexOfFrom ch s i = Some (i + j).
Proof.
  revert i j. induction s as [|x r IH]; intros i j Hj Hno; [destruct j; discriminate|].
  cbn [indexOfFrom]. destruct j as [|j].
  - injection Hj as ->. rewrite eqc_refl. f_equal. lia.
  - rewrite eqc_neq by (apply (Hno 0 x); [lia | reflexivity]).
    replace (i + S j) with (S i + j) by lia. apply IH; [exact Hj|].
    intros m y Hm Hy. apply (Hno (S m) y); [lia | exact Hy].
Qed.

Lemma execCallStart_paren line k s n k' :
  Functions.execCallStart line k = Some (s, n, k') ->
  indexOf lparen line (s + length n) = Some (k' - 1).
Proof.
  intros H.
  destruct (execCallStart_span _ _ _ _ _ H) as (_ & _ & Hlt & _ & Hws & Hlp & _ & _).
  unfold indexOf.
  replace (k' - 1) with (s + length n + (k' - 1 - (s + length n))) at 1 by lia.
  apply indexOfFrom_first.
  - rewrite nth_error_skipn. now replace (s + length n + (k' - 1 - (s + length n)))
      with (k' - 1) by lia.
  - intros m x Hm Hx. rewrite nth_error_skipn in Hx.
    specialize (Hws (s + length n + m) ltac:(lia)). unfold holdsAt in Hws.
    rewrite Hx in Hws. intros ->. discriminate.
Qed.

(** A match is known by its parenthesis. *)
Lemma execCallStart_same_paren line k1 k2 s1 s2 n1 n2 k' :
  Functions.execCallStart line k1 = Some (s1, n1, k') ->
  Functions.execCallStart line k2 = Some (s2, n2, k') ->
  s1 = s2.
Proof.
  assert (Hlt : forall k1 k2 s1 s2 n1 n2,
            Functions.execCallStart line k1 = Some (s1, n1, k') ->
            Functions.execCallStart line k2 = Some (s2, n2, k') ->
            s1 < s2 -> False).
  { clear. intros k1 k2 s1 s2 n1 n2 H1 H2 Hlt.
    destruct (execCallStart_span _ _ _ _ _ H1) as (_ & _ & Hl1 & Hn1 & Hw1 & _ & _ & _).
    destruct (execCallStart_span _ _ _ _ _ H2) as (_ & Hlen2 & Hl2 & _ & _ & _ & Hs2 & Hb2).
    destruct (Nat.lt_ge_cases s2 (s1 + length n1)) as [Hin|Hout].
    - destruct s2 as [|q]; [lia|].
      specialize (Hb2 q eq_refl). rewrite (Hn1 q) in Hb2 by lia. discriminate.
    - specialize (Hw1 s2 ltac:(lia)). unfold holdsAt in *.
      destruct (nth_error line s2) as [x|]; [|discriminate].
      revert Hs2 Hw1. clear. unfold isIdentStart, isSpace, inRange.
      destruct (code x =? 32) eqn:E1.
      { apply Nat.eqb_eq in E1. rewrite E1. discriminate. }
      destruct (code x =? 160) eqn:E2.
      { apply Nat.eqb_eq in E2. rewrite E2. discriminate. }
      rewrite !orb_false_r. intros Hs Hw.
      apply andb_true_iff in Hw as [Ha Hb]. apply Nat.leb_le in Ha, Hb.
      destruct (code x) as [|[|[|[|[|[|[|[|[|[|[|[|[|[|m]]]]]]]]]]]]]] eqn:Ec;
        try lia; discriminate Hs. }
  intros H1 H2. destruct (Nat.lt_trichotomy s1 s2) as [H|[H|H]].
  - exfalso. exact (Hlt _ _ _ _ _ _ H1 H2 H).
  - exact H.
  - exfalso. exact (Hlt _ _ _ _ _ _ H2 H1 H).
Qed.

(** *** The matches of the line after the fix *)

Lemma matchCallStart_no_rparen prev s name len p :
  Functions.matchCallStart prev s = Some (name, len) ->
  nth_error s p = Some rparen -> len <= p.
Proof.
  intros H Hp.
  apply matchCallStart_spec in H as (_ & _ & Hn & _ & ws & rest & -> & Hws & ->).
  destruct (Nat.le_gt_cases (length name + length ws + 1) p) as [|Hlt]; [assumption|].
  exfalso. destruct (Nat.lt_ge_cases p (length name)) as [H1|H1].
  - rewrite nth_error_app1 in Hp by exact H1.
    pose proof (proj1 (forallb_nth _ _) Hn p H1) as Hx. unfold holdsAt in Hx.
    rewrite Hp in Hx. discriminate.
  - rewrite nth_error_app2 in Hp by exact H1.
    destruct (Nat.lt_ge_cases (p - length name) (length ws)) as [H2|H2].
    + rewrite nth_error_app1 in Hp by exact H2.
      pose proof (proj1 (forallb_nth _ _) Hws _ H2) as Hx. unfold holdsAt in Hx.
      rewrite Hp in Hx. discriminate.
    + rewrite nth_error_app2 in Hp by exact H2.
      replace (p - length name - length ws) with 0 in Hp by lia. discriminate.
Qed.

Lemma searchCallStart_shift prev s i :
  Functions.searchCallStart prev s (S i) =
  option_map (fun m : nat * jsstring * nat => let '(st, n, k') := m in (S st, n, S k'))
             (Functions.searchCallStart prev s i).
Proof.
  revert prev i. induction s as [|c r IH]; intros prev i.
  - reflexivity.
  - cbn [Functions.searchCallStart].
    destruct (Functions.matchCallStart prev (c :: r)) as [[name len]|]; [reflexivity|].
    apply IH.
Qed.

Lemma shiftColumn_le c n : n <= c -> shiftColumn c n = n.
Proof. intros H. unfold shiftColumn. apply Nat.leb_le in H. now rewrite H. Qed.

Lemma shiftColumn_gt c n : c < n -> shiftColumn c n = S n.
Proof. intros H. unfold shiftColumn. apply Nat.leb_gt in H. now rewrite H. Qed.

Lemma searchCallStart_cons prev c r i :
  Functions.searchCallStart prev (c :: r) i =
  match Functions.matchCallStart prev (c :: r) with
  | Some (functionName, len) => Some (i, functionName, i + len)
  | None => Functions.searchCallStart (Some c) r (S i)
  end.
Proof. reflexivity. Qed.

Lemma searchCallStart_after prev s i c :
  c < i ->
  option_map (fun m : nat * jsstring * nat => let '(st, n, k') := m in (S st, n, S k'))
             (Functions.searchCallStart prev s i) =
  option_map (fun m : nat * jsstring * nat =>
                let '(st, n, k') := m in (shiftColumn c st, n, shiftColumn c k'))
             (Functions.searchCallStart prev s i).
Proof.
  intros Hc. destruct (Functions.searchCallStart prev s i) as [[[st n] k']|] eqn:E;
    [|reflexivity].
  apply searchCallStart_bounds in E. cbn [option_map].
  now rewrite !shiftColumn_gt by lia.
Qed.

Lemma searchCallStart_insertAt prev s i p :
  nth_error s p = Some rparen ->
  Functions.searchCallStart prev (insertAt p space s) i =
  option_map (fun m : nat * jsstring * nat =>
                let '(st, n, k') := m in (shiftColumn (i + p) st, n, shiftColumn (i + p) k'))
             (Functions.searchCallStart prev s i).
Proof.
  revert prev i p. induction s as [|x r IH]; intros prev i p Hp;
    [destruct p; discriminate|].
  pose proof (matchCallStart_insertAt prev (x :: r) p Hp) as Hm.
  rewrite (searchCallStart_cons prev x r).
  destruct p as [|p].
  - (* the space comes first *)
    rewrite insertAt_0 in *. rewrite searchCallStart_cons, Hm.
    injection Hp as ->.
    assert (Hnone : forall pv, Functions.matchCallStart pv (rparen :: r) = None).
    { intros pv. unfold Functions.matchCallStart.
      change (isIdentStart rparen) with false. now rewrite andb_false_r. }
    rewrite !Hnone. rewrite searchCallStart_cons, Hnone.
    rewrite searchCallStart_shift. apply searchCallStart_after. lia.
  - rewrite insertAt_S in *. rewrite searchCallStart_cons, Hm.
    destruct (Functions.matchCallStart prev (x :: r)) as [[name len]|] eqn:E.
    + pose proof (matchCallStart_no_rparen _ _ _ _ _ E Hp).
      cbn [option_map]. now rewrite !shiftColumn_le by lia.
    + cbn [nth_error] in Hp. rewrite (IH (Some x) (S i) p Hp).
      now replace (S i + p) with (i + S p) by lia.
Qed.

Lemma execCallStart_insertAt line c k :
  nth_error line c = Some rparen -> k <= length line ->
  Functions.execCallStart (insertAt c space line) (shiftColumn c k) =
  option_map (fun m : nat * jsstring * nat =>
                let '(st, n, k') := m in (shiftColumn c st, n, shiftColumn c k'))
             (Functions.execCallStart line k).
Proof.
  intros Hc Hk.
  assert (Hlen : c < length line) by (apply nth_error_Some; congruence).
  unfold Functions.execCallStart.
  destruct (Nat.le_gt_cases k c) as [Hle|Hgt].
  - rewrite (shiftColumn_le c k Hle).
    rewrite skipn_insertAt by lia.
    replace (match k with O => None | S p => nth_error (insertAt c space line) p end)
      with (match k with O => None | S p => nth_error line p end)
      by (destruct k as [|q]; [reflexivity | now rewrite nth_error_insertAt_lt by lia]).
    rewrite searchCallStart_insertAt.
    + now replace (k + (c - k)) with c by lia.
    + rewrite nth_error_skipn. now replace (k + (c - k)) with c by lia.
  - rewrite (shiftColumn_gt c k Hgt). destruct k as [|q]; [lia|].
    rewrite nth_error_insertAt_gt by lia.
    rewrite skipn_insertAt_gt by lia.
    rewrite searchCallStart_shift. apply searchCallStart_after. lia.
Qed.

(** *** The parentheses of the line after the fix *)

Lemma indexOfFrom_shift ch s i :
  indexOfFrom ch s (S i) = option_map S (indexOfFrom ch s i).
Proof.
  revert i. induction s as [|x r IH]; intros i; [reflexivity|].
  cbn [indexOfFrom]. destruct (eqc x ch); [reflexivity | apply IH].
Qed.

Lemma indexOfFrom_insertAt_any ch s i p :
  ch <> space -> p <= length s ->
  indexOfFrom ch (insertAt p space s) i =
  option_map (fun o => if o <? i + p then o else S o) (indexOfFrom ch s i).
Proof.
  intros Hch. revert i p. induction s as [|x r IH]; intros i p Hp.
  - replace p with 0 by (simpl in Hp; lia). rewrite insertAt_0. cbn [indexOfFrom].
    rewrite eqc_neq by congruence. reflexivity.
  - destruct p as [|p].
    + rewrite insertAt_0. cbn [indexOfFrom]. rewrite (eqc_neq space ch) by congruence.
      change (if eqc x ch then Some (S i) else indexOfFrom ch r (S (S i)))
        with (indexOfFrom ch (x :: r) (S i)).
      rewrite indexOfFrom_shift.
      change (if eqc x ch then Some i else indexOfFrom ch r (S i))
        with (indexOfFrom ch (x :: r) i).
      destruct (indexOfFrom ch (x :: r) i) as [o|] eqn:E; [|reflexivity].
      apply indexOfFrom_ge in E. cbn [option_map].
      destruct (Nat.ltb_spec o (i + 0)); [lia | reflexivity].
    + rewrite insertAt_S. cbn [indexOfFrom]. destruct (eqc x ch).
      * cbn [option_map]. destruct (Nat.ltb_spec i (i + S p)); [reflexivity | lia].
      * rewrite IH by (simpl in Hp; lia). now replace (S i + p) with (i + S p) by lia.
Qed.

Lemma indexOf_insertAt_shift line c from :
  c <= length line -> from <= length line ->
  indexOf lparen (insertAt c space line) (shiftColumn c from) =
  option_map (fun o => if o <? c then o else S o) (indexOf lparen line from).
Proof.
  intros Hc Hf. unfold indexOf.
  destruct (Nat.le_gt_cases from c) as [Hle|Hgt].
  - rewrite (shiftColumn_le c from Hle), skipn_insertAt by lia.
    rewrite indexOfFrom_insertAt_any; [|discriminate | rewrite length_skipn; lia].
    now replace (from + (c - from)) with c by lia.
  - rewrite (shiftColumn_gt c from Hgt), skipn_insertAt_gt by lia.
    rewrite indexOfFrom_shift.
    destruct (indexOfFrom lparen (skipn from line) from) as [o|] eqn:E; [|reflexivity].
    apply indexOfFrom_ge in E. cbn [option_map].
    destruct (Nat.ltb_spec o c); [lia | reflexivity].
Qed.

Lemma closeParenLoop_insertAt_any s i d q :
  q <= length s -> (q = 0 -> d <> 0%Z) ->
  Functions.closeParenLoop (insertAt q space s) i d =
  option_map (fun r => if r <? i + q then r else S r) (Functions.closeParenLoop s i d).
Proof.
  revert i d q. induction s as [|x r IH]; intros i d q Hq Hd.
  - replace q with 0 in * by (simpl in Hq; lia). rewrite insertAt_0, closeParenLoop_space.
    destruct (Z.eqb_spec d 0); [now exfalso; apply Hd | reflexivity].
  - destruct q as [|q].
    + rewrite insertAt_0, closeParenLoop_space.
      destruct (Z.eqb_spec d 0); [now exfalso; apply Hd|].
      rewrite closeParenLoop_shift.
      destruct (Functions.closeParenLoop (x :: r) i d) as [c|] eqn:E; [|reflexivity].
      apply closeParenLoop_ge in E. cbn [option_map].
      destruct (Nat.ltb_spec c (i + 0)); [lia | reflexivity].
    + rewrite insertAt_S. cbn [Functions.closeParenLoop].
      match goal with |- (if ?b then _ else _) = _ => destruct b eqn:E end.
      * cbn [option_map]. destruct (Nat.ltb_spec i (i + S q)); [reflexivity | lia].
      * rewrite IH; [now replace (S i + q) with (i + S q) by lia | simpl in Hq; lia |].
        intros _. now apply Z.eqb_neq.
Qed.

Lemma findCloseParen_insertAt_shift line c o :
  c <= length line -> o <> c -> o <= length line ->
  Functions.findCloseParen (insertAt c space line) (if o <? c then o else S o) =
  option_map (fun r => if r <? c then r else S r) (Functions.findCloseParen line o).
Proof.
  intros Hc Hoc Ho. unfold Functions.findCloseParen.
  destruct (Nat.ltb_spec o c) as [Hlt|Hge].
  - rewrite skipn_insertAt by lia.
    rewrite closeParenLoop_insertAt_any; [|rewrite length_skipn; lia | lia].
    now replace (o + (c - o)) with c by lia.
  - rewrite skipn_insertAt_gt by lia. rewrite closeParenLoop_shift.
    destruct (Functions.closeParenLoop (skipn o line) o 0) as [r|] eqn:E; [|reflexivity].
    apply closeParenLoop_ge in E. cbn [option_map].
    destruct (Nat.ltb_spec r c); [lia | reflexivity].
Qed.

Lemma closeParenLoop_split s i d r m :
  (0 < d)%Z -> Functions.closeParenLoop s i d = Some r -> m <= r - i ->
  exists D, (0 < D)%Z /\ Functions.closeParenLoop (skipn m s) (i + m) D = Some r.
Proof.
  revert s i d. induction m as [|m IH]; intros s i d Hd H Hm.
  - exists d. split; [exact Hd|]. now rewrite Nat.add_0_r.
  - destruct s as [|x s]; [discriminate|]. cbn [Functions.closeParenLoop] in H.
    match type of H with (if (?e =? 0)%Z then _ else _) = _ =>
      destruct (Z.eqb_spec e 0) as [E|E]; [injection H as <-; lia|];
      assert (Hpos : (0 < e)%Z)
        by (destruct (eqc x lparen); [lia | destruct (eqc x rparen); lia]);
      pose proof (closeParenLoop_ge _ _ _ _ H);
      destruct (IH s (S i) e Hpos H ltac:(lia)) as (D & HD & HE)
    end.
    exists D. split; [exact HD|]. cbn [skipn].
    now replace (i + S m) with (S i + m) by lia.
Qed.

Lemma closeParenLoop_deeper s i d1 d2 r :
  (0 < d1 < d2)%Z ->
  Functions.closeParenLoop s i d1 = Some r -> Functions.closeParenLoop s i d2 <> Some r.
Proof.
  revert i d1 d2. induction s as [|x s IH]; intros i d1 d2 Hd H1; [discriminate|].
  cbn [Functions.closeParenLoop] in *.
  destruct (eqc x lparen).
  - destruct (Z.eqb_spec (d1 + 1) 0); [lia|]. destruct (Z.eqb_spec (d2 + 1) 0); [lia|].
    apply (IH (S i) (d1 + 1)%Z (d2 + 1)%Z); [lia | exact H1].
  - destruct (eqc x rparen).
    + destruct (Z.eqb_spec (d2 - 1) 0); [lia|].
      destruct (Z.eqb_spec (d1 - 1) 0).
      * injection H1 as <-. intros H2. apply closeParenLoop_ge in H2. lia.
      * apply (IH (S i) (d1 - 1)%Z (d2 - 1)%Z); [lia | exact H1].
    + destruct (Z.eqb_spec d1 0); [lia|]. destruct (Z.eqb_spec d2 0); [lia|].
      apply (IH (S i) d1 d2); [lia | exact H1].
Qed.

Lemma findCloseParen_open line o :
  nth_error line o = Some lparen ->
  Functions.findCloseParen line o =
  Functions.closeParenLoop (skipn (S o) line) (S o) 1.
Proof.
  intros Ho. unfold Functions.findCloseParen. rewrite (skipn_nth _ _ _ Ho).
  cbn [Functions.closeParenLoop]. rewrite eqc_refl. reflexivity.
Qed.

(** Two opening parentheses are not closed by the same one. *)
Lemma findCloseParen_unique line o1 o2 c :
  nth_error line o1 = Some lparen -> nth_error line o2 = Some lparen ->
  Functions.findCloseParen line o1 = Some c ->
  Functions.findCloseParen line o2 = Some c ->
  o1 = o2.
Proof.
  assert (Hlt : forall o1 o2,
            nth_error line o1 = Some lparen -> nth_error line o2 = Some lparen ->
            Functions.findCloseParen line o1 = Some c ->
            Functions.findCloseParen line o2 = Some c ->
            o1 < o2 -> False).
  { clear o1 o2. intros o1 o2 H1 H2 C1 C2 Hlt.
    destruct (findCloseParen_found _ _ _ H2 C2) as [Hoc _].
    rewrite (findCloseParen_open _ _ H1) in C1.
    rewrite (findCloseParen_open _ _ H2) in C2.
    destruct (closeParenLoop_split (skipn (S o1) line) (S o1) 1%Z c (o2 - S o1)
                ltac:(lia) C1 ltac:(lia))
      as (D & HD & HE).
    rewrite skipn_skipn in HE.
    replace (o2 - S o1 + S o1) with o2 in HE by lia.
    replace (S o1 + (o2 - S o1)) with o2 in HE by lia.
    rewrite (skipn_nth _ _ _ H2) in HE. cbn [Functions.closeParenLoop] in HE.
    rewrite eqc_refl in HE.
    destruct (Z.eqb_spec (D + 1) 0); [lia|].
    exact (closeParenLoop_deeper _ _ 1%Z (D + 1)%Z c ltac:(lia) C2 HE). }
  intros H1 H2 C1 C2. destruct (Nat.lt_trichotomy o1 o2) as [H|[H|H]].
  - exfalso. exact (Hlt _ _ H1 H2 C1 C2 H).
  - exact H.
  - exfalso. exact (Hlt _ _ H2 H1 C2 C1 H).
Qed.

(** *** The arguments of a call that spans the place of the fix *)

Lemma startsWithSpace_insertAt q a :
  1 <= q -> q <= length a ->
  Functions.startsWithSpace (insertAt q space a) = Functions.startsWithSpace a.
Proof.
  intros Hq Hl. destruct q as [|q]; [lia|].
  destruct a as [|y a]; [simpl in Hl; lia|]. now rewrite insertAt_S.
Qed.

Lemma endsWithSpace_last a z : Functions.endsWithSpace (a ++ [z]) = isSpace z.
Proof. unfold Functions.endsWithSpace. now rewrite rev_app_distr. Qed.

Lemma endsWithSpace_insertAt q a :
  q < length a ->
  Functions.endsWithSpace (insertAt q space a) = Functions.endsWithSpace a.
Proof.
  intros Hq. unfold insertAt.
  assert (Hne : skipn q a <> []).
  { intros E. apply (f_equal (@length _)) in E. rewrite length_skipn in E. simpl in E. lia. }
  destruct (exists_last Hne) as (t & z & Hz).
  rewrite <- (firstn_skipn q a) at 3. rewrite Hz.
  change (firstn q a ++ space :: t ++ [z]) with (firstn q a ++ (space :: t) ++ [z]).
  now rewrite !app_assoc, !endsWithSpace_last.
Qed.

(** *** The diagnostics of the line after the fix *)

Lemma findCloseParen_empty line o :
  nth_error line o = Some lparen -> nth_error line (S o) = Some rparen ->
  Functions.findCloseParen line o = Some (S o).
Proof.
  intros Ho Hc. rewrite (findCloseParen_open _ _ Ho), (skipn_nth _ _ _ Hc).
  reflexivity.
Qed.

Lemma execCallStart_name line k s n k' :
  Functions.execCallStart line k = Some (s, n, k') ->
  n = takeWhile isIdentPart (skipn s line).
Proof.
  intros H. apply execCallStart_at in H as (_ & _ & H).
  now apply matchCallStart_name in H.
Qed.

Section FixedCall.

(** The call that is fixed on the line: its match, its parentheses and
    its arguments, which start with white space. *)
Variables (line : jsstring) (j k0 st kp o c : nat) (name : jsstring).

Hypothesis Hexec : Functions.execCallStart line k0 = Some (st, name, kp).
Hypothesis Ho : indexOf lparen line (st + length name) = Some o.
Hypothesis Hc : Functions.findCloseParen line o = Some c.
Hypothesis Hb : Functions.isBlank (slice line (o + 1) c) = false.
Hypothesis Hs : Functions.startsWithSpace (slice line (o + 1) c) = true.

Let line' := insertAt c space line.

Let after (d' : Diagnostic) : list Diagnostic :=
  if character (start (range d')) =? st then [] else [shiftDiagnostic j c d'].

Lemma fixed_call_facts :
  o = kp - 1 /\ 1 <= kp /\ nth_error line o = Some lparen /\ o < c /\
  nth_error line c = Some rparen /\ c < length line /\ st < c.
Proof.
  pose proof (execCallStart_paren _ _ _ _ _ Hexec) as Hp.
  rewrite Ho in Hp. injection Hp as Hp.
  pose proof (indexOf_found _ _ _ _ Ho) as Hlp.
  pose proof (indexOf_ge _ _ _ _ Ho) as Hge.
  destruct (findCloseParen_found _ _ _ Hlp Hc) as [Hoc Hrp].
  destruct (execCallStart_span _ _ _ _ _ Hexec) as (_ & _ & Hlt & _).
  assert (c < length line) by (apply nth_error_Some; congruence).
  splits; try assumption; lia.
Qed.

Lemma checkCall_after_fix k s n k' :
  Functions.execCallStart line k = Some (s, n, k') ->
  Functions.checkCall j line' (shiftColumn c s) n =
  flat_map after (Functions.checkCall j line s n).
Proof.
  intros Hm.
  destruct fixed_call_facts as (Hokp & Hkp & Hlp & Hoc & Hrp & Hlen & Hstc).
  destruct (Nat.eq_dec s st) as [->|Hne].
  - (* the call that is fixed *)
    assert (n = name) as ->.
    { rewrite (execCallStart_name _ _ _ _ _ Hm). symmetry.
      exact (execCallStart_name _ _ _ _ _ Hexec). }
    rewrite shiftColumn_le by lia. unfold line'.
    rewrite (checkCall_fixed j line st name o c Ho Hc Hb Hs).
    symmetry. apply flat_map_nil. intros d' Hd'. unfold after.
    rewrite (checkCall_start _ _ _ _ _ Hd'). cbn. now rewrite Nat.eqb_refl.
  - (* another call *)
    pose proof (execCallStart_paren _ _ _ _ _ Hm) as Hos.
    destruct (execCallStart_span _ _ _ _ _ Hm) as (_ & Hn1 & Hlt & _ & _ & Hlps & _ & _).
    destruct (execCallStart_no_rparen _ _ _ _ _ _ Hm Hrp) as [Hcs|Hcs].
    + (* behind the place of the fix *)
      unfold Functions.checkCall.
      replace (shiftColumn c s + length n) with (shiftColumn c (s + length n))
        by (rewrite !shiftColumn_gt by lia; lia).
      assert (Hk' : k' <= length line).
      { assert (k' - 1 < length line) by (apply nth_error_Some; congruence). lia. }
      unfold line'. rewrite indexOf_insertAt_shift by lia. rewrite Hos. cbn [option_map].
      destruct (Nat.ltb_spec (k' - 1) c) as [|_]; [lia|].
      pose proof (findCloseParen_insertAt_shift line c (k' - 1) ltac:(lia) ltac:(lia)
                    ltac:(lia)) as Hf.
      destruct (Nat.ltb_spec (k' - 1) c) as [|_]; [lia|]. rewrite Hf.
      destruct (Functions.findCloseParen line (k' - 1)) as [cs|] eqn:Hcs'; [|reflexivity].
      destruct (findCloseParen_found _ _ _ Hlps Hcs') as [Hocs _].
      cbn [option_map]. destruct (Nat.ltb_spec cs c) as [|_]; [lia|].
      replace (S (k' - 1) + 1) with (S (k' - 1 + 1)) by lia.
      rewrite slice_insertAt_after by lia.
      destruct (Functions.isBlank (slice line (k' - 1 + 1) cs)); [reflexivity|].
      destruct (negb (Functions.startsWithSpace (slice line (k' - 1 + 1) cs))
                || negb (Functions.endsWithSpace (slice line (k' - 1 + 1) cs)));
        [|reflexivity].
      cbn [flat_map app]. unfold after. cbn [range start character Range_create].
      destruct (Nat.eqb_spec s st); [contradiction|].
      unfold shiftDiagnostic. cbn [range start end_ Lsp.line character Range_create
                                     severity message source].
      rewrite Nat.eqb_refl, !shiftColumn_gt by lia.
      unfold Range_create. replace (S cs + 1) with (S (cs + 1)) by lia. reflexivity.
    + (* before the place of the fix *)
      unfold Functions.checkCall.
      replace (shiftColumn c s + length n) with (shiftColumn c (s + length n))
        by (rewrite !shiftColumn_le by lia; lia).
      unfold line'. rewrite indexOf_insertAt_shift by lia. rewrite Hos. cbn [option_map].
      destruct (Nat.ltb_spec (k' - 1) c) as [_|]; [|lia].
      pose proof (findCloseParen_insertAt_shift line c (k' - 1) ltac:(lia) ltac:(lia)
                    ltac:(lia)) as Hf.
      destruct (Nat.ltb_spec (k' - 1) c) as [_|]; [|lia]. rewrite Hf.
      destruct (Functions.findCloseParen line (k' - 1)) as [cs|] eqn:Hcs'; [|reflexivity].
      destruct (findCloseParen_found _ _ _ Hlps Hcs') as [Hocs Hrps].
      assert (Hcsl : cs < length line) by (apply nth_error_Some; congruence).
      assert (Hcne : cs <> c).
      { intros ->.
        pose proof (findCloseParen_unique _ _ _ _ Hlps Hlp Hcs' Hc) as E.
        assert (k' = kp) by lia. subst k'.
        apply Hne. exact (execCallStart_same_paren _ _ _ _ _ _ _ _ Hm Hexec). }
      cbn [option_map].
      assert (Hargs :
        Functions.isBlank (slice (insertAt c space line) (k' - 1 + 1)
                                 (if cs <? c then cs else S cs))
          = Functions.isBlank (slice line (k' - 1 + 1) cs) /\
        Functions.startsWithSpace (slice (insertAt c space line) (k' - 1 + 1)
                                         (if cs <? c then cs else S cs))
          = Functions.startsWithSpace (slice line (k' - 1 + 1) cs) /\
        Functions.endsWithSpace (slice (insertAt c space line) (k' - 1 + 1)
                                       (if cs <? c then cs else S cs))
          = Functions.endsWithSpace (slice line (k' - 1 + 1) cs) /\
        (if cs <? c then cs else S cs) + 1 = shiftColumn c (cs + 1)).
      { destruct (Nat.ltb_spec cs c) as [Hlt'|Hge'].
        - rewrite slice_insertAt_before by lia.
          rewrite shiftColumn_le by lia. splits; reflexivity.
        - assert (Hgt' : c < cs) by lia.
          rewrite slice_insertAt_mid by lia.
          assert (Hsl : length (slice line (k' - 1 + 1) cs) = cs - (k' - 1 + 1))
            by (apply slice_length; lia).
          assert (Hmid : k' - 1 + 1 < c).
          { destruct (Nat.eq_dec (k' - 1 + 1) c) as [E|E]; [|lia]. exfalso.
            rewrite <- E in Hrp. replace (k' - 1 + 1) with (S (k' - 1)) in Hrp by lia.
            pose proof (findCloseParen_empty _ _ Hlps Hrp) as E2.
            rewrite Hcs' in E2. injection E2 as E2. lia. }
          rewrite shiftColumn_gt by lia. splits.
          + unfold Functions.isBlank. now apply forallb_insertAt.
          + apply startsWithSpace_insertAt; lia.
          + apply endsWithSpace_insertAt. lia.
          + lia. }
      destruct Hargs as (Eb & Es & Ee & Eend). rewrite Eb, Es, Ee, Eend.
      destruct (Functions.isBlank (slice line (k' - 1 + 1) cs)); [reflexivity|].
      destruct (negb (Functions.startsWithSpace (slice line (k' - 1 + 1) cs))
                || negb (Functions.endsWithSpace (slice line (k' - 1 + 1) cs)));
        [|reflexivity].
      cbn [flat_map app]. unfold after. cbn [range start character Range_create].
      destruct (Nat.eqb_spec s st); [contradiction|].
      unfold shiftDiagnostic. cbn [range start end_ Lsp.line character Range_create
                                     severity message source].
      rewrite Nat.eqb_refl. rewrite (shiftColumn_le c s) by lia. reflexivity.
Qed.

Lemma callLoop_after_fix fuel k :
  k <= length line ->
  Functions.callLoop fuel j line' (shiftColumn c k) =
  flat_map after (Functions.callLoop fuel j line k).
Proof.
  destruct fixed_call_facts as (_ & _ & _ & _ & Hrp & _ & _).
  rewrite !callLoop_matches.
  revert k. induction fuel as [|fuel IH]; intros k Hk; [reflexivity|].
  cbn [callMatches]. unfold line' in *.
  rewrite (execCallStart_insertAt line c k Hrp Hk).
  destruct (Functions.execCallStart line k) as [[[s n] k']|] eqn:E; [|reflexivity].
  cbn [option_map flat_map fst snd].
  rewrite flat_map_app. f_equal.
  - exact (checkCall_after_fix k s n k' E).
  - apply IH. exact (execCallStart_within _ _ _ _ _ Hk E).
Qed.

End FixedCall.

(** *** The diagnostics of the text after the fix *)

Lemma flat_map_same_in {A B} (f g : A -> list B) l :
  (forall x, In x l -> f x = g x) -> flat_map f l = flat_map g l.
Proof.
  intros H. induction l as [|x l IH]; [reflexivity|]. cbn [flat_map].
  rewrite (H x (or_introl eq_refl)), IH; [reflexivity|].
  intros y Hy. apply H. now right.
Qed.

Lemma flat_map_singletons {A} (f : A -> list A) l :
  (forall x, In x l -> f x = [x]) -> flat_map f l = l.
Proof.
  intros H. induction l as [|x l IH]; [reflexivity|]. cbn [flat_map].
  rewrite (H x (or_introl eq_refl)), IH; [reflexivity|].
  intros y Hy. apply H. now right.
Qed.

Lemma flat_map_filter_map {A B} (p : A -> bool) (g : A -> B) l :
  flat_map (fun x => if p x then [] else [g x]) l = map g (filter (fun x => negb (p x)) l).
Proof.
  induction l as [|x l IH]; [reflexivity|]. cbn [flat_map filter].
  destruct (p x); cbn [negb app map]; now rewrite IH.
Qed.

Lemma callMatches_exec fuel line k st n :
  In (st, n) (callMatches fuel line k) ->
  exists k0 kp, Functions.execCallStart line k0 = Some (st, n, kp).
Proof.
  revert k. induction fuel as [|fuel IH]; intros k; cbn [callMatches]; [intros []|].
  destruct (Functions.execCallStart line k) as [[[s0 n0] k']|] eqn:E; [|intros []].
  intros [[= <- <-]|H]; [now exists k, k' | exact (IH _ H)].
Qed.

(** One line is replaced by a line on which the comment markers and the
    skip test come out the same. *)
Lemma checkLines_replaced (f : Diagnostic -> list Diagnostic) lines n b j l l' :
  nth_error lines j = Some l ->
  (forall b0, Functions.commentStep b0 l' = Functions.commentStep b0 l) ->
  (forall b0, Functions.skipsLine b0 l' = Functions.skipsLine b0 l) ->
  Functions.callLoop (S (length (Functions.scannedLine l'))) (n + j)
    (Functions.scannedLine l') 0 =
  flat_map f (Functions.callLoop (S (length (Functions.scannedLine l))) (n + j)
                (Functions.scannedLine l) 0) ->
  (forall d, line (start (range d)) <> n + j -> f d = [d]) ->
  Functions.checkLines (firstn j lines ++ l' :: skipn (S j) lines) n b =
  flat_map f (Functions.checkLines lines n b).
Proof.
  revert n b j. induction lines as [|l0 rest IH]; intros n b j Hj Hstep Hskip Hloop Hid.
  - destruct j; discriminate.
  - destruct j as [|j].
    + injection Hj as ->. cbn [firstn skipn app Functions.checkLines].
      rewrite Hstep, Hskip. rewrite Nat.add_0_r in Hloop.
      assert (Hrest : forall b1,
                flat_map f (Functions.checkLines rest (S n) b1)
                = Functions.checkLines rest (S n) b1).
      { intros b1. apply flat_map_singletons. intros d Hd. apply Hid.
        apply checkLines_line_ge in Hd. lia. }
      destruct (Functions.skipsLine _ l).
      * now rewrite Hrest.
      * now rewrite flat_map_app, Hrest, Hloop.
    + cbn [nth_error] in Hj.
      change (firstn (S j) (l0 :: rest) ++ l' :: skipn (S (S j)) (l0 :: rest))
        with (l0 :: (firstn j rest ++ l' :: skipn (S j) rest)).
      cbn [Functions.checkLines].
      assert (Htail : forall b1,
                Functions.checkLines (firstn j rest ++ l' :: skipn (S j) rest) (S n) b1
                = flat_map f (Functions.checkLines rest (S n) b1)).
      { intros b1. apply (IH (S n) b1 j Hj Hstep Hskip).
        - now replace (S n + j) with (n + S j) by lia.
        - intros d Hd. apply Hid. lia. }
      destruct (Functions.skipsLine _ l0); [apply Htail|].
      rewrite flat_map_app, Htail. f_equal.
      symmetry. apply flat_map_singletons. intros d Hd. apply Hid.
      apply callLoop_line in Hd. lia.
Qed.

(** A diagnostic of the rule that asks for a space before the closing
    parenthesis, with the call it belongs to. *)
Lemma emitted_before_call text uri d :
  In d (Functions.checkFunctionSpaces text uri) ->
  includes (str "space before ')'") (message d) = true ->
  exists j l st name o c,
    nth_error (splitLines text) j = Some l /\
    Functions.skipsLine (commentStateAt (splitLines text) j false) l = false /\
    In (st, name) (detectedCalls (Functions.scannedLine l)) /\
    indexOf lparen (Functions.scannedLine l) (st + length name) = Some o /\
    Functions.findCloseParen (Functions.scannedLine l) o = Some c /\
    Functions.isBlank (slice (Functions.scannedLine l) (o + 1) c) = false /\
    Functions.startsWithSpace (slice (Functions.scannedLine l) (o + 1) c) = true /\
    range d = Range_create j st j (c + 1).
Proof.
  intros Hd Hmsg. unfold Functions.checkFunctionSpaces in Hd.
  apply checkLines_in in Hd as (j & l & st & name & Hj & Hskip & Hin & Hd).
  cbn [Nat.add] in Hd.
  destruct (checkCall_before _ _ _ _ _ Hd Hmsg) as (o & c & Ho & Hc & Hb & Hs & _ & Hr).
  exists j, l, st, name, o, c. splits; assumption.
Qed.

(** X15. The whole effect of the quick fix, on a text whose line endings
    are LF and CR LF: the edit for a diagnostic of the rule puts one
    space into the line of the diagnostic, before the
    closing parenthesis at which its range ends, and leaves the other
    lines alone.  On the text after the edit the rule reports what it
    reported before, without the fixed diagnostic; the diagnostics on
    the same line that start behind the new space are moved by one
    column, those that reach over it are longer by one column, and all
    others are as they were. *)
Theorem quick_fix_effect :
  forall (text uri : jsstring) (s : State) (doc : TextDocument) (d : Diagnostic),
    JsMap.get uri (documents s) = Some doc ->
    content doc = text ->
    noLoneCR text = true ->
    In d (Functions.checkFunctionSpaces text uri) ->
    includes (str "space before ')'") (message d) = true ->
    let j := line (start (range d)) in
    let c := character (end_ (range d)) - 1 in
    exists (action : CodeAction) (edit : TextEdit) (l : jsstring),
      Functions.fixFunctionSapces (documents s) uri d = Some action /\
      changes action = [(uri, [edit])] /\
      nth_error (splitLines text) j = Some l /\
      splitLines (applyEdit text edit) =
        firstn j (splitLines text) ++ insertAt c space l :: skipn (S j) (splitLines text) /\
      Functions.checkFunctionSpaces (applyEdit text edit) uri =
      map (shiftDiagnostic j c)
          (filter (fun d' => negb (position_eqb (start (range d')) (start (range d))))
                  (Functions.checkFunctionSpaces text uri)).
Proof.
  intros text uri s doc d Hdoc Htext Hn Hd Hmsg.
  destruct (fix_of_emitted text uri (documents s) doc d Hdoc Htext Hn Hd Hmsg)
    as (j & l & st & c & edit & Hj & Hrpl & Hr & Hfix & _ & Hlines).
  destruct (emitted_before_call text uri d Hd Hmsg)
    as (j' & l' & st' & name & o & c' & Hj' & Hskip & Hin & Ho & Hc & Hb & Hs & Hr').
  rewrite Hr in Hr'. injection Hr' as <- <- Hcc.
  assert (c' = c) by lia. subst c'. clear Hcc.
  rewrite Hj in Hj'. injection Hj' as <-.
  rewrite Hr. cbn [start end_ Range_create Lsp.line character].
  replace (c + 1 - 1) with c by lia. cbv zeta.
  eexists _, edit, l. splits; [exact Hfix | reflexivity | exact Hj | exact Hlines |].
  rewrite <- flat_map_filter_map.
  unfold Functions.checkFunctionSpaces. rewrite Hlines.
  set (line0 := Functions.scannedLine l) in *.
  pose proof (indexOf_found _ _ _ _ Ho) as Hlp.
  destruct (findCloseParen_found _ _ _ Hlp Hc) as [Hoc Hrp].
  assert (Hlen : c < length line0) by (apply nth_error_Some; congruence).
  destruct (skipsLine_false _ _ Hskip) as (_ & Hq & _).
  destruct (scannedLine_insertAt c l Hq Hlen Hrp) as [_ Hscan].
  assert (Hcl : c <= length l).
  { assert (c < length l) by (apply nth_error_Some; congruence). lia. }
  destruct (callMatches_exec _ _ _ _ _ Hin) as (k0 & kp & Hexec).
  apply (checkLines_replaced _ _ 0 false j l); try assumption.
  - intros b0. now apply commentStep_insertAt.
  - intros b0. unfold Functions.skipsLine.
    rewrite isLineComment_insertAt by exact Hrpl.
    now rewrite includes1_insertAt by (assumption || discriminate).
  - cbn [Nat.add]. rewrite Hscan. fold line0.
    pose proof (callLoop_after_fix line0 j k0 st kp o c name Hexec Ho Hc Hb Hs
                  (S (length (insertAt c space line0))) 0 ltac:(lia)) as Hloop.
    rewrite shiftColumn_le in Hloop by lia. rewrite Hloop.
    rewrite (callLoop_fuel (S (length (insertAt c space line0))) j line0)
      by (rewrite length_insertAt by lia; lia).
    apply flat_map_same_in. intros d' Hd'.
    apply callLoop_line in Hd'. unfold position_eqb.
    cbn [Lsp.line character]. now rewrite Hd', Nat.eqb_refl.
  - intros d' Hd'. cbn [Nat.add] in Hd'. unfold position_eqb, shiftDiagnostic.
    cbn [Lsp.line character].
    destruct (Nat.eqb_spec (Lsp.line (start (range d'))) j); [contradiction|].
    reflexivity.
Qed.

Lemma quick_fix_effect_witness :
  let text := str "y = g(1);" ++ [CR; LF] ++ str "x = f(h( a), b) + k(2);" in
  let u := str "file:///t.afl" in
  let doc := {| uri := u; languageId := str "afl"; content := text |} in
  let s := with_documents (fun _ => [(u, doc)]) initial in
  let warn := fun l a b msg =>
    {| severity := Warning; range := Range_create l a l b;
       message := msg; source := str "afl-lsp" |} in
  let d := warn 1 6 11 Functions.msgBefore in
  Functions.checkFunctionSpaces text u =
    [warn 0 4 8 Functions.msgBoth; warn 1 4 15 Functions.msgBoth; d;
     warn 1 18 22 Functions.msgBoth] /\
  exists (action : CodeAction) (edit : TextEdit),
    Functions.fixFunctionSapces (documents s) u d = Some action /\
    changes action = [(u, [edit])] /\
    splitLines (applyEdit text edit) = [str "y = g(1);"; str "x = f(h( a ), b) + k(2);"] /\
    Functions.checkFunctionSpaces (applyEdit text edit) u =
      [warn 0 4 8 Functions.msgBoth; warn 1 4 16 Functions.msgBoth;
       warn 1 19 23 Functions.msgBoth].
Proof.
  intros text u doc s warn d.
  assert (Hall : Functions.checkFunctionSpaces text u =
                 [warn 0 4 8 Functions.msgBoth; warn 1 4 15 Functions.msgBoth; d;
                  warn 1 18 22 Functions.msgBoth])
    by (vm_compute; reflexivity).
  split; [exact Hall|].
  destruct (quick_fix_effect text u s doc d eq_refl eq_refl eq_refl
              ltac:(rewrite Hall; right; right; left; reflexivity) eq_refl)
    as (action & edit & l & Hfix & Hch & Hl & Hlines & Heff).
  exists action, edit. splits; [exact Hfix | exact Hch | |].
  - rewrite Hlines. injection Hl as <-. reflexivity.
  - rewrite Heff, Hall. reflexivity.
Defined.

(** ** A change and the recompute that follows it *)

Lemma elapse_single parse ms s t doc :
  timers s = [t] -> callback t = UpdateSymbols doc -> due t <= now s + ms ->
  exists st s',
    symbolTable st = symbolTable s /\ astMap st = astMap s /\
    Server.updateSymbolsForDocument parse doc true st = (Returns tt, s') /\
    Server.elapse parse ms s = (Returns [UpdateSymbols doc], s').
Proof.
  intros Ht Hcb Hdue. unfold Server.elapse.
  erewrite bind_eval by reflexivity. erewrite bind_eval by reflexivity.
  cbn [timers with_now now]. rewrite Ht. cbn [filter].
  destruct (Nat.leb_spec (due t) (now s + ms)); [|lia].
  erewrite bind_eval by reflexivity. cbn [forEach]. rewrite Hcb.
  cbn [Server.runCallback].
  set (st := with_timers _ (with_now (now s + ms) s)).
  destruct (updateSymbolsForDocument_eval parse doc true st)
    as (symbols & s1 & _ & Hupd & _).
  exists st. eexists. splits; [reflexivity | reflexivity | exact Hupd |].
  erewrite bind_eval.
  2:{ erewrite bind_eval by exact Hupd. reflexivity. }
  cbn [map]. rewrite Hcb. reflexivity.
Qed.

Lemma updateSymbolsForDocument_astMap parse doc clearCache s s' symbols s1 :
  SymbolTable.analyzeText parse (getText doc) (uri doc) clearCache s = (Returns symbols, s1) ->
  Server.updateSymbolsForDocument parse doc clearCache s = (Returns tt, s') ->
  astMap s' = astMap s1 /\ symbolTable s' = JsMap.setAll symbols (symbolTable s).
Proof.
  intros Ha Hu.
  destruct (updateSymbolsForDocument_eval parse doc clearCache s)
    as (symbols' & s1' & Ha' & Hu' & Hfr).
  rewrite Ha in Ha'. injection Ha' as <- <-.
  rewrite Hu in Hu'. injection Hu' as ->. cbn.
  destruct Hfr as [Ht _]. now rewrite Ht.
Qed.

(** X16. What a change brings about: two seconds after a change of an
    afl document, with no other change in between, exactly the recompute
    for that document has run.  If the text parses, the new tree is
    cached, every name of the tree points to its place in this document
    and every other name is left as it was.  If the text does not parse,
    the cache and the symbol table are as they were before the change. *)
Theorem change_recompute_effect :
  forall (parse : jsstring -> Completion AnyNode) (s : State) (doc : TextDocument),
    tracked s -> isAfl doc ->
    exists s',
      run parse [Change doc; Wait 2000] s = (Returns [UpdateSymbols doc], s') /\
      match parse (getText doc) with
      | Returns ast =>
          JsMap.get (uri doc) (astMap s') = Some ast /\
          forall name,
            JsMap.get name (symbolTable s') =
            match JsMap.get name (tableOf ast (uri doc)) with
            | Some loc => Some loc
            | None => JsMap.get name (symbolTable s)
            end
      | Throws _ => astMap s' = astMap s /\ symbolTable s' = symbolTable s
      end.
Proof.
  intros parse s doc Htr Hafl.
  destruct (onDidChangeContent_afl s doc Htr Hafl) as (s1 & H1 & Ht1 & _ & Hnow & _).
  destruct (onDidChangeContent_tables doc s) as (s1' & H1' & Htab & _).
  rewrite H1 in H1'. injection H1' as <-.
  assert (Hast1 : astMap s1 = astMap s).
  { revert H1. unfold Server.onDidChangeContent. unfold isAfl in Hafl. rewrite Hafl.
    cbn [negb]. erewrite bind_eval by reflexivity.
    destruct (updateSymbolTimeout s); intros [= <-]; reflexivity. }
  destruct (elapse_single parse 2000 s1 _ doc Ht1 eq_refl ltac:(cbn; lia))
    as (st & s2 & Hst & Hsa & Hupd & Hel).
  exists s2. split.
  - cbn [run]. erewrite bind_eval by exact H1.
    erewrite bind_eval by exact Hel. reflexivity.
  - destruct (parse (getText doc)) as [ast|e] eqn:Hp.
    + destruct (analyzeText_with parse (getText doc) (uri doc) true st ast
                  (or_intror (conj (or_intror eq_refl) Hp)))
        as (s3 & Ha & _ & Hast & _).
      destruct (updateSymbolsForDocument_astMap _ _ _ _ _ _ _ Ha Hupd) as [Hm Ht].
      split.
      * rewrite Hm, Hast, get_set, eqs_refl. reflexivity.
      * intros name. rewrite Ht, (get_setAll _ _ _ (NoDup_tableOf ast (uri doc))).
        now rewrite Hst, Htab.
    + pose proof (analyzeText_eval parse (getText doc) (uri doc) true st) as He.
      cbv zeta in He. rewrite Hp in He.
      assert (Hnone : exists s3,
                SymbolTable.analyzeText parse (getText doc) (uri doc) true st
                  = (Returns JsMap.empty, s3) /\ astMap s3 = astMap st).
      { destruct He as (s3 & _ & He). exists s3.
        destruct (JsMap.get (uri doc) (astMap st)); destruct He as (Ha & Hast & _);
          now split. }
      destruct Hnone as (s3 & Ha & Hast).
      destruct (updateSymbolsForDocument_astMap _ _ _ _ _ _ _ Ha Hupd) as [Hm Ht].
      split.
      * now rewrite Hm, Hast, Hsa.
      * rewrite Ht, setAll_empty. now rewrite Hst.
Qed.

Lemma change_recompute_effect_witness :
  let pos := fun l c => {| p_line := l; p_column := c |} in
  let tree := Program None
                [Identifier (Some {| l_start := pos 1%positive 0; l_end := pos 1%positive 3 |})
                   (str "foo")] in
  let parse := fun _ : jsstring => Returns tree in
  let doc := {| uri := str "file:///a.afl"; languageId := str "afl";
                content := str "foo = 1;" |} in
  tracked initial /\ isAfl doc /\
  exists s',
    run parse [Change doc; Wait 2000] initial = (Returns [UpdateSymbols doc], s') /\
    JsMap.get (uri doc) (astMap s') = Some tree /\
    JsMap.get (str "foo") (symbolTable s')
      = Some {| loc_uri := uri doc; loc_range := Range_create 0 0 0 3 |}.
Proof.
  intros pos tree parse doc.
  assert (Htr : tracked initial) by (intros t []).
  assert (Hafl : isAfl doc) by reflexivity.
  split; [exact Htr|]. split; [exact Hafl|].
  destruct (change_recompute_effect parse initial doc Htr Hafl) as (s' & Hrun & Hast & Hget).
  exists s'. split; [exact Hrun|]. split; [exact Hast|]. exact (Hget (str "foo")).
Defined.

(** ** Comments *)

Lemma commentStep_true b l :
  Functions.commentStep b l = true <->
  (includes (str "/*") l = true \/ b = true) /\ includes (str "*/") l = false.
Proof.
  unfold Functions.commentStep.
  destruct (includes (str "/*") l), b, (includes (str "*/") l); cbn; intuition congruence.
Qed.

Lemma lineIncludes_S p l rest i : lineIncludes p (l :: rest) (S i) = lineIncludes p rest i.
Proof. reflexivity. Qed.

Lemma commentStateAt_true lines k b :
  k < length lines ->
  (commentStateAt lines k b = true <->
   (b = true /\ forall i, i <= k -> lineIncludes (str "*/") lines i = false) \/
   (exists j, j <= k /\ lineIncludes (str "/*") lines j = true /\
              forall i, j <= i <= k -> lineIncludes (str "*/") lines i = false)).
Proof.
  revert k b. induction lines as [|l rest IH]; intros k b Hk; [simpl in Hk; lia|].
  destruct k as [|k]; cbn [commentStateAt].
  - rewrite commentStep_true. split.
    + intros [[Ho|Hb] Hc].
      * right. exists 0. splits; [lia | exact Ho |].
        intros i Hi. replace i with 0 by lia. exact Hc.
      * left. split; [exact Hb|]. intros i Hi. replace i with 0 by lia. exact Hc.
    + intros [[Hb Hc]|(j & Hj & Ho & Hc)].
      * split; [now right | exact (Hc 0 (le_n 0))].
      * replace j with 0 in * by lia. split; [now left | apply (Hc 0); lia].
  - simpl in Hk. rewrite (IH k _ ltac:(lia)), commentStep_true. split.
    + intros [[[[Ho|Hb] Hc0] Hc]|(j & Hj & Ho & Hc)].
      * right. exists 0. splits; [lia | exact Ho |].
        intros [|i] Hi; [exact Hc0 | rewrite lineIncludes_S; apply Hc; lia].
      * left. split; [exact Hb|].
        intros [|i] Hi; [exact Hc0 | rewrite lineIncludes_S; apply Hc; lia].
      * right. exists (S j). splits; [lia | exact Ho |].
        intros [|i] Hi; [lia | rewrite lineIncludes_S; apply Hc; lia].
    + intros [[Hb Hc]|(j & Hj & Ho & Hc)].
      * left. split; [split; [now right | exact (Hc 0 ltac:(lia))]|].
        intros i Hi. rewrite <- (lineIncludes_S _ l). apply Hc. lia.
      * destruct j as [|j].
        -- left. split; [split; [now left | exact (Hc 0 ltac:(lia))]|].
           intros i Hi. rewrite <- (lineIncludes_S _ l). apply Hc. lia.
        -- right. exists j. splits; [lia | exact Ho |].
           intros i Hi. rewrite <- (lineIncludes_S _ l). apply Hc. lia.
Qed.

(** X17. Which lines the rule takes to be inside a block comment: line
    k is, exactly when some line up to and including k holds the
    opening marker and no line from that one to k holds the closing
    marker.  So the line that opens a block comment is itself not
    linted, whatever stands before the marker, and a line with the
    closing marker is linted as a whole. *)
Theorem block_comment_state :
  forall (text : jsstring) (k : nat),
    k < length (splitLines text) ->
    (commentStateAt (splitLines text) k false = true <->
     exists j, j <= k /\ lineIncludes (str "/*") (splitLines text) j = true /\
               forall i, j <= i <= k -> lineIncludes (str "*/") (splitLines text) i = false).
Proof.
  intros text k Hk. rewrite (commentStateAt_true _ k false Hk). split.
  - intros [[H _]|H]; [discriminate | exact H].
  - intros H. now right.
Qed.

Lemma block_comment_state_witness :
  let text := str "a = f(x); /* note" ++ [LF] ++ str "b = g(y);" ++ [LF]
              ++ str "c = h(z); */ d = k(w);" ++ [LF] ++ str "e = m( v );" in
  commentStateAt (splitLines text) 1 false = true /\
  commentStateAt (splitLines text) 2 false = false /\
  (commentStateAt (splitLines text) 1 false = true <->
   exists j, j <= 1 /\ lineIncludes (str "/*") (splitLines text) j = true /\
             forall i, j <= i <= 1 -> lineIncludes (str "*/") (splitLines text) i = false).
Proof.
  intros text. split; [reflexivity|]. split; [reflexivity|].
  apply (block_comment_state text 1). vm_compute. lia.
Defined.

Lemma forallb_skipn {A} (p : A -> bool) n l :
  forallb p l = true -> forallb p (skipn n l) = true.
Proof.
  revert l. induction n as [|n IH]; intros l H; [exact H|].
  destruct l as [|x l]; [reflexivity|].
  cbn [forallb] in H. apply andb_true_iff in H as [_ H]. cbn [skipn]. now apply IH.
Qed.

Lemma removeLineComment_step c r :
  forallb (fun d => negb (isLineTerminator d)) (c :: r) = true ->
  Functions.removeLineComment (c :: r) =
  if startsWith (str "//") (c :: r) then [] else c :: Functions.removeLineComment r.
Proof.
  intros H. cbn [Functions.removeLineComment].
  rewrite (forallb_skipn _ 2 _ H). now rewrite andb_true_r.
Qed.

Lemma removeLineComment_first_marker l :
  forallb (fun d => negb (isLineTerminator d)) l = true ->
  includes (str "//") (Functions.removeLineComment l) = false /\
  exists rest,
    l = Functions.removeLineComment l ++ rest /\
    (rest = [] \/ startsWith (str "//") rest = true).
Proof.
  induction l as [|c r IH]; intros H.
  - split; [reflexivity|]. exists []. split; [reflexivity | now left].
  - rewrite (removeLineComment_step c r H).
    assert (Hr : forallb (fun d => negb (isLineTerminator d)) r = true).
    { cbn [forallb] in H. now apply andb_true_iff in H as [_ H]. }
    destruct (IH Hr) as (Hinc & rest & Hrest & Hmark).
    destruct (startsWith (str "//") (c :: r)) eqn:E.
    + split; [reflexivity|]. exists (c :: r). split; [reflexivity | now right].
    + split.
      * rewrite includes_cons, Hinc, orb_false_r.
        change (str "//") with ["/"%char; "/"%char] in *.
        rewrite startsWith2_cons in *.
        destruct (eqc "/" c) eqn:Ec; [|reflexivity]. cbn [andb] in *.
        destruct r as [|d r']; [reflexivity|].
        rewrite startsWith1_cons in E.
        assert (E2 : startsWith ["/"%char; "/"%char] (d :: r') = false)
          by (rewrite startsWith2_cons, E; reflexivity).
        rewrite (removeLineComment_step d r' Hr).
        change (str "//") with ["/"%char; "/"%char]. rewrite E2.
        now rewrite startsWith1_cons.
      * exists rest. split; [|exact Hmark]. cbn [app]. now rewrite <- Hrest.
Qed.

(** X18. The text that the rule scans on a line is the line up to its
    first line-comment marker: for a line that holds no line
    terminator, which are the characters that the dot of the pattern
    does not match, the scanned part holds no such marker and the rest
    of the line, if there is one, begins with it.  No diagnostic reaches
    into that rest. *)
Theorem line_comment_is_cut_off :
  (forall l : jsstring,
     forallb (fun c => negb (isLineTerminator c)) l = true ->
     includes (str "//") (Functions.removeLineComment l) = false /\
     exists rest,
       l = Functions.removeLineComment l ++ rest /\
       (rest = [] \/ startsWith (str "//") rest = true)) /\
  (forall (text uri : jsstring) (d : Diagnostic),
     In d (Functions.checkFunctionSpaces text uri) ->
     exists l,
       nth_error (splitLines text) (line (start (range d))) = Some l /\
       character (end_ (range d)) <= length (Functions.removeLineComment l)).
Proof.
  split.
  - intros l Hl. now apply removeLineComment_first_marker.
  - intros text uri d Hd. unfold Functions.checkFunctionSpaces in Hd.
    apply checkLines_origin in Hd
      as (j & l & st & name & o & c & Hj & Hskip & Hin & Ho & Hc & _ & _ & ->).
    destruct (skipsLine_false _ _ Hskip) as (_ & Hq & _).
    rewrite (scannedLine_no_dquote l Hq) in *.
    pose proof (indexOf_found _ _ _ _ Ho) as Hlp.
    destruct (findCloseParen_found _ _ _ Hlp Hc) as [_ Hrp].
    exists l. cbn. split; [exact Hj|].
    assert (c < length (Functions.removeLineComment l))
      by (apply nth_error_Some; congruence).
    lia.
Qed.

Lemma line_comment_is_cut_off_witness :
  let l := str "x = f( a ); // was g(b) // h(c)" in
  Functions.removeLineComment l = str "x = f( a ); " /\
  includes (str "//") (Functions.removeLineComment l) = false /\
  exists rest,
    l = Functions.removeLineComment l ++ rest /\
    (rest = [] \/ startsWith (str "//") rest = true).
Proof.
  intros l. split; [reflexivity|].
  apply (proj1 line_comment_is_cut_off l). reflexivity.
Defined.

(** ** The document outline *)

Lemma createSymbol_wellFormed name kind children loc nodeLoc :
  (kind = Outline.SK_Variable -> children = []) ->
  Forall Outline.wellFormed children ->
  Forall Outline.wellFormed
    (Outline.normalizeDocumentSymbol (Outline.createSymbol name kind children loc nodeLoc)).
Proof.
  intros Hk Hc. unfold Outline.createSymbol.
  destruct name as [|c r]; [constructor|].
  destruct loc as [l|]; [|destruct nodeLoc as [l|]; [|constructor]];
    (constructor; [|constructor]); now constructor.
Qed.

Lemma nodeToDocumentSymbol_wellFormed :
  forall node,
    Forall Outline.wellFormed
      (Outline.normalizeDocumentSymbol (Outline.nodeToDocumentSymbol node)).
Proof.
  fix IH 1. intros node.
  destruct node as [loc id body|loc decls|loc id|loc].
  - cbn [Outline.nodeToDocumentSymbol].
    destruct id as [[| | |idLoc name|]|];
      try (apply createSymbol_wellFormed; [reflexivity | constructor]).
    apply createSymbol_wellFormed; [discriminate|].
    destruct body as [stmts|]; [|constructor].
    induction stmts as [|child rest IHl]; [constructor|].
    cbn [flat_map]. apply Forall_app. split; [apply IH | exact IHl].
  - cbn [Outline.nodeToDocumentSymbol].
    destruct decls as [|d ds];
      [apply createSymbol_wellFormed; [reflexivity | constructor]|].
    cbn [Outline.normalizeDocumentSymbol].
    generalize (d :: ds). intros l.
    induction l as [|child rest IHl]; [constructor|].
    cbn [flat_map]. apply Forall_app. split; [apply IH | exact IHl].
  - cbn [Outline.nodeToDocumentSymbol].
    destruct id as [[| | |idLoc name|]|];
      apply createSymbol_wellFormed; (reflexivity || constructor).
  - apply createSymbol_wellFormed; [reflexivity | constructor].
Qed.

(** X19. The outline request: for a document that the server does not
    hold the outline is empty; a syntax error of the parser is not
    caught but leaves the handler as an exception, with the state of
    the server untouched; and when the parser returns a tree, the state
    is untouched and every entry of the outline, at every depth, has a
    name, a selection range equal to its range, no detail, and children
    only if it is a function. *)
Theorem onDocumentSymbol_outline :
  forall (parse : jsstring -> Completion (option (list Outline.Node)))
         (uri : jsstring) (s : State),
    (JsMap.get uri (documents s) = None ->
     Outline.onDocumentSymbol parse uri s = (Returns [], s)) /\
    (forall (doc : TextDocument) (e : JsError),
       JsMap.get uri (documents s) = Some doc ->
       parse (getText doc) = Throws e ->
       Outline.onDocumentSymbol parse uri s = (Throws e, s)) /\
    (forall (symbols : list Outline.DocumentSymbol) (s' : State),
       Outline.onDocumentSymbol parse uri s = (Returns symbols, s') ->
       s' = s /\ Forall Outline.wellFormed symbols).
Proof.
  intros parse uri s. unfold Outline.onDocumentSymbol.
  erewrite bind_eval by reflexivity. cbv beta.
  destruct (JsMap.get uri (documents s)) as [doc|].
  - splits.
    + discriminate.
    + intros doc' e [= <-] Hp. unfold bind, call. now rewrite Hp.
    + intros symbols s'. unfold bind, call.
      destruct (parse (getText doc)) as [ast|e]; [|discriminate].
      intros [= <- <-]. split; [reflexivity|].
      generalize (match ast with Some body => body | None => [] end). intros body.
      induction body as [|node rest IHl]; [constructor|].
      cbn [flat_map]. apply Forall_app. split; [|exact IHl].
      pose proof (nodeToDocumentSymbol_wellFormed node) as H.
      now destruct (Outline.nodeToDocumentSymbol node).
  - splits.
    + reflexivity.
    + discriminate.
    + intros symbols s' [= <- <-]. split; [reflexivity | constructor].
Qed.

Lemma onDocumentSymbol_outline_witness :
  let pos := fun l c => {| p_line := l; p_column := c |} in
  let span := fun l1 c1 l2 c2 => Some {| l_start := pos l1 c1; l_end := pos l2 c2 |} in
  let body :=
    [ Outline.FunctionNode (span 1%positive 0 4%positive 1)
        (Some (Identifier (span 1%positive 9 1%positive 12) (str "sma")))
        (Some [ Outline.DeclarationNode (span 2%positive 2 2%positive 12)
                  [ Outline.DeclaratorNode (span 2%positive 2 2%positive 11)
                      (Some (Identifier (span 2%positive 2 2%positive 7) (str "total"))) ];
                Outline.PlainNode (span 3%positive 2 3%positive 15) ]);
      Outline.PlainNode (span 5%positive 0 5%positive 9) ] in
  let u := str "file:///a.afl" in
  let doc := {| uri := u; languageId := str "afl"; content := str "..." |} in
  let s := with_documents (fun _ => [(u, doc)]) initial in
  let good := fun _ : jsstring => Returns (Some body) in
  let bad := fun _ : jsstring =>
               @Throws (option (list Outline.Node)) (SyntaxError (str "Unexpected token")) in
  Outline.onDocumentSymbol good u s =
    (Returns [ Outline.DocumentSymbol_create (str "sma") [] Outline.SK_Function
                 (Range_create 0 0 3 1) (Range_create 0 0 3 1)
                 [ Outline.DocumentSymbol_create (str "total") [] Outline.SK_Variable
                     (Range_create 1 2 1 7) (Range_create 1 2 1 7) [] ] ], s) /\
  Outline.onDocumentSymbol bad u s = (Throws (SyntaxError (str "Unexpected token")), s) /\
  Forall Outline.wellFormed
    [ Outline.DocumentSymbol_create (str "sma") [] Outline.SK_Function
        (Range_create 0 0 3 1) (Range_create 0 0 3 1)
        [ Outline.DocumentSymbol_create (str "total") [] Outline.SK_Variable
            (Range_create 1 2 1 7) (Range_create 1 2 1 7) [] ] ].
Proof.
  intros pos span body u doc s good bad.
  split; [reflexivity|]. split.
  - exact (proj1 (proj2 (onDocumentSymbol_outline bad u s)) doc _ eq_refl eq_refl).
  - exact (proj2 (proj2 (proj2 (onDocumentSymbol_outline good u s)) _ s eq_refl)).
Defined.
